(** * Request streaming engines of [jina/peapods/stream/base.py]

    A shallow embedding of [BaseStreamer._stream_requests] (the unbounded
    engine) and [BaseStreamer._stream_requests_with_prefetch] (the prefetch
    engine) as labelled transition systems over explicit state.

    asyncio runs one callback at a time, so the code between two suspension
    points ([await], [yield]) is atomic.  Each atomic block of the source is
    one transition here; the labels say who runs: the async generator (driven
    by the caller pulling the next result), the [iterate_requests] task, the
    [result_queue.get()] task, or the dispatcher completing a future (which
    runs the future's done-callbacks).  An execution is a list of labels, and
    statements about "every execution" quantify over all such lists.

    The hooks of the subclass are taken to honour the dispatch contract:
    [_handle_request] returns a future without raising, and [_handle_result]
    and [_handle_end_of_iter] return without raising.  What an exception of
    a hook would do to an engine is not modelled, and every statement below
    is made under this contract. *)

From stdpp Require Import gmap strings list sorting.

(** ** Data model *)

(** A request: an identifier and an opaque payload. *)
Record Request := { request_id : string; data : string }.

(** The eventual outcome of the future returned by [_handle_request]. *)
Inductive Outcome (Raw : Type) :=
| Ok (v : Raw)
| Failed (e : string).
Arguments Ok {Raw} v.
Arguments Failed {Raw} e.

(** What the request iterator does when asked for its next element:
    it hands out a request, or it raises (a producer fault).  The empty
    list is the exhausted iterator. *)
Inductive src_item :=
| Item (r : Request)
| Fault.

(** Exceptions that can leave the generator when the hooks honour the
    dispatch contract. *)
Inductive exn :=
| OpFailure (e : string)   (* raised by [future.result()] / [await r] *)
| KeyError (k : string)    (* raised by [set.remove] *)
| ProducerFault.           (* raised by the request iterator *)

(** Who runs next.  [Complete i o]: the dispatcher finishes future [i] with
    outcome [o]. *)
Inductive event (Raw : Type) :=
| Consumer
| Producer
| GetResult
| Complete (i : nat) (o : Outcome Raw).
Arguments Consumer {Raw}.
Arguments Producer {Raw}.
Arguments GetResult {Raw}.
Arguments Complete {Raw} i o.

(** State of the async generator as seen by its caller. *)
Inductive gen_status :=
| Finished            (* returned: StopAsyncIteration *)
| Raised (e : exn).   (* an exception left the generator *)

Inductive log_level := Error | Debug.

Definition is_item (x : src_item) : Prop :=
  match x with Item _ => True | Fault => False end.

Definition succeeds {Raw} (e : event Raw) : Prop :=
  match e with Complete _ (Failed _) => False | _ => True end.

Definition completion {Raw} (e : event Raw) : option nat :=
  match e with Complete i _ => Some i | _ => None end.

(** The futures completed by a schedule, in completion order. *)
Definition completions {Raw} (sched : list (event Raw)) : list nat :=
  omap completion sched.

(** The requests a source hands out, in source order, and their
    identifiers. *)
Definition requests_of (src : list src_item) : list Request :=
  omap (λ x, match x with Item r => Some r | Fault => None end) src.

Definition ids_of (src : list src_item) : list string :=
  request_id <$> requests_of src.

Definition is_Some_b {A} (o : option A) : bool :=
  match o with Some _ => true | None => false end.

(** ** The unbounded engine: [_stream_requests] *)

Module Unbounded.
Section Engine.
Context {Raw Result : Type}.
Variable handle_result : Raw → Result.

(** Where the generator body is suspended. *)
Inductive gen_state :=
| GStart                  (* not started: no [__anext__] yet *)
| GWait                   (* at [await asyncio.wait(...)] *)
| GYield (rid : string)   (* at [yield], [request_id] still to be removed *)
| GEnd (st : gen_status).

(** The task created by [asyncio.create_task(iterate_requests())]. *)
Inductive task_state :=
| TNotCreated
| TRunning
| TFinished
| TFailed.   (* ended by an exception that nobody retrieves *)

Record state := {
  (* environment *)
  request_iterator : list src_item;
  futures : list (Request * option (Outcome Raw));
  (* locals of [_stream_requests] *)
  result_queue : list (string * nat);
  end_of_iter : bool;
  requests_to_handle : gset string;
  all_requests_handled : bool;
  get_result_task : option (option (string * nat));
  producer : task_state;
  gen : gen_state;
  (* observations *)
  yielded : list (nat * Result);
  eoi_calls : nat;
  result_reads : list nat;
}.

Definition init (src : list src_item) : state :=
  {| request_iterator := src; futures := [];
     result_queue := []; end_of_iter := false; requests_to_handle := ∅;
     all_requests_handled := false; get_result_task := None;
     producer := TNotCreated; gen := GStart;
     yielded := []; eoi_calls := 0; result_reads := [] |}.

(** [callback_wrapper(request)(future)]: the done-callback of future [i].
    It only does [result_queue.put_nowait((request.request_id, future))]. *)
Definition callback (r : Request) (i : nat) (s : state) : state :=
  {| s with result_queue := result_queue s ++ [(request_id r, i)] |}.

(** The dispatcher completes future [i]; its done-callback runs. *)
Definition complete (i : nat) (o : Outcome Raw) (s : state) : option state :=
  match futures s !! i with
  | Some (r, None) =>
      Some (callback r i {| s with futures := <[i := (r, Some o)]> (futures s) |})
  | _ => None
  end.

(** One atomic block of [iterate_requests]: from one [__anext__] of the
    request iterator to the next, or to the end of the coroutine. *)
Definition iterate_requests (s : state) : option state :=
  match producer s with
  | TRunning =>
      match request_iterator s with
      | Item r :: rest =>
          Some {| s with request_iterator := rest;
                         requests_to_handle := {[request_id r]} ∪ requests_to_handle s;
                         futures := futures s ++ [(r, None)] |}
      | Fault :: rest =>
          Some {| s with request_iterator := rest; producer := TFailed |}
      | [] =>
          Some {| s with eoi_calls := S (eoi_calls s);
                         end_of_iter := true;
                         all_requests_handled :=
                           if decide (size (requests_to_handle s) = 0) then true
                           else all_requests_handled s;
                         producer := TFinished |}
      end
  | _ => None
  end.

(** The task [asyncio.create_task(result_queue.get())] takes the head of
    the queue. *)
Definition queue_get (s : state) : option state :=
  match get_result_task s, result_queue s with
  | Some None, e :: q =>
      Some {| s with get_result_task := Some (Some e); result_queue := q |}
  | _, _ => None
  end.

(** Head of [while not all_requests_handled.is_set()]. *)
Definition loop_head (s : state) : state :=
  if all_requests_handled s then {| s with gen := GEnd Finished |}
  else {| s with gen := GWait |}.

(** One atomic block of the generator body. *)
Definition stream_requests (s : state) : option state :=
  match gen s with
  | GStart =>
      let s1 := {| s with producer := TRunning |} in
      let s2 := if all_requests_handled s1 then s1
                else {| s1 with get_result_task := Some None |} in
      Some (loop_head s2)
  | GWait =>
      match get_result_task s with
      | Some (Some (rid, i)) =>
          (* [get_result_task.done()]; [future.result()] *)
          match futures s !! i with
          | Some (_, Some (Ok v)) =>
              Some {| s with result_reads := result_reads s ++ [i];
                             yielded := yielded s ++ [(i, handle_result v)];
                             gen := GYield rid |}
          | Some (_, Some (Failed e)) =>
              Some {| s with result_reads := result_reads s ++ [i];
                             gen := GEnd (Raised (OpFailure e)) |}
          | _ => None
          end
      | _ =>
          (* woken by [wait_all_requests_handled] only *)
          if all_requests_handled s then Some (loop_head s) else None
      end
  | GYield rid =>
      if decide (rid ∈ requests_to_handle s) then
        let s1 := {| s with requests_to_handle := requests_to_handle s ∖ {[rid]} |} in
        let s2 := if bool_decide (size (requests_to_handle s1) = 0) && end_of_iter s1
                  then {| s1 with all_requests_handled := true |}
                  else {| s1 with get_result_task := Some None |} in
        Some (loop_head s2)
      else Some {| s with gen := GEnd (Raised (KeyError rid)) |}
  | GEnd _ => None
  end.

Definition step (e : event Raw) (s : state) : option state :=
  match e with
  | Consumer => stream_requests s
  | Producer => iterate_requests s
  | GetResult => queue_get s
  | Complete i o => complete i o s
  end.

Fixpoint run (sched : list (event Raw)) (s : state) : option state :=
  match sched with
  | [] => Some s
  | e :: es => s' ← step e s; run es s'
  end.

(** Nothing can run any more: the execution is over, or it hangs. *)
Definition stuck (s : state) : Prop := ∀ e, step e s = None.

Definition results (s : state) : list Result := (yielded s).*2.

(** *** Derived views of a state *)

(** The entry held by a finished [get_result_task] whose future has not
    been read yet. *)
Definition held (s : state) : list nat :=
  match get_result_task s with
  | Some (Some (_, i)) => if decide (i ∈ result_reads s) then [] else [i]
  | _ => []
  end.

(** Completed futures in the order their callbacks ran: those already
    read, the one in the hands of [get_result_task], those still queued. *)
Definition completed_order (s : state) : list nat :=
  result_reads s ++ held s ++ (result_queue s).*2.

(** The future whose outcome was read but whose identifier is still in
    [requests_to_handle] (the generator sits at [yield], or died in
    [future.result()]). *)
Definition pending_removal (s : state) : option nat :=
  match gen s with
  | GYield _ | GEnd (Raised (OpFailure _)) => last (result_reads s)
  | _ => None
  end.

(** Dispatched and not yet yielded. *)
Definition unyielded (s : state) : nat := length (futures s) - length (yielded s).

(** An upper bound on the number of transitions left. *)
Definition fuel_left (s : state) : nat :=
  match producer s with
  | TRunning => 1 + 5 * length (request_iterator s)
  | _ => 0
  end
  + 4 * length (filter (λ f, f.2 = None) (futures s))
  + 3 * length (result_queue s)
  + match get_result_task s, gen s with
    | Some (Some _), GWait => 2
    | _, _ => 0
    end
  + match gen s with
    | GStart => 3 + 5 * length (request_iterator s)
    | GWait => 1
    | GYield _ => 2
    | GEnd _ => 0
    end.


(** *** The invariant of reachable states

    [src] is the request iterator the generator was started on and
    [sched] the execution so far. *)
Record inv (src : list src_item) (sched : list (event Raw)) (s : state) : Prop := {
  inv_source : ∃ pre, src = pre ++ request_iterator s ∧ (futures s).*1 = requests_of pre;
  inv_failed : producer s = TFailed → ¬ Forall is_item src;
  inv_order : completed_order s = completions sched;
  inv_nodup : NoDup (completed_order s);
  inv_done : ∀ i, i ∈ completed_order s ↔ ∃ r o, futures s !! i = Some (r, Some o);
  inv_queue : ∀ rid i,
    (rid, i) ∈ result_queue s ∨ get_result_task s = Some (Some (rid, i)) →
    ∃ r o, futures s !! i = Some (r, o) ∧ rid = request_id r;
  inv_reads : (yielded s).*1 = result_reads s ∨
    ∃ i e, gen s = GEnd (Raised (OpFailure e)) ∧ result_reads s = (yielded s).*1 ++ [i];
  inv_vals : ∀ i v, (i, v) ∈ yielded s →
    ∃ r raw, futures s !! i = Some (r, Some (Ok raw)) ∧ v = handle_result raw;
  inv_gyield : ∀ rid, gen s = GYield rid →
    ∃ i, last (result_reads s) = Some i ∧ get_result_task s = Some (Some (rid, i));
  inv_failure : ∀ e, gen s = GEnd (Raised (OpFailure e)) →
    ∃ i r, last (result_reads s) = Some i ∧ futures s !! i = Some (r, Some (Failed e));
  inv_eoi : end_of_iter s = true ↔ producer s = TFinished;
  inv_eoi_calls : eoi_calls s = if end_of_iter s then 1 else 0;
  inv_exhausted : producer s = TFinished → request_iterator s = [];
  inv_start : gen s = GStart → s = init src;
  inv_created : producer s = TNotCreated → gen s = GStart;
  inv_wait : gen s = GWait →
    ∃ t, get_result_task s = Some t ∧ ∀ rid i, t = Some (rid, i) → i ∉ result_reads s;
  inv_handled : all_requests_handled s = true →
    end_of_iter s = true ∧ requests_to_handle s = ∅;
  inv_live : end_of_iter s = true → requests_to_handle s = ∅ →
    all_requests_handled s = true;
  inv_finished : gen s = GEnd Finished → all_requests_handled s = true;
  inv_nofault : gen s ≠ GEnd (Raised ProducerFault);
  inv_set : NoDup (ids_of src) → ∀ x, x ∈ requests_to_handle s ↔
    ∃ i r o, futures s !! i = Some (r, o) ∧ request_id r = x ∧
             (i ∉ result_reads s ∨ pending_removal s = Some i);
  inv_nokeyerror : NoDup (ids_of src) → ∀ k, gen s ≠ GEnd (Raised (KeyError k));
}.

(** *** A scheduler that runs an execution to its end

    It lets the engine's own code run whenever it can, and otherwise
    completes the oldest pending future successfully. *)
Context `{!Inhabited Raw}.

Definition next_event (s : state) : option (event Raw) :=
  if is_Some_b (stream_requests s) then Some Consumer
  else if is_Some_b (iterate_requests s) then Some Producer
  else if is_Some_b (queue_get s) then Some GetResult
  else match list_find (λ f, f.2 = None) (futures s) with
       | Some (i, _) => Some (Complete i (Ok inhabitant))
       | None => None
       end.

Fixpoint drain (fuel : nat) (s : state) : list (event Raw) * state :=
  match fuel with
  | 0 => ([], s)
  | S fuel' =>
      match next_event s with
      | Some e =>
          match step e s with
          | Some s' => let '(es, s'') := drain fuel' s' in (e :: es, s'')
          | None => ([], s)
          end
      | None => ([], s)
      end
  end.

End Engine.
End Unbounded.

(** ** The prefetch engine: [_stream_requests_with_prefetch] *)

Module Prefetch.
Section Engine.
Context {Raw Result : Type}.
Variable handle_result : Raw → Result.
(** [self.logger.debug_enabled], and whether [self.msg_handler] has both
    [msg_sent] and [msg_recv]. *)
Variable debug_enabled : bool.
Variable has_msg_counters : bool.
(** The order in which CPython iterates a [set] of futures: [set_rank k i]
    is the place of future [i] in the set that the [k]-th call of
    [asyncio.as_completed] builds.  That order follows the hashes of the
    future objects and is not the engine's to choose; the engine is
    modelled for every such order. *)
Variable set_rank : nat → nat → nat.

(** The list [iterate_requests] appends to. *)
Inductive target := ToPrefetch | ToOnrecv.

(** Where the generator body is suspended. *)
Inductive gen_state :=
| PIter (num_req count : nat) (fetch_to : target)
    (* inside [iterate_requests(num_req, fetch_to)], at [__anext__] *)
| PShortWait    (* [res = await r] of the short-input loop *)
| PShortYield   (* [yield] of the short-input loop *)
| PWait         (* [res = await r] of the interleaving loop *)
| PYield        (* [yield] of the interleaving loop *)
| PEnd (st : gen_status).

Record state := {
  (* environment *)
  request_iterator : list src_item;
  futures : list (Request * option (Outcome Raw));
  completed : list nat;   (* futures in the order the dispatcher completed them *)
  (* locals of [_stream_requests_with_prefetch] *)
  prefetch_task : list nat;
  onrecv_task : list nat;
  is_req_empty : bool;
  ac_done : list nat;     (* [asyncio.as_completed]: its queue [done] *)
  ac_todo : list nat;     (* [asyncio.as_completed]: not finished *)
  gen : gen_state;
  (* observations *)
  yielded : list (nat * Result);
  eoi_calls : nat;
  log : list log_level;
  result_reads : list nat;
  as_completed_calls : nat;
}.

Definition init (prefetch : nat) (src : list src_item) : state :=
  {| request_iterator := src; futures := []; completed := [];
     prefetch_task := []; onrecv_task := []; is_req_empty := false;
     ac_done := []; ac_todo := [];
     gen := PIter prefetch 0 ToPrefetch;
     yielded := []; eoi_calls := 0; log := []; result_reads := [];
     as_completed_calls := 0 |}.

(** The dispatcher completes future [i]; a running [as_completed] that
    waits for it moves it to its queue of finished futures. *)
Definition complete (i : nat) (o : Outcome Raw) (s : state) : option state :=
  match futures s !! i with
  | Some (r, None) =>
      Some {| s with futures := <[i := (r, Some o)]> (futures s);
                     completed := completed s ++ [i];
                     ac_done := if decide (i ∈ ac_todo s) then ac_done s ++ [i]
                                else ac_done s;
                     ac_todo := filter (λ j, j ≠ i) (ac_todo s) |}
  | _ => None
  end.

Definition fetch_append (fetch_to : target) (i : nat) (s : state) : state :=
  match fetch_to with
  | ToPrefetch => {| s with prefetch_task := prefetch_task s ++ [i] |}
  | ToOnrecv => {| s with onrecv_task := onrecv_task s ++ [i] |}
  end.

Inductive iter_result :=
| IterNext (count : nat)   (* back at [__anext__] *)
| IterReturn (b : bool)
| IterRaise.

(** One round of the [async for] of [iterate_requests(num_req, fetch_to)],
    entered with [count]. *)
Definition iterate_requests (num_req count : nat) (fetch_to : target)
    (s : state) : state * iter_result :=
  match request_iterator s with
  | Item r :: rest =>
      let s1 := fetch_append fetch_to (length (futures s))
                  {| s with request_iterator := rest;
                            futures := futures s ++ [(r, None)] |} in
      if decide (S count = num_req) then (s1, IterReturn false)
      else (s1, IterNext (S count))
  | Fault :: rest => ({| s with request_iterator := rest |}, IterRaise)
  | [] => (s, IterReturn true)
  end.

(** The futures [l] in the order of the set of the [k]-th call. *)
Definition set_order (k : nat) (l : list nat) : list nat :=
  @merge_sort nat (λ i j, set_rank k i ≤ set_rank k j)
              (λ i j, decide (set_rank k i ≤ set_rank k j)) l.

(** [asyncio.as_completed(prefetch_task)]: it builds [todo], a set of the
    futures, and does [f.add_done_callback(_on_completion)] for [f] in
    [todo].  The callback of a future that is done already is scheduled
    right there, so the futures finished before the call enter the queue
    [done] in the order of the set, whatever the order in which they
    finished; every other future enters it when it completes. *)
Definition as_completed (s : state) : state :=
  {| s with ac_done := set_order (as_completed_calls s)
                         (filter (λ i, i ∈ prefetch_task s) (completed s));
            ac_todo := filter (λ i, i ∉ completed s) (prefetch_task s);
            as_completed_calls := S (as_completed_calls s) |}.

(** Next round of the [for] of the short-input branch. *)
Definition short_next (s : state) : state :=
  if bool_decide (ac_done s ++ ac_todo s = []) then {| s with gen := PEnd Finished |}
  else {| s with gen := PShortWait |}.

(** Head of [while prefetch_task], up to the first [await r]. *)
Definition while_head (s : state) : state :=
  if bool_decide (prefetch_task s = []) then {| s with gen := PEnd Finished |}
  else
    let s1 := if debug_enabled && has_msg_counters
              then {| s with log := log s ++ [Debug] |} else s in
    let s2 := as_completed {| s1 with onrecv_task := [] |} in
    {| s2 with gen := PWait |}.

(** Next round of the [for] of the interleaving branch; when the window
    is drained, [prefetch_task] becomes a copy of [onrecv_task]. *)
Definition for_next (s : state) : state :=
  if bool_decide (ac_done s ++ ac_todo s = [])
  then while_head {| s with prefetch_task := onrecv_task s |}
  else {| s with gen := PWait |}.

(** The code after the first [iterate_requests] returns. *)
Definition after_fill (s : state) : state :=
  if is_req_empty s && bool_decide (prefetch_task s = []) then
    {| s with log := log s ++ [Error]; gen := PEnd Finished |}
  else if is_req_empty s then short_next (as_completed s)
  else while_head {| s with onrecv_task := [] |}.

(** [res = await r; yield self._handle_result(res)] *)
Definition await_yield (at_yield : gen_state) (s : state) : option state :=
  match ac_done s with
  | i :: rest =>
      match futures s !! i with
      | Some (_, Some (Ok v)) =>
          Some {| s with ac_done := rest;
                         result_reads := result_reads s ++ [i];
                         yielded := yielded s ++ [(i, handle_result v)];
                         gen := at_yield |}
      | Some (_, Some (Failed e)) =>
          Some {| s with ac_done := rest;
                         result_reads := result_reads s ++ [i];
                         gen := PEnd (Raised (OpFailure e)) |}
      | _ => None
      end
  | [] => None
  end.

(** One atomic block of the generator body. *)
Definition stream_requests_with_prefetch (s : state) : option state :=
  match gen s with
  | PIter num_req count fetch_to =>
      match iterate_requests num_req count fetch_to s with
      | (s1, IterNext c) => Some {| s1 with gen := PIter num_req c fetch_to |}
      | (s1, IterReturn b) =>
          let s2 := {| s1 with is_req_empty := b |} in
          Some match fetch_to with
               | ToPrefetch => after_fill s2
               | ToOnrecv => for_next s2
               end
      | (s1, IterRaise) => Some {| s1 with gen := PEnd (Raised ProducerFault) |}
      end
  | PShortWait => await_yield PShortYield s
  | PShortYield => Some (short_next s)
  | PWait => await_yield PYield s
  | PYield =>
      if is_req_empty s then Some (for_next s)
      else Some {| s with gen := PIter 1 0 ToOnrecv |}
  | PEnd _ => None
  end.

Definition step (e : event Raw) (s : state) : option state :=
  match e with
  | Consumer => stream_requests_with_prefetch s
  | Complete i o => complete i o s
  | Producer | GetResult => None   (* no such tasks in this engine *)
  end.

Fixpoint run (sched : list (event Raw)) (s : state) : option state :=
  match sched with
  | [] => Some s
  | e :: es => s' ← step e s; run es s'
  end.

Definition stuck (s : state) : Prop := ∀ e, step e s = None.

Definition results (s : state) : list Result := (yielded s).*2.

(** Dispatched and not yet yielded. *)
Definition unyielded (s : state) : nat := length (futures s) - length (yielded s).

(** The futures the generator is about to await: the first window while
    it is being filled, afterwards what [as_completed] still holds. *)
Definition active (s : state) : list nat :=
  match gen s with
  | PIter _ _ ToPrefetch => prefetch_task s
  | _ => ac_done s ++ ac_todo s
  end.

(** An upper bound on the number of transitions left. *)
Definition fuel_left (s : state) : nat :=
  6 * length (request_iterator s)
  + length (filter (λ f, f.2 = None) (futures s))
  + 3 * (length (futures s) - length (result_reads s))
  + match gen s with
    | PIter _ _ _ => 1
    | PShortYield | PYield => 2
    | _ => 0
    end.


(** The generator has not been ended by an exception. *)
Definition alive (s : state) : Prop :=
  match gen s with PEnd (Raised _) => False | _ => True end.

(** *** The invariant of reachable states

    [N] is the [prefetch] argument, [src] the request iterator the
    generator was started on and [sched] the execution so far. *)
Record pinv (N : nat) (src : list src_item) (sched : list (event Raw)) (s : state)
    : Prop := {
  pi_source : ∃ pre, src = pre ++ request_iterator s ∧
    (futures s).*1 = requests_of pre ∧
    (Forall is_item pre ∨ gen s = PEnd (Raised ProducerFault));
  pi_fault : gen s = PEnd (Raised ProducerFault) → ¬ Forall is_item src;
  pi_completed : completed s = completions sched;
  pi_nodup : NoDup (completed s);
  pi_done : ∀ i, i ∈ completed s ↔ ∃ r o, futures s !! i = Some (r, Some o);
  pi_reads : (yielded s).*1 = result_reads s ∨
    ∃ i e, gen s = PEnd (Raised (OpFailure e)) ∧ result_reads s = (yielded s).*1 ++ [i];
  pi_vals : ∀ i v, (i, v) ∈ yielded s →
    ∃ r raw, futures s !! i = Some (r, Some (Ok raw)) ∧ v = handle_result raw;
  pi_failure : ∀ e, gen s = PEnd (Raised (OpFailure e)) →
    ∃ i r, last (result_reads s) = Some i ∧ futures s !! i = Some (r, Some (Failed e));
  pi_eoi : eoi_calls s = 0;
  pi_read_done : ∀ i, i ∈ result_reads s → i ∈ completed s;
  pi_partition : alive s →
    seq 0 (length (futures s)) ≡ₚ result_reads s ++ active s ++ onrecv_task s;
  pi_todo : ∀ i, i ∈ ac_todo s → i ∉ completed s;
  pi_acdone : ∀ i, i ∈ ac_done s → i ∈ completed s;
  pi_wait : gen s = PWait ∨ gen s = PShortWait → ac_done s ++ ac_todo s ≠ [];
  pi_empty : is_req_empty s = true → request_iterator s = [];
  pi_fill : ∀ n c, gen s = PIter n c ToPrefetch →
    n = N ∧ c = length (futures s) ∧ yielded s = [] ∧ result_reads s = [] ∧
    onrecv_task s = [] ∧ ac_done s = [] ∧ ac_todo s = [] ∧
    is_req_empty s = false ∧ as_completed_calls s = 0 ∧ log s = [] ∧
    (1 ≤ N → c < N);
  pi_refill : ∀ n c, gen s = PIter n c ToOnrecv → n = 1 ∧ c = 0;
  pi_short : gen s = PShortWait ∨ gen s = PShortYield →
    is_req_empty s = true ∧ onrecv_task s = [];
  pi_finished : gen s = PEnd Finished →
    request_iterator s = [] ∧ ac_done s ++ ac_todo s = [] ∧ onrecv_task s = [];
  pi_log : Error ∉ log s ∨ (log s = [Error] ∧ src = [] ∧ gen s = PEnd Finished);
  pi_nokeyerror : ∀ k, gen s ≠ PEnd (Raised (KeyError k));
}.

(** The part of a state that only [iterate_requests], [await_yield] and
    the dispatcher change. *)
Definition env (s : state) :=
  (request_iterator s, futures s, completed s, yielded s, result_reads s,
   eoi_calls s, is_req_empty s).

Definition waiting_or_finished (s : state) : Prop :=
  gen s = PWait ∨ gen s = PShortWait ∨ gen s = PEnd Finished.

(** The bound on dispatched, not yet yielded requests: a [yield] frees
    one slot, and only then is one more request fetched. *)
Definition cap_ok (N : nat) (s : state) : Prop :=
  match gen s with
  | PYield | PIter _ _ ToOnrecv => S (length (futures s)) ≤ N + length (yielded s)
  | _ => length (futures s) ≤ N + length (yielded s)
  end.


(** Until [as_completed] is called for the first time nothing is in
    [onrecv_task] and the generator is filling the first window or has
    ended.  Afterwards the futures of the current window that have been
    read or wait in the queue are those of the window that have completed,
    and [as_completed] waits for the others. *)
Definition window_ok (s : state) : Prop :=
  (as_completed_calls s = 0 →
   onrecv_task s = [] ∧
   ((∃ n c, gen s = PIter n c ToPrefetch) ∨ ∃ st, gen s = PEnd st)) ∧
  (1 ≤ as_completed_calls s →
   filter (λ i, i ∈ prefetch_task s) (result_reads s) ++ ac_done s
     ≡ₚ filter (λ i, i ∈ prefetch_task s) (completed s) ∧
   ac_todo s = filter (λ i, i ∉ completed s) (prefetch_task s)).

(** *** What one block of the generator does

    Once the first window is complete, a block of the generator either
    reads the future at the head of the queue of [as_completed]; or stays
    in the window and at most puts a refill into [onrecv_task]; or finds
    the window drained and nothing in [onrecv_task], and returns; or finds
    the window drained, makes the refills the next window and calls
    [as_completed] on it. *)
Definition takes_head (s s' : state) : Prop :=
  ∃ j d, (gen s = PWait ∨ gen s = PShortWait) ∧
         ac_done s = j :: d ∧ ac_done s' = d ∧
         result_reads s' = result_reads s ++ [j] ∧
         prefetch_task s' = prefetch_task s ∧ onrecv_task s' = onrecv_task s ∧
         ac_todo s' = ac_todo s ∧
         as_completed_calls s' = as_completed_calls s ∧
         completed s' = completed s.

Definition stays (s s' : state) : Prop :=
  result_reads s' = result_reads s ∧ prefetch_task s' = prefetch_task s ∧
  ac_done s' = ac_done s ∧ ac_todo s' = ac_todo s ∧
  as_completed_calls s' = as_completed_calls s ∧ completed s' = completed s ∧
  (onrecv_task s' = onrecv_task s ∨
   onrecv_task s' = onrecv_task s ++ [length (futures s)]).

Definition returns (s s' : state) : Prop :=
  ac_done s ++ ac_todo s = [] ∧ onrecv_task s = [] ∧
  result_reads s' = result_reads s ∧ prefetch_task s' = [] ∧
  ac_done s' = [] ∧ ac_todo s' = [] ∧ onrecv_task s' = [] ∧
  as_completed_calls s' = as_completed_calls s ∧ completed s' = completed s ∧
  gen s' = PEnd Finished.

Definition switches (s s' : state) : Prop :=
  ac_done s ++ ac_todo s = [] ∧
  result_reads s' = result_reads s ∧
  as_completed_calls s' = S (as_completed_calls s) ∧
  onrecv_task s' = [] ∧ completed s' = completed s ∧
  (prefetch_task s' = onrecv_task s ∨
   prefetch_task s' = onrecv_task s ++ [length (futures s)]) ∧
  ac_done s' = set_order (as_completed_calls s)
                 (filter (λ i, i ∈ prefetch_task s') (completed s)) ∧
  ac_todo s' = filter (λ i, i ∉ completed s) (prefetch_task s').

(** *** A scheduler that runs an execution to its end *)
Context `{!Inhabited Raw}.

Definition next_event (s : state) : option (event Raw) :=
  match stream_requests_with_prefetch s with
  | Some _ => Some Consumer
  | None =>
      match list_find (λ f, f.2 = None) (futures s) with
      | Some (i, _) => Some (Complete i (Ok inhabitant))
      | None => None
      end
  end.

Fixpoint drain (fuel : nat) (s : state) : list (event Raw) * state :=
  match fuel with
  | 0 => ([], s)
  | S fuel' =>
      match next_event s with
      | Some e =>
          match step e s with
          | Some s' => let '(es, s'') := drain fuel' s' in (e :: es, s'')
          | None => ([], s)
          end
      | None => ([], s)
      end
  end.

End Engine.
End Prefetch.

(** ** Timed executions

    A scheduler for scenarios given by handling delays: the engine's own
    code takes no time, the caller pulls as soon as it can, and the future
    of the [i]-th dispatched request finishes [delay i] time units after
    its dispatch with outcome [outcome i]. *)

Section Timed.
Context {Raw St : Type}.
Variable step : event Raw → St → option St.
Variable dispatched : St → nat.
Variable delay : nat → nat.
Variable outcome : nat → Outcome Raw.

(** The pending completion that is due first ([(due time, future)]);
    the earlier dispatch wins a tie. *)
Fixpoint earliest (due : list (nat * nat)) : option (nat * nat) :=
  match due with
  | [] => None
  | d :: rest =>
      match earliest rest with
      | Some d' => if decide (d'.1 < d.1) then Some d' else Some d
      | None => Some d
      end
  end.

Definition newly_due (clock : nat) (before after : nat) : list (nat * nat) :=
  (λ i, (clock + delay i, i)) <$> seq before (after - before).

Fixpoint timed (fuel clock : nat) (due : list (nat * nat)) (s : St)
    : list (event Raw) * St :=
  match fuel with
  | 0 => ([], s)
  | S fuel' =>
      let internal e s' :=
        let '(es, s'') :=
          timed fuel' clock (due ++ newly_due clock (dispatched s) (dispatched s')) s' in
        (e :: es, s'') in
      match step GetResult s, step Consumer s, step Producer s with
      | Some s', _, _ => internal GetResult s'
      | None, Some s', _ => internal Consumer s'
      | None, None, Some s' => internal Producer s'
      | None, None, None =>
          match earliest due with
          | Some (t, i) =>
              match step (Complete i (outcome i)) s with
              | Some s' =>
                  let '(es, s'') :=
                    timed fuel' t (filter (λ d, d.2 ≠ i) due) s' in
                  (Complete i (outcome i) :: es, s'')
              | None => ([], s)
              end
          | None => ([], s)
          end
      end
  end.
End Timed.


(** * Concrete streams

    The requests and executions used below to exercise the two engines.
    The raw outcome of an operation and the result handed to the caller are
    both strings, and [_handle_result] hands the raw outcome on unchanged. *)

Definition req_A : Request := {| request_id := "a"; data := "A" |}.
Definition req_B : Request := {| request_id := "b"; data := "B" |}.
Definition req_C : Request := {| request_id := "c"; data := "C" |}.
Definition req_D : Request := {| request_id := "d"; data := "D" |}.

(** Two different requests that carry the same [request_id]. *)
Definition req_X1 : Request := {| request_id := "x"; data := "X1" |}.
Definition req_X2 : Request := {| request_id := "x"; data := "X2" |}.

Definition echo (raw : string) : string := raw.

(** A dispatcher that answers the [i]-th request of [reqs] with its
    [data]. *)
Definition reply (reqs : list Request) (i : nat) : Outcome string :=
  match reqs !! i with
  | Some r => Ok (data r)
  | None => Failed "unknown request"
  end.

(** The handling delay of the [i]-th dispatched request. *)
Definition delays (ds : list nat) (i : nat) : nat := default 0 (ds !! i).

(** The execution of each engine under a dispatcher with the given delays
    and outcomes; 100 transitions are more than any stream below needs. *)
Definition unbounded_timed (delay : nat → nat) (outcome : nat → Outcome string)
    (src : list src_item) : list (event string) * Unbounded.state :=
  timed (Unbounded.step echo) (λ s, length (Unbounded.futures s))
        delay outcome 100 0 [] (Unbounded.init src).

(** A CPython run in which every [set] of futures lists them in the order
    in which they were dispatched. *)
Definition dispatch_rank (k i : nat) : nat := i.

Definition prefetch_timed (prefetch : nat) (delay : nat → nat)
    (outcome : nat → Outcome string) (src : list src_item)
    : list (event string) * Prefetch.state :=
  timed (Prefetch.step echo false false dispatch_rank) (λ s, length (Prefetch.futures s))
        delay outcome 100 0 [] (Prefetch.init prefetch src).

(** Scenario A: the unbounded engine on [A, B, C]; B, C and A complete in
    this order. *)
Definition scenario_A : list (event string) :=
  [Consumer; Producer; Producer; Producer; Producer;
   Complete 1 (Ok "B"); GetResult; Consumer; Consumer;
   Complete 2 (Ok "C"); GetResult; Consumer; Consumer;
   Complete 0 (Ok "A"); GetResult; Consumer; Consumer].

(** Scenario B: the prefetch engine with [prefetch = 2] on [A, B, C, D];
    B completes first, then C (dispatched when B was yielded), then A, then
    D (dispatched when A was yielded). *)
Definition scenario_B : list (event string) :=
  [Consumer; Consumer;
   Complete 1 (Ok "B"); Consumer; Consumer; Consumer;
   Complete 2 (Ok "C");
   Complete 0 (Ok "A"); Consumer; Consumer; Consumer;
   Consumer; Consumer; Consumer;
   Complete 3 (Ok "D"); Consumer; Consumer].

(** The unbounded engine on [A, B]: the operation of A fails before the one
    of B succeeds. *)
Definition unbounded_A_fails : list (event string) :=
  [Consumer; Producer; Producer; Producer;
   Complete 0 (Failed "boom"); GetResult; Consumer;
   Complete 1 (Ok "B")].

(** The unbounded engine on [A, B, C]: A is yielded, then the operation of
    B fails, then the one of C succeeds. *)
Definition unbounded_B_fails : list (event string) :=
  [Consumer; Producer; Producer; Producer; Producer;
   Complete 0 (Ok "A"); GetResult; Consumer; Consumer;
   Complete 1 (Failed "boom"); GetResult; Consumer;
   Complete 2 (Ok "C")].

(** The prefetch engine with [prefetch = 3] on [A, B, C]: the operations of
    B and A complete, in this order, while the generator waits for the third
    request, that is, before it calls [asyncio.as_completed]; the operation
    of C completes last. *)
Definition done_before_call : list (event string) :=
  [Consumer; Consumer; Complete 1 (Ok "B"); Complete 0 (Ok "A"); Consumer;
   Consumer; Consumer; Consumer; Consumer; Consumer;
   Complete 2 (Ok "C"); Consumer; Consumer].


(** The prefetch engine with [prefetch = 2] on [A, B, C]: A is yielded, C
    is dispatched, then the operation of B fails. *)
Definition prefetch_B_fails : list (event string) :=
  [Consumer; Consumer; Complete 0 (Ok "A"); Consumer; Consumer; Consumer;
   Complete 1 (Failed "boom"); Consumer; Complete 2 (Ok "C")].

(** The unbounded engine on a request iterator that hands out A and then
    raises. *)
Definition unbounded_source_raises : list (event string) :=
  [Consumer; Producer; Producer;
   Complete 0 (Ok "A"); GetResult; Consumer; Consumer].

(** The prefetch engine on the same iterator. *)
Definition prefetch_source_raises : list (event string) :=
  [Consumer; Consumer].

(** A complete stream of the single request A, for each engine. *)
Definition unbounded_single : list (event string) :=
  [Consumer; Producer; Producer; Complete 0 (Ok "A"); GetResult; Consumer; Consumer].

Definition prefetch_single : list (event string) :=
  [Consumer; Complete 0 (Ok "A"); Consumer; Consumer; Consumer].

(** The unbounded engine on [X1, X2], whose identifiers coincide: both are
    dispatched, X1 is yielded, and the generator returns before the
    operation of X2 completes. *)
Definition duplicate_dispatch : list (event string) :=
  [Consumer; Producer; Producer].

Definition duplicate_early_end : list (event string) :=
  [Consumer; Producer; Producer; Producer;
   Complete 0 (Ok "X1"); GetResult; Consumer; Consumer;
   Complete 1 (Ok "X2")].

(** The same input: X1 is yielded while X2 is being dispatched, and the
    [remove] after the second yield does not find the identifier. *)
Definition duplicate_key_error : list (event string) :=
  [Consumer; Producer; Producer;
   Complete 0 (Ok "X1"); GetResult; Consumer; Consumer;
   Complete 1 (Ok "X2"); GetResult; Consumer;
   Producer; Consumer].

(** * Further notions *)

(** The window of the prefetch engine is full: as long as
    [iterate_requests] has not returned [True], the requests dispatched and
    not yielded are exactly [N] whenever the generator waits for a
    completion, and one less between a [yield] and the refill that follows
    it. *)
Definition window_full {Raw Result : Type} (N : nat) (s : @Prefetch.state Raw Result)
    : Prop :=
  match Prefetch.gen s with
  | Prefetch.PIter _ _ Prefetch.ToOnrecv =>
      Prefetch.is_req_empty s = false ∧
      S (length (Prefetch.futures s)) = N + length (Prefetch.yielded s)
  | Prefetch.PYield =>
      Prefetch.is_req_empty s = false →
      S (length (Prefetch.futures s)) = N + length (Prefetch.yielded s)
  | Prefetch.PWait | Prefetch.PShortWait | Prefetch.PEnd Finished =>
      Prefetch.is_req_empty s = false →
      length (Prefetch.futures s) = N + length (Prefetch.yielded s)
  | _ => True
  end.

(** A state of the prefetch engine without its log. *)
Definition forget_log {Raw Result : Type} (s : @Prefetch.state Raw Result)
    : @Prefetch.state Raw Result :=
  {| s with Prefetch.log := [] |}.

(** * Proofs *)

#[local] Set Warnings "-clear-no-such-hyp".

(** ** Lists *)

Section ListFacts.
Context {Raw : Type}.

Lemma completions_snoc (sched : list (event Raw)) e :
  completions (sched ++ [e]) = completions sched ++ option_list (completion e).
Proof.
  unfold completions. rewrite omap_app. simpl.
  by destruct (completion e).
Qed.

Lemma filter_ne_notin (l : list nat) i : i ∉ l → filter (λ j, j ≠ i) l = l.
Proof.
  induction l as [|x l IH]; [done|]. rewrite not_elem_of_cons. intros [Hne Hl].
  rewrite filter_cons_True by done. by rewrite IH.
Qed.

Lemma filter_ne_perm (l : list nat) i :
  NoDup l → i ∈ l → i :: filter (λ j, j ≠ i) l ≡ₚ l.
Proof.
  induction l as [|x l IH]; [by intros _ ?%elem_of_nil|].
  rewrite NoDup_cons. intros [Hx Hl]. rewrite elem_of_cons. intros [->|Hi].
  - rewrite filter_cons_False by naive_solver. by rewrite filter_ne_notin.
  - rewrite filter_cons_True by (intros ->; done).
    rewrite Permutation_swap. by rewrite IH.
Qed.

Lemma as_completed_perm (W C : list nat) :
  NoDup W → NoDup C →
  filter (λ i, i ∈ W) C ++ filter (λ i, i ∉ C) W ≡ₚ W.
Proof.
  intros HW HC. apply NoDup_Permutation; [|done|].
  - apply NoDup_app. split; [by apply NoDup_filter|]. split; [|by apply NoDup_filter].
    intros i [_ Hi]%list_elem_of_filter [Hn _]%list_elem_of_filter. done.
  - intros i. rewrite elem_of_app, !list_elem_of_filter.
    destruct (decide (i ∈ C)); naive_solver.
Qed.
End ListFacts.

(** ** The unbounded engine *)

Section UnboundedFacts.
Import Unbounded.
Context {Raw Result : Type}.
Variable handle_result : Raw → Result.
Context `{!Inhabited Raw}.
Abbreviation state := (@state Raw Result).
Abbreviation inv := (Unbounded.inv handle_result).
Abbreviation next_event := (Unbounded.next_event handle_result).
Abbreviation drain := (Unbounded.drain handle_result).



Lemma ids_of_app l1 l2 : ids_of (l1 ++ l2) = ids_of l1 ++ ids_of l2.
Proof. unfold ids_of, requests_of. by rewrite omap_app, fmap_app. Qed.

Lemma same_id_same_future src (s : state) i j ri rj oi oj :
  (∃ pre, src = pre ++ request_iterator s ∧ (futures s).*1 = requests_of pre) →
  NoDup (ids_of src) →
  futures s !! i = Some (ri, oi) → futures s !! j = Some (rj, oj) →
  request_id ri = request_id rj → i = j.
Proof.
  intros (pre & -> & Hf) Hnd Hi Hj Hid.
  rewrite ids_of_app in Hnd. apply NoDup_app in Hnd as (Hnd & _).
  unfold ids_of in Hnd. rewrite <- Hf in Hnd.
  eapply (NoDup_lookup _ i j (request_id ri) Hnd).
  - rewrite !list_lookup_fmap, Hi. done.
  - rewrite !list_lookup_fmap, Hj. simpl. by rewrite Hid.
Qed.

Lemma inv_init src : inv src [] (init src).
Proof.
  split; simpl; try done.
  - exists []. done.
  - constructor.
  - intros i. split; [by intros ?%elem_of_nil|]. intros (r & o & H). done.
  - intros rid i [H%elem_of_nil|H]; done.
  - by left.
  - intros i v H%elem_of_nil. done.
  - intros _ x. split; [set_solver|]. intros (i & r & o & H & _). done.
Qed.

Lemma inv_complete src sched s i o s' :
  inv src sched s → complete i o s = Some s' → inv src (sched ++ [Complete i o]) s'.
Proof.
  intros I H. unfold complete in H.
  destruct (futures s !! i) as [[r [o'|]]|] eqn:Hi; simplify_eq.
  assert (Hlt : i < length (futures s)) by (by eapply lookup_lt_Some).
  assert (Hnew : i ∉ completed_order s).
  { intros (r' & o' & H)%(inv_done _ _ _ _ I). congruence. }
  assert (Hco : completed_order (callback r i {| s with futures := <[i:=(r, Some o)]> (futures s) |}) = completed_order s ++ [i]).
  { unfold completed_order, held, callback. simpl. rewrite fmap_app. simpl.
    by rewrite <- !app_assoc. }
  split; simpl; try (by destruct I).
  - destruct (inv_source _ _ _ _ I) as (pre & Hs & Hf). exists pre. split; [done|].
    rewrite <- Hf. rewrite list_fmap_insert. simpl.
    apply list_insert_id. rewrite list_lookup_fmap, Hi. done.
  - rewrite Hco, completions_snoc. simpl. by rewrite (inv_order _ _ _ _ I).
  - rewrite Hco. apply NoDup_app. split; [by destruct I|]. split; [|apply NoDup_singleton].
    intros x Hx ->%list_elem_of_singleton. done.
  - intros j. rewrite Hco, elem_of_app, list_elem_of_singleton.
    rewrite (inv_done _ _ _ _ I). destruct (decide (j = i)) as [->|Hne].
    + rewrite list_lookup_insert_eq by done. naive_solver.
    + rewrite list_lookup_insert_ne by done. naive_solver.
  - intros rid j Hq. destruct (decide (j = i)) as [->|Hne].
    + rewrite list_lookup_insert_eq by done.
      rewrite elem_of_app, list_elem_of_singleton in Hq.
      destruct Hq as [[Hq|Hq]|Hq]; [| naive_solver |].
      * destruct (inv_queue _ _ _ _ I rid i) as (r' & o' & ? & ?); [by left|]. naive_solver.
      * destruct (inv_queue _ _ _ _ I rid i) as (r' & o' & ? & ?); [by right|]. naive_solver.
    + rewrite list_lookup_insert_ne by done. apply (inv_queue _ _ _ _ I).
      rewrite elem_of_app, list_elem_of_singleton in Hq. naive_solver.
  - intros j v Hj. destruct (inv_vals _ _ _ _ I j v Hj) as (r' & raw & Hr & Hv).
    assert (j ≠ i) by congruence. rewrite list_lookup_insert_ne by done. eauto.
  - intros e He. destruct (inv_failure _ _ _ _ I e He) as (j & r' & Hl & Hj).
    assert (j ≠ i) by congruence. exists j, r'. rewrite list_lookup_insert_ne by done. eauto.
  - intros Hg. pose proof (inv_start _ _ _ _ I Hg) as ->. done.
  - intros Hnd x. rewrite (inv_set _ _ _ _ I Hnd). unfold pending_removal. simpl.
    split; intros (j & r' & o' & Hj & Hx & Hc).
    + destruct (decide (j = i)) as [->|Hne].
      * exists i, r, (Some o). rewrite list_lookup_insert_eq by done. naive_solver.
      * exists j, r', o'. rewrite list_lookup_insert_ne by done. naive_solver.
    + destruct (decide (j = i)) as [->|Hne].
      * rewrite list_lookup_insert_eq in Hj by done. exists i, r, None. naive_solver.
      * rewrite list_lookup_insert_ne in Hj by done. exists j, r', o'. naive_solver.
Qed.

Lemma inv_queue_get src sched s s' :
  inv src sched s → queue_get s = Some s' → inv src (sched ++ [GetResult]) s'.
Proof.
  intros I H. unfold queue_get in H.
  destruct (get_result_task s) as [[?|]|] eqn:Ht; simplify_eq.
  destruct (result_queue s) as [|[rid i] q] eqn:Hq; simplify_eq.
  pose proof (inv_nodup _ _ _ _ I) as Hnd.
  unfold completed_order, held in Hnd. rewrite Ht, Hq in Hnd. simpl in Hnd.
  assert (Hi : i ∉ result_reads s).
  { apply NoDup_app in Hnd as (_ & Hnd & _). intros Hin. apply (Hnd _ Hin). left. }
  assert (Hco : completed_order {| s with get_result_task := Some (Some (rid, i)); result_queue := q |}
                = completed_order s).
  { unfold completed_order, held. simpl. rewrite Ht, Hq. simpl.
    by rewrite decide_False by done. }
  split; simpl; try (by destruct I).
  - rewrite Hco, completions_snoc, app_nil_r. by destruct I.
  - rewrite Hco. by destruct I.
  - rewrite Hco. by destruct I.
  - intros rid' j Hj. apply (inv_queue _ _ _ _ I). rewrite Hq. left.
    destruct Hj as [Hj|Hj]; [by right|]. simplify_eq. left.
  - intros rid' Hg. destruct (inv_gyield _ _ _ _ I rid' Hg) as (? & ? & ?). congruence.
  - intros Hg. pose proof (inv_start _ _ _ _ I Hg) as Hs. rewrite Hs in Ht. done.
  - intros Hg. eexists. split; [done|]. intros ? ? ?. by simplify_eq.
Qed.

Lemma inv_iterate_requests src sched s s' :
  inv src sched s → iterate_requests s = Some s' → inv src (sched ++ [Producer]) s'.
Proof.
  intros I H. unfold iterate_requests in H.
  destruct (producer s) eqn:Hp; simplify_eq.
  assert (Heoi : end_of_iter s = false).
  { destruct (end_of_iter s) eqn:He; [|done]. apply (inv_eoi _ _ _ _ I) in He. congruence. }
  assert (Hah : all_requests_handled s = false).
  { destruct (all_requests_handled s) eqn:He; [|done].
    apply (inv_handled _ _ _ _ I) in He as [? _]. congruence. }
  assert (Hgs : gen s ≠ GStart).
  { intros Hg. apply (inv_start _ _ _ _ I) in Hg. rewrite Hg in Hp. done. }
  destruct (inv_source _ _ _ _ I) as (pre & Hsrc & Hfut).
  destruct (request_iterator s) as [|[r|] rest] eqn:Hit; injection H as <-.
  - (* exhausted *)
    split; simpl; try (by destruct I); try done.
    + by exists pre.
    + rewrite completions_snoc, app_nil_r. by destruct I.
    + rewrite (inv_eoi_calls _ _ _ _ I), Heoi. done.
    + intros Hah'. split; [done|]. case_decide as Hsz; [|congruence].
      by apply size_empty_inv, leibniz_equiv in Hsz.
    + intros _ He. rewrite decide_True; [done|]. rewrite He. apply size_empty.
    + intros Hg. apply (inv_finished _ _ _ _ I) in Hg. congruence.
  - (* a request *)
    split; simpl; try (by destruct I); try done;
      try change (completed_order _) with (completed_order s).
    + exists (pre ++ [Item r]). rewrite <- app_assoc. split; [done|].
      rewrite fmap_app, Hfut. unfold requests_of. by rewrite omap_app.
    + rewrite completions_snoc, app_nil_r. by destruct I.
    + intros i. change (completed_order _) with (completed_order s).
      rewrite (inv_done _ _ _ _ I). split; intros (r' & o & Hi).
      * exists r', o. by apply lookup_app_l_Some.
      * apply lookup_app_Some in Hi as [Hi|[_ Hi]]; [eauto|].
        destruct (i - length (futures s)); simplify_eq/=.
    + intros rid i Hq. destruct (inv_queue _ _ _ _ I rid i Hq) as (r' & o & Hi & ?).
      exists r', o. split; [|done]. by apply lookup_app_l_Some.
    + intros i v Hi. destruct (inv_vals _ _ _ _ I i v Hi) as (r' & raw & Hr & ?).
      exists r', raw. split; [|done]. by apply lookup_app_l_Some.
    + intros e He. destruct (inv_failure _ _ _ _ I e He) as (i & r' & ? & Hr).
      exists i, r'. split; [done|]. by apply lookup_app_l_Some.
    + rewrite Heoi. done.
    + rewrite Hah. done.
    + rewrite Heoi. done.
    + intros Hnd x. rewrite elem_of_union, elem_of_singleton, (inv_set _ _ _ _ I Hnd).
      unfold pending_removal. simpl. split.
      * intros [->|(i & r' & o & Hi & ? & ?)].
        -- exists (length (futures s)), r, None. split; [|split; [done|left]].
           { rewrite lookup_app_r by done. by rewrite Nat.sub_diag. }
           intros Hin. assert (length (futures s) ∈ completed_order s) as Hc.
           { unfold completed_order. rewrite elem_of_app. by left. }
           apply (inv_done _ _ _ _ I) in Hc as (? & ? & Hc%lookup_lt_Some). lia.
        -- exists i, r', o. split; [by apply lookup_app_l_Some|done].
      * intros (i & r' & o & Hi & ? & ?).
        apply lookup_app_Some in Hi as [Hi|[_ Hi]]; [right; by eauto 10|].
        destruct (i - length (futures s)); simplify_eq/=. by left.
  - (* the iterator raises *)
    split; simpl; try (by destruct I); try done.
    + exists (pre ++ [Fault]). rewrite <- app_assoc. split; [done|].
      rewrite Hfut. unfold requests_of. rewrite omap_app. simpl. by rewrite app_nil_r.
    + intros _ Hall. rewrite Hsrc in Hall.
      apply Forall_app in Hall as [_ Hall]. by inversion Hall.
    + rewrite completions_snoc, app_nil_r. by destruct I.
    + rewrite Heoi. done.
Qed.

Lemma loop_head_handled (s : state) :
  all_requests_handled s = true → loop_head s = {| s with gen := GEnd Finished |}.
Proof. unfold loop_head. by intros ->. Qed.

Lemma loop_head_unhandled (s : state) :
  all_requests_handled s = false → loop_head s = {| s with gen := GWait |}.
Proof. unfold loop_head. by intros ->. Qed.

Lemma completed_order_read (s : state) rid i :
  get_result_task s = Some (Some (rid, i)) → i ∉ result_reads s →
  (result_reads s ++ [i]) ++
    (if decide (i ∈ result_reads s ++ [i]) then [] else [i]) ++ (result_queue s).*2
  = completed_order s.
Proof.
  intros Ht Hi. unfold completed_order, held. rewrite Ht.
  rewrite decide_True by (rewrite elem_of_app, list_elem_of_singleton; by right).
  rewrite decide_False by done. by rewrite <- app_assoc.
Qed.

Lemma inv_stream_requests src sched s s' :
  inv src sched s → stream_requests handle_result s = Some s' →
  inv src (sched ++ [Consumer]) s'.
Proof.
  intros I H. unfold stream_requests in H.
  destruct (gen s) as [| |rid|st] eqn:Hg; [| | |done].
  - (* first [__anext__] *)
    rewrite (inv_start _ _ _ _ I Hg) in H. simpl in H. injection H as <-.
    unfold loop_head. simpl.
    split; simpl; try done.
    + by exists [].
    + pose proof (inv_order _ _ _ _ I) as Ho. rewrite (inv_start _ _ _ _ I Hg) in Ho.
      rewrite completions_snoc, app_nil_r, <- Ho. done.
    + constructor.
    + intros i. split; [by intros ?%elem_of_nil|]. by intros (r & o & ?).
    + intros rid i [?%elem_of_nil|?]; done.
    + by left.
    + intros i v ?%elem_of_nil. done.
    + intros _. by eexists.
    + intros _ x. split; [set_solver|]. by intros (i & r & o & ? & _).
  - (* woken up at [asyncio.wait] *)
    destruct (inv_wait _ _ _ _ I Hg) as (t & Ht & Hunread). rewrite Ht in H.
    destruct t as [[rid i]|].
    + pose proof (Hunread rid i eq_refl) as Hi.
      assert (Hlast : last (result_reads s ++ [i]) = Some i) by apply last_snoc.
      destruct (futures s !! i) as [[r [[v|e]|]]|] eqn:Hf; [| |done|done];
        injection H as <-.
      * (* the result is yielded *)
        split; simpl; try (by destruct I); try done;
          unfold completed_order, held, pending_removal; simpl; rewrite ?Ht;
          rewrite ?(completed_order_read s rid i Ht Hi).
        -- rewrite completions_snoc, app_nil_r. by destruct I.
        -- by destruct I.
        -- by destruct I.
        -- intros rid' j Hq. apply (inv_queue _ _ _ _ I). by rewrite Ht.
        -- left. rewrite fmap_app. simpl.
           destruct (inv_reads _ _ _ _ I) as [->|(? & ? & ? & _)]; [done|congruence].
        -- intros j w [Hj|Hj%list_elem_of_singleton]%elem_of_app.
           ++ by apply (inv_vals _ _ _ _ I).
           ++ simplify_eq. eauto.
        -- intros rid' [=<-]. eauto.
        -- intros Hp%(inv_created _ _ _ _ I). congruence.
        -- intros Hnd x. rewrite (inv_set _ _ _ _ I Hnd). unfold pending_removal.
           rewrite Hg, Hlast. split; intros (j & r' & o & Hj & Hx & Hc).
           ++ exists j, r', o. split; [done|]. split; [done|].
              destruct (decide (j = i)) as [->|Hne]; [by right|left].
              rewrite elem_of_app, list_elem_of_singleton. naive_solver.
           ++ exists j, r', o. split; [done|]. split; [done|]. left.
              destruct Hc as [Hc|[=->]]; [|done].
              intros Hin. apply Hc. rewrite elem_of_app. by left.
      * (* [future.result()] raises *)
        split; simpl; try (by destruct I); try done;
          unfold completed_order, held, pending_removal; simpl; rewrite ?Ht;
          rewrite ?(completed_order_read s rid i Ht Hi).
        -- rewrite completions_snoc, app_nil_r. by destruct I.
        -- by destruct I.
        -- by destruct I.
        -- intros rid' j Hq. apply (inv_queue _ _ _ _ I). by rewrite Ht.
        -- right. exists i, e. split; [done|].
           destruct (inv_reads _ _ _ _ I) as [->|(? & ? & ? & _)]; [done|congruence].
        -- intros e' [=<-]. eauto.
        -- intros Hp%(inv_created _ _ _ _ I). congruence.
        -- intros Hnd x. rewrite (inv_set _ _ _ _ I Hnd). unfold pending_removal.
           rewrite Hg, Hlast. split; intros (j & r' & o & Hj & Hx & Hc).
           ++ exists j, r', o. split; [done|]. split; [done|].
              destruct (decide (j = i)) as [->|Hne]; [by right|left].
              rewrite elem_of_app, list_elem_of_singleton. naive_solver.
           ++ exists j, r', o. split; [done|]. split; [done|]. left.
              destruct Hc as [Hc|[=->]]; [|done].
              intros Hin. apply Hc. rewrite elem_of_app. by left.
    + (* only [all_requests_handled] is set *)
      destruct (all_requests_handled s) eqn:Hah; [|done]. injection H as <-.
      rewrite loop_head_handled by done.
      split; simpl; try (by destruct I); try done;
        try change (completed_order _) with (completed_order s).
      * rewrite completions_snoc, app_nil_r. by destruct I.
      * destruct (inv_reads _ _ _ _ I) as [?|(? & ? & ? & _)]; [by left|congruence].
      * intros Hp%(inv_created _ _ _ _ I). congruence.
      * intros Hnd x. rewrite (inv_set _ _ _ _ I Hnd). unfold pending_removal.
        simpl. by rewrite Hg.
  - (* resumed after [yield] *)
    destruct (inv_gyield _ _ _ _ I rid Hg) as (i & Hlast & Ht).
    destruct (inv_queue _ _ _ _ I rid i (or_intror Ht)) as (r & o & Hf & ->).
    assert (Hin : i ∈ result_reads s).
    { apply last_Some in Hlast as (l' & ->). rewrite elem_of_app, list_elem_of_singleton.
      by right. }
    assert (Hheld : held s = []).
    { unfold held. rewrite Ht. by rewrite decide_True. }
    assert (Hreads : (yielded s).*1 = result_reads s).
    { destruct (inv_reads _ _ _ _ I) as [?|(? & ? & ? & _)]; [done|congruence]. }
    assert (Hmem : NoDup (ids_of src) → request_id r ∈ requests_to_handle s).
    { intros Hnd. apply (inv_set _ _ _ _ I Hnd). exists i, r, o.
      split; [done|]. split; [done|]. right. unfold pending_removal. by rewrite Hg. }
    destruct (decide (request_id r ∈ requests_to_handle s)) as [Hrid|Hrid].
    + assert (Hah : all_requests_handled s = false).
      { destruct (all_requests_handled s) eqn:Hah; [|done].
        apply (inv_handled _ _ _ _ I) in Hah as [_ Hah]. rewrite Hah in Hrid. set_solver. }
      assert (Hset : NoDup (ids_of src) → ∀ x,
        x ∈ requests_to_handle s ∖ {[request_id r]} ↔
        ∃ j r' o', futures s !! j = Some (r', o') ∧ request_id r' = x ∧
                   (j ∉ result_reads s ∨ None = Some j)).
      { intros Hnd x. rewrite elem_of_difference, not_elem_of_singleton.
        rewrite (inv_set _ _ _ _ I Hnd). unfold pending_removal. rewrite Hg, Hlast.
        split.
        - intros [(j & r' & o' & Hj & Hx & Hc) Hne]. exists j, r', o'.
          split; [done|]. split; [done|]. left. destruct Hc as [?|[= ->]]; [done|].
          congruence.
        - intros (j & r' & o' & Hj & Hx & [Hc|?]); [|done]. split; [by eauto 10|].
          intros Heq. subst x. assert (j = i); [|congruence].
          eapply (same_id_same_future src s); eauto using inv_source. }
      simpl in H.
      destruct (bool_decide (size (requests_to_handle s ∖ {[request_id r]}) = 0)
                && end_of_iter s) eqn:Htest; simpl in H; injection H as <-.
      * (* the last outstanding request *)
        apply andb_prop in Htest as [Hsz%bool_decide_eq_true Heoi].
        apply size_empty_inv, leibniz_equiv in Hsz.
        rewrite loop_head_handled by done.
        split; simpl; try (by destruct I); try done;
          try change (completed_order _) with (completed_order s).
        -- rewrite completions_snoc, app_nil_r. by destruct I.
        -- by left.
        -- intros Hp%(inv_created _ _ _ _ I). congruence.
      * rewrite loop_head_unhandled by done.
        assert (Hco : ∀ g (rs : gset string),
          completed_order {| s with requests_to_handle := rs;
                                    get_result_task := Some None; gen := g |}
          = completed_order s).
        { intros. unfold completed_order. by rewrite Hheld. }
        split; simpl; try (by destruct I); try done; rewrite ?Hco.
        -- rewrite completions_snoc, app_nil_r. by destruct I.
        -- by destruct I.
        -- by destruct I.
        -- intros rid j [Hq|?]; [|done]. apply (inv_queue _ _ _ _ I). by left.
        -- by left.
        -- intros Hp%(inv_created _ _ _ _ I). congruence.
        -- intros _. by eexists.
        -- rewrite Hah. done.
        -- intros Heoi He. rewrite Heoi, He, size_empty in Htest. done.
    + (* [requests_to_handle.remove] raises *)
      injection H as <-.
      split; simpl; try (by destruct I); try done;
        try change (completed_order _) with (completed_order s).
      * rewrite completions_snoc, app_nil_r. by destruct I.
      * by left.
      * intros Hp%(inv_created _ _ _ _ I). congruence.
      * intros Hnd. by destruct Hrid; auto.
      * intros Hnd. by destruct Hrid; auto.
Qed.

Lemma inv_step src sched s e s' :
  inv src sched s → step handle_result e s = Some s' → inv src (sched ++ [e]) s'.
Proof.
  destruct e; simpl.
  - apply inv_stream_requests.
  - apply inv_iterate_requests.
  - apply inv_queue_get.
  - apply inv_complete.
Qed.

Lemma run_app sched1 sched2 (s : state) :
  run handle_result (sched1 ++ sched2) s
  = run handle_result sched1 s ≫= run handle_result sched2.
Proof.
  revert s. induction sched1 as [|e es IH]; intros s; simpl; [done|].
  destruct (step handle_result e s) as [s'|]; simpl; [apply IH | done].
Qed.

Lemma run_snoc sched e (s : state) :
  run handle_result (sched ++ [e]) s
  = run handle_result sched s ≫= step handle_result e.
Proof.
  rewrite run_app. destruct (run handle_result sched s) as [s'|]; simpl; [|done].
  by destruct (step handle_result e s').
Qed.

Lemma inv_run src sched s :
  run handle_result sched (init src) = Some s → inv src sched s.
Proof.
  revert s. induction sched as [|e sched IH] using rev_ind; intros s.
  - intros [= <-]. apply inv_init.
  - rewrite run_snoc. destruct (run handle_result sched (init src)) as [s0|] eqn:Hr; [|done].
    simpl. intros Hs. eapply inv_step; eauto.
Qed.

(** *** Termination *)

Lemma pending_insert (l : list (Request * option (Outcome Raw))) i r o :
  l !! i = Some (r, None) →
  S (length (filter (λ f, f.2 = None) (<[i:=(r, Some o)]> l)))
  = length (filter (λ f, f.2 = None) l).
Proof.
  revert i. induction l as [|[r' o'] l IH]; intros [|i] Hi; simplify_eq/=; [done|].
  destruct o' as [o'|]; simpl; [|f_equal]; by apply IH.
Qed.

Lemma fuel_left_step e (s s' : state) :
  step handle_result e s = Some s' → fuel_left s' < fuel_left s.
Proof.
  destruct s as [it fs q eoi rs ah t p g ys ec rr].
  destruct e as [| | |i o]; simpl.
  - unfold stream_requests, loop_head, fuel_left; simpl.
    destruct g as [| |rid|st]; simpl; [| | |done].
    + destruct ah; intros [= <-]; simpl; lia.
    + destruct t as [[[rid i]|]|]; [|destruct ah; intros [= <-]; simpl; lia..].
      destruct (fs !! i) as [[r [[v|e]|]]|]; intros [= <-]; simpl; lia.
    + destruct (decide (rid ∈ rs)); [|intros [= <-]; simpl; lia].
      destruct (bool_decide _ && eoi); simpl; destruct ah; intros [= <-]; simpl; lia.
  - unfold iterate_requests, fuel_left; simpl.
    destruct p; [done| |done..]. destruct it as [|[r|] it]; intros [= <-]; simpl.
    + destruct g; simpl; lia.
    + rewrite filter_app, !length_app. rewrite filter_cons_True by done.
      destruct g; simpl; lia.
    + destruct g; simpl; lia.
  - unfold queue_get, fuel_left; simpl.
    destruct t as [[|]|]; [done| |done]. destruct q as [|e q]; intros [= <-]; simpl.
    destruct g; lia.
  - unfold complete, callback, fuel_left; simpl.
    destruct (fs !! i) as [[r [o'|]]|] eqn:Hi; intros [= <-]; simpl.
    rewrite length_app. simpl. rewrite <- (pending_insert _ _ _ o Hi). lia.
Qed.

Lemma fuel_left_run sched (s s' : state) :
  run handle_result sched s = Some s' → length sched + fuel_left s' ≤ fuel_left s.
Proof.
  revert s. induction sched as [|e es IH]; intros s; simpl.
  - intros [= <-]. lia.
  - destruct (step handle_result e s) as [s1|] eqn:He; [|done]. simpl.
    intros Hr. apply IH in Hr. apply fuel_left_step in He. lia.
Qed.

(** *** Running to completion *)




Lemma next_event_None (s : state) : next_event s = None → stuck handle_result s.
Proof.
  unfold Unbounded.next_event. intros H [| | |i o]; simpl.
  - by destruct (stream_requests handle_result s).
  - destruct (stream_requests handle_result s); [done|].
    by destruct (iterate_requests s).
  - destruct (stream_requests handle_result s); [done|].
    destruct (iterate_requests s); [done|]. by destruct (queue_get s).
  - destruct (stream_requests handle_result s); [done|].
    destruct (iterate_requests s); [done|]. destruct (queue_get s); [done|].
    destruct (list_find _ _) as [[]|] eqn:Hfind; [done|].
    unfold complete. destruct (futures s !! i) as [[r [o'|]]|] eqn:Hi; try done.
    eapply list_find_None, Forall_lookup in Hfind; [|done]. done.
Qed.

Lemma next_event_Some (s : state) e :
  next_event s = Some e → succeeds e ∧ is_Some (step handle_result e s).
Proof.
  unfold Unbounded.next_event. intros H.
  destruct (stream_requests handle_result s) eqn:H1; [by simplify_eq/=|].
  destruct (iterate_requests s) eqn:H2; [by simplify_eq/=|].
  destruct (queue_get s) eqn:H3; [by simplify_eq/=|].
  destruct (list_find _ _) as [[i [r o]]|] eqn:Hfind; [|done].
  apply list_find_Some in Hfind as (Hi & Ho & _). simplify_eq/=.
  split; [done|]. unfold complete. rewrite Hi. done.
Qed.

Lemma drain_spec fuel (s : state) :
  fuel_left s ≤ fuel →
  run handle_result (drain fuel s).1 s = Some (drain fuel s).2 ∧
  stuck handle_result (drain fuel s).2 ∧
  Forall succeeds (drain fuel s).1.
Proof.
  revert s. induction fuel as [|fuel IH]; intros s Hf; simpl.
  - split; [done|]. split; [|done]. intros e.
    destruct (step handle_result e s) eqn:He; [|done].
    apply fuel_left_step in He. lia.
  - destruct (next_event s) as [e|] eqn:Hn.
    + destruct (next_event_Some _ _ Hn) as (Hs & s' & He). rewrite He.
      destruct (IH s') as (Hr & Hst & Hok).
      { apply fuel_left_step in He. lia. }
      destruct (drain fuel s') as [es s'']. simpl in *. rewrite He. simpl.
      split; [done|]. split; [done|]. by constructor.
    + simpl. split; [done|]. split; [|done]. by apply next_event_None.
Qed.

(** *** Outcomes come from the schedule *)

Lemma outcome_step e sched (s s' : state) :
  (∀ i r o, futures s !! i = Some (r, Some o) → Complete i o ∈ sched) →
  step handle_result e s = Some s' →
  ∀ i r o, futures s' !! i = Some (r, Some o) → Complete i o ∈ sched ++ [e].
Proof.
  intros IH He i r o Hi. rewrite elem_of_app, list_elem_of_singleton.
  destruct e as [| | |j o']; simpl in He.
  - left. apply (IH i r). unfold stream_requests, loop_head in He.
    repeat case_match; simplify_eq/=; done.
  - left. apply (IH i r). unfold iterate_requests in He.
    repeat case_match; simplify_eq/=; try done.
    apply lookup_app_Some in Hi as [?|[_ Hi]]; [done|].
    destruct (i - length (futures s)); simplify_eq/=.
  - left. apply (IH i r). unfold queue_get in He.
    repeat case_match; simplify_eq/=; done.
  - unfold complete in He. destruct (futures s !! j) as [[r' [?|]]|] eqn:Hj; simplify_eq/=.
    destruct (decide (i = j)) as [->|Hne].
    + rewrite list_lookup_insert_eq in Hi by (by eapply lookup_lt_Some).
      simplify_eq. by right.
    + rewrite list_lookup_insert_ne in Hi by done. left. eauto.
Qed.

Lemma outcome_run src sched (s : state) :
  run handle_result sched (init src) = Some s →
  ∀ i r o, futures s !! i = Some (r, Some o) → Complete i o ∈ sched.
Proof.
  revert s. induction sched as [|e sched IH] using rev_ind; intros s.
  - intros [= <-]. done.
  - rewrite run_snoc. destruct (run handle_result sched (init src)) as [s0|] eqn:Hr; [|done].
    simpl. intros Hs. eapply outcome_step; eauto.
Qed.

Lemma requests_of_items l : Forall is_item l → length (requests_of l) = length l.
Proof.
  induction 1 as [|[r|] l Hx Hl IH]; simpl; [done| |done]. by rewrite IH.
Qed.

Lemma reads_bounded src sched (s : state) i :
  inv src sched s → i ∈ result_reads s → i < length (futures s).
Proof.
  intros I Hi. assert (i ∈ completed_order s) as Hc.
  { unfold completed_order. rewrite elem_of_app. by left. }
  apply (inv_done _ _ _ _ I) in Hc as (r & o & Hc). by eapply lookup_lt_Some.
Qed.

Lemma reads_nodup src sched (s : state) :
  inv src sched s → NoDup (result_reads s).
Proof.
  intros I. pose proof (inv_nodup _ _ _ _ I) as H. unfold completed_order in H.
  by apply NoDup_app in H as (? & _).
Qed.

Lemma all_read_perm src sched (s : state) :
  inv src sched s →
  (∀ i, i < length (futures s) → i ∈ result_reads s) →
  result_reads s ≡ₚ seq 0 (length (futures s)).
Proof.
  intros I Hall. apply NoDup_Permutation.
  - by eapply reads_nodup.
  - apply NoDup_seq.
  - intros i. rewrite elem_of_seq. split.
    + intros Hi%(reads_bounded _ _ _ _ I). lia.
    + intros [_ Hi]. by apply Hall.
Qed.

Lemma stuck_finished src sched (s : state) :
  inv src sched s → stuck handle_result s →
  Forall is_item src → NoDup (ids_of src) →
  (∀ i r e, futures s !! i ≠ Some (r, Some (Failed e))) →
  gen s = GEnd Finished.
Proof.
  intros I Hst Hsrc Hnd Hok.
  pose proof (Hst Consumer) as Hc. pose proof (Hst Producer) as Hp.
  pose proof (Hst GetResult) as Hq. simpl in Hc, Hp, Hq.
  assert (Hdone : ∀ i, i < length (futures s) → i ∈ completed_order s).
  { intros i Hi. apply (inv_done _ _ _ _ I).
    destruct (lookup_lt_is_Some_2 _ _ Hi) as [[r [o|]] Hri]; [by eauto|].
    pose proof (Hst (Complete i (Failed "x"))) as Hcomp. simpl in Hcomp.
    unfold complete in Hcomp. by rewrite Hri in Hcomp. }
  unfold stream_requests in Hc.
  destruct (gen s) as [| |rid|[|[e|k|]]] eqn:Hg; try done.
  - (* suspended at [asyncio.wait] *)
    exfalso. destruct (inv_wait _ _ _ _ I Hg) as (t & Ht & Hunread).
    rewrite Ht in Hc. destruct t as [[rid i]|].
    + assert (i ∈ completed_order s) as Hi.
      { unfold completed_order, held. rewrite Ht.
        rewrite decide_False by eauto. set_solver. }
      apply (inv_done _ _ _ _ I) in Hi as (r & o & Hi). rewrite Hi in Hc.
      by destruct o.
    + destruct (all_requests_handled s) eqn:Hah; [done|].
      unfold queue_get in Hq. rewrite Ht in Hq.
      destruct (result_queue s) eqn:Hrq; [|done].
      assert (Hread : ∀ i, i < length (futures s) → i ∈ result_reads s).
      { intros i Hi%Hdone. unfold completed_order, held in Hi.
        rewrite Ht, Hrq in Hi. simpl in Hi. by rewrite app_nil_r in Hi. }
      unfold iterate_requests in Hp.
      destruct (producer s) eqn:Hpr.
      * apply (inv_created _ _ _ _ I) in Hpr. congruence.
      * by repeat case_match.
      * assert (requests_to_handle s = ∅) as Hempty.
        { apply set_eq. intros x. rewrite (inv_set _ _ _ _ I Hnd).
          unfold pending_removal. rewrite Hg. split; [|set_solver].
          intros (i & r & o & Hi & _ & [Hc'|?]); [|done].
          destruct Hc'. apply Hread. by eapply lookup_lt_Some. }
        apply (inv_eoi _ _ _ _ I) in Hpr.
        rewrite (inv_live _ _ _ _ I Hpr Hempty) in Hah. done.
      * by apply (inv_failed _ _ _ _ I) in Hpr.
  - by destruct (decide (rid ∈ requests_to_handle s)).
  - destruct (inv_failure _ _ _ _ I e Hg) as (i & r & _ & Hi). by apply Hok in Hi.
  - by apply (inv_nokeyerror _ _ _ _ I Hnd) in Hg.
  - by apply (inv_nofault _ _ _ _ I) in Hg.
Qed.

Lemma finished_all_yielded src sched (s : state) :
  inv src sched s → gen s = GEnd Finished →
  Forall is_item src → NoDup (ids_of src) →
  length (futures s) = length src ∧
  (yielded s).*1 ≡ₚ seq 0 (length src) ∧
  eoi_calls s = 1.
Proof.
  intros I Hg Hsrc Hnd.
  destruct (inv_handled _ _ _ _ I (inv_finished _ _ _ _ I Hg)) as [Heoi Hempty].
  pose proof (inv_exhausted _ _ _ _ I (proj1 (inv_eoi _ _ _ _ I) Heoi)) as Hit.
  destruct (inv_source _ _ _ _ I) as (pre & Hpre & Hfut).
  rewrite Hit, app_nil_r in Hpre. subst pre.
  assert (Hlen : length (futures s) = length src).
  { rewrite <- (length_fmap fst), Hfut. by apply requests_of_items. }
  split; [done|]. split.
  - destruct (inv_reads _ _ _ _ I) as [->|(? & ? & ? & _)]; [|congruence].
    rewrite <- Hlen. eapply all_read_perm; [done|].
    intros i Hi. destruct (decide (i ∈ result_reads s)) as [|Hni]; [done|].
    destruct (lookup_lt_is_Some_2 _ _ Hi) as [[r o] Hri].
    assert (request_id r ∈ requests_to_handle s) as Hin; [|set_solver].
    apply (inv_set _ _ _ _ I Hnd). exists i, r, o. eauto.
  - rewrite (inv_eoi_calls _ _ _ _ I), Heoi. done.
Qed.

(** *** Sources without faults *)

Lemma requests_of_Item reqs : requests_of (Item <$> reqs) = reqs.
Proof.
  induction reqs as [|r reqs IH]; [done|].
  change (r :: requests_of (Item <$> reqs) = r :: reqs). by rewrite IH.
Qed.

Lemma ids_of_Item reqs : ids_of (Item <$> reqs) = request_id <$> reqs.
Proof. unfold ids_of. by rewrite requests_of_Item. Qed.

Lemma Forall_is_item reqs : Forall is_item (Item <$> reqs).
Proof. apply Forall_fmap, Forall_forall. done. Qed.

Lemma requests_of_app l1 l2 : requests_of (l1 ++ l2) = requests_of l1 ++ requests_of l2.
Proof. unfold requests_of. by rewrite omap_app. Qed.

(** *** Order of dispatch and of yields *)

Lemma dispatch_order src sched (s : state) :
  inv src sched s → (futures s).*1 `prefix_of` requests_of src.
Proof.
  intros I. destruct (inv_source _ _ _ _ I) as (pre & -> & ->).
  rewrite requests_of_app. by eexists.
Qed.

Lemma reads_order src sched (s : state) :
  inv src sched s → result_reads s `prefix_of` completions sched.
Proof.
  intros I. rewrite <- (inv_order _ _ _ _ I). unfold completed_order. by eexists.
Qed.

Lemma yield_order src sched (s : state) :
  inv src sched s → (yielded s).*1 `prefix_of` completions sched.
Proof.
  intros I. etrans; [|by eapply reads_order].
  destruct (inv_reads _ _ _ _ I) as [->|(i & e & _ & ->)]; [done|]. by eexists.
Qed.

(** *** A generator that has ended stays ended *)

Lemma ended_step e (s s' : state) st :
  gen s = GEnd st → step handle_result e s = Some s' →
  gen s' = GEnd st ∧ yielded s' = yielded s ∧ result_reads s' = result_reads s.
Proof.
  intros Hg H. destruct e as [| | |i o]; simpl in H.
  - unfold stream_requests in H. by rewrite Hg in H.
  - unfold iterate_requests in H. destruct (producer s); try done.
    destruct (request_iterator s) as [|[r|] rest]; by injection H as <-.
  - unfold queue_get in H. destruct (get_result_task s) as [[|]|]; try done.
    destruct (result_queue s); [done|]. by injection H as <-.
  - unfold complete in H. destruct (futures s !! i) as [[r [o'|]]|]; try done.
    by injection H as <-.
Qed.

Lemma ended_run sched (s s' : state) st :
  gen s = GEnd st → run handle_result sched s = Some s' →
  gen s' = GEnd st ∧ yielded s' = yielded s ∧ result_reads s' = result_reads s.
Proof.
  revert s. induction sched as [|e sched IH]; intros s Hg; simpl.
  - by intros [= <-].
  - destruct (step handle_result e s) as [s1|] eqn:He; [|done]. simpl. intros Hr.
    destruct (ended_step _ _ _ _ Hg He) as (Hg1 & <- & <-). by apply IH.
Qed.

Lemma all_ok src sched (s : state) :
  run handle_result sched (init src) = Some s → Forall succeeds sched →
  ∀ i r e, futures s !! i ≠ Some (r, Some (Failed e)).
Proof.
  intros Hr Hok i r e Hi. apply (outcome_run _ _ _ Hr) in Hi.
  rewrite Forall_forall in Hok. by apply Hok in Hi.
Qed.
(** *** Failures *)

Lemma raised_last_read src sched (s : state) e :
  inv src sched s → gen s = GEnd (Raised (OpFailure e)) →
  ∃ i r, futures s !! i = Some (r, Some (Failed e)) ∧
         result_reads s = (yielded s).*1 ++ [i].
Proof.
  intros I Hg. destruct (inv_failure _ _ _ _ I e Hg) as (i & r & Hlast & Hi).
  exists i, r. split; [done|].
  destruct (inv_reads _ _ _ _ I) as [Heq|(i' & e' & _ & Hrd)].
  - apply last_Some_elem_of in Hlast. rewrite <- Heq in Hlast.
    apply list_elem_of_fmap in Hlast as ([j v] & -> & Hjv).
    destruct (inv_vals _ _ _ _ I j v Hjv) as (r' & raw & Hj & _).
    simpl in Hi. congruence.
  - rewrite Hrd, last_snoc in Hlast. by injection Hlast as ->.
Qed.

Lemma failure_read src sched (s : state) i r e :
  inv src sched s → futures s !! i = Some (r, Some (Failed e)) →
  i ∈ result_reads s →
  gen s = GEnd (Raised (OpFailure e)) ∧ result_reads s = (yielded s).*1 ++ [i].
Proof.
  intros I Hi Hin.
  assert (Hny : i ∉ (yielded s).*1).
  { intros ([j v] & -> & Hjv)%list_elem_of_fmap.
    destruct (inv_vals _ _ _ _ I j v Hjv) as (r' & raw & Hj & _).
    simpl in Hi. congruence. }
  destruct (inv_reads _ _ _ _ I) as [Heq|(i' & e' & Hg & Hrd)].
  - by rewrite Heq in Hny.
  - rewrite Hrd in Hin.
    apply elem_of_app in Hin as [?|Hin%list_elem_of_singleton]; [done|]. subst i'.
    destruct (raised_last_read _ _ _ _ I Hg) as (i' & r' & Hi' & Hrd').
    rewrite Hrd in Hrd'. apply app_inj_tail in Hrd' as [_ <-].
    assert (e' = e) as -> by congruence. done.
Qed.

(** When nothing can run any more on an iterator that does not raise
    and hands out pairwise distinct identifiers, the generator has ended. *)
Lemma stuck_ended_unbounded src sched (s : state) :
  inv src sched s → stuck handle_result s →
  Forall is_item src → NoDup (ids_of src) →
  gen s = GEnd Finished ∨ ∃ e, gen s = GEnd (Raised (OpFailure e)).
Proof.
  intros I Hst Hsrc Hnd.
  pose proof (Hst Consumer) as Hc. pose proof (Hst Producer) as Hp.
  pose proof (Hst GetResult) as Hq. simpl in Hc, Hp, Hq.
  assert (Hdone : ∀ i, i < length (futures s) → i ∈ completed_order s).
  { intros i Hi. apply (inv_done _ _ _ _ I).
    destruct (lookup_lt_is_Some_2 _ _ Hi) as [[r [o|]] Hri]; [by eauto|].
    pose proof (Hst (Complete i (Failed "x"))) as Hcomp. simpl in Hcomp.
    unfold complete in Hcomp. by rewrite Hri in Hcomp. }
  unfold stream_requests in Hc.
  destruct (gen s) as [| |rid|[|[e|k|]]] eqn:Hg; try done; [| |by auto|by eauto| |].
  - exfalso. destruct (inv_wait _ _ _ _ I Hg) as (t & Ht & Hunread).
    rewrite Ht in Hc. destruct t as [[rid i]|].
    + assert (i ∈ completed_order s) as Hi.
      { unfold completed_order, held. rewrite Ht.
        rewrite decide_False by eauto. set_solver. }
      apply (inv_done _ _ _ _ I) in Hi as (r & o & Hi). rewrite Hi in Hc.
      by destruct o.
    + destruct (all_requests_handled s) eqn:Hah; [done|].
      unfold queue_get in Hq. rewrite Ht in Hq.
      destruct (result_queue s) eqn:Hrq; [|done].
      assert (Hread : ∀ i, i < length (futures s) → i ∈ result_reads s).
      { intros i Hi%Hdone. unfold completed_order, held in Hi.
        rewrite Ht, Hrq in Hi. simpl in Hi. by rewrite app_nil_r in Hi. }
      unfold iterate_requests in Hp.
      destruct (producer s) eqn:Hpr.
      * apply (inv_created _ _ _ _ I) in Hpr. congruence.
      * by repeat case_match.
      * assert (requests_to_handle s = ∅) as Hempty.
        { apply set_eq. intros x. rewrite (inv_set _ _ _ _ I Hnd).
          unfold pending_removal. rewrite Hg. split; [|set_solver].
          intros (i & r & o & Hi & _ & [Hc'|?]); [|done].
          destruct Hc'. apply Hread. by eapply lookup_lt_Some. }
        apply (inv_eoi _ _ _ _ I) in Hpr.
        rewrite (inv_live _ _ _ _ I Hpr Hempty) in Hah. done.
      * by apply (inv_failed _ _ _ _ I) in Hpr.
  - by destruct (decide (rid ∈ requests_to_handle s)).
  - by apply (inv_nokeyerror _ _ _ _ I Hnd) in Hg.
  - by apply (inv_nofault _ _ _ _ I) in Hg.
Qed.

(** At the end of an execution in which an operation has failed, the
    generator has raised the failure of an operation. *)
Lemma stuck_failure src sched (s : state) i r e :
  inv src sched s → stuck handle_result s →
  Forall is_item src → NoDup (ids_of src) →
  futures s !! i = Some (r, Some (Failed e)) →
  ∃ i' r' e', gen s = GEnd (Raised (OpFailure e')) ∧
              futures s !! i' = Some (r', Some (Failed e')) ∧
              result_reads s = (yielded s).*1 ++ [i'].
Proof.
  intros I Hst Hsrc Hnd Hi.
  destruct (stuck_ended_unbounded _ _ _ I Hst Hsrc Hnd) as [Hg|[e' Hg]].
  - exfalso. destruct (finished_all_yielded _ _ _ I Hg Hsrc Hnd) as (Hlen & Hperm & _).
    assert (i ∈ (yielded s).*1) as Hin.
    { rewrite Hperm. apply elem_of_seq. apply lookup_lt_Some in Hi. lia. }
    apply list_elem_of_fmap in Hin as ([j v] & -> & Hjv).
    destruct (inv_vals _ _ _ _ I j v Hjv) as (r' & raw & Hj & _).
    simpl in Hi. congruence.
  - destruct (raised_last_read _ _ _ _ I Hg) as (i' & r' & H1 & H2). eauto 10.
Qed.
End UnboundedFacts.

(** ** The prefetch engine *)

Section PrefetchFacts.
Import Prefetch.
Context {Raw Result : Type}.
Variable handle_result : Raw → Result.
Variables debug_enabled has_msg_counters : bool.
Variable set_rank : nat → nat → nat.
Context `{!Inhabited Raw}.
Abbreviation state := (@state Raw Result).
Abbreviation pstep := (step handle_result debug_enabled has_msg_counters set_rank).
Abbreviation prun := (run handle_result debug_enabled has_msg_counters set_rank).
Abbreviation pinv := (Prefetch.pinv handle_result).
Abbreviation switches := (Prefetch.switches set_rank).
Abbreviation next_event :=
  (Prefetch.next_event handle_result debug_enabled has_msg_counters set_rank).
Abbreviation drain :=
  (Prefetch.drain handle_result debug_enabled has_msg_counters set_rank).


(** *** The order of a set *)

Lemma set_order_perm k (l : list nat) : set_order set_rank k l ≡ₚ l.
Proof. apply merge_sort_Permutation. Qed.

Lemma elem_of_set_order k (l : list nat) i : i ∈ set_order set_rank k l ↔ i ∈ l.
Proof. by rewrite set_order_perm. Qed.

Lemma as_completed_set_perm k (W C : list nat) :
  NoDup W → NoDup C →
  set_order set_rank k (filter (λ i, i ∈ W) C) ++ filter (λ i, i ∉ C) W ≡ₚ W.
Proof. intros HW HC. rewrite set_order_perm. by apply as_completed_perm. Qed.



Lemma pinv_init N src : pinv N src [] (init N src).
Proof.
  split; simpl; try done.
  - exists []. split; [done|]. split; [done|]. by left.
  - constructor.
  - intros i. split; [by intros ?%elem_of_nil|]. by intros (r & o & ?).
  - by left.
  - intros i v ?%elem_of_nil. done.
  - intros i ?%elem_of_nil. done.
  - by intros [|].
  - intros n c [= <- <-]. repeat split; done || lia.
  - by intros [|].
  - left. by intros ?%elem_of_nil.
Qed.

Lemma pinv_complete N src sched s i o s' :
  pinv N src sched s → complete i o s = Some s' →
  pinv N src (sched ++ [Complete i o]) s'.
Proof.
  intros I H. unfold complete in H.
  destruct (futures s !! i) as [[r [o'|]]|] eqn:Hi; simplify_eq.
  assert (Hlt : i < length (futures s)) by (by eapply lookup_lt_Some).
  assert (Hnew : i ∉ completed s).
  { intros (r' & o' & H)%(pi_done _ _ _ _ _ I). congruence. }
  assert (Hperm : alive s → gen s ≠ PIter N (length (futures s)) ToPrefetch →
    (if decide (i ∈ ac_todo s) then ac_done s ++ [i] else ac_done s)
      ++ filter (λ j, j ≠ i) (ac_todo s) ≡ₚ ac_done s ++ ac_todo s).
  { intros Ha Hg. pose proof (pi_partition _ _ _ _ _ I Ha) as Hp.
    assert (NoDup (ac_todo s)) as Hnd.
    { assert (NoDup (result_reads s ++ active s ++ onrecv_task s)) as Hnd.
      { rewrite <- Hp. apply NoDup_seq. }
      apply NoDup_app in Hnd as (_ & _ & Hnd). apply NoDup_app in Hnd as (Hnd & _).
      unfold active in Hnd. destruct (gen s) as [n c []| | | | |] eqn:Hgen.
      - destruct (pi_fill _ _ _ _ _ I n c Hgen) as (-> & -> & _). done.
      - by apply NoDup_app in Hnd as (_ & _ & Hnd).
      - by apply NoDup_app in Hnd as (_ & _ & Hnd).
      - by apply NoDup_app in Hnd as (_ & _ & Hnd).
      - by apply NoDup_app in Hnd as (_ & _ & Hnd).
      - by apply NoDup_app in Hnd as (_ & _ & Hnd).
      - by apply NoDup_app in Hnd as (_ & _ & Hnd). }
    case_decide as Hin.
    - rewrite <- app_assoc. simpl. by rewrite filter_ne_perm.
    - by rewrite filter_ne_notin. }
  split; simpl; try (by destruct I).
  - destruct (pi_source _ _ _ _ _ I) as (pre & Hs & Hf & Hit). exists pre.
    split; [done|]. split; [|done].
    rewrite <- Hf. rewrite list_fmap_insert. simpl.
    apply list_insert_id. rewrite list_lookup_fmap, Hi. done.
  - rewrite completions_snoc. simpl. by rewrite (pi_completed _ _ _ _ _ I).
  - apply NoDup_app. split; [by destruct I|]. split; [|apply NoDup_singleton].
    intros x Hx ->%list_elem_of_singleton. done.
  - intros j. rewrite elem_of_app, list_elem_of_singleton.
    rewrite (pi_done _ _ _ _ _ I). destruct (decide (j = i)) as [->|Hne].
    + rewrite list_lookup_insert_eq by done. naive_solver.
    + rewrite list_lookup_insert_ne by done. naive_solver.
  - intros j v Hj. destruct (pi_vals _ _ _ _ _ I j v Hj) as (r' & raw & Hr & Hv).
    assert (j ≠ i) by congruence. rewrite list_lookup_insert_ne by done. eauto.
  - intros e He. destruct (pi_failure _ _ _ _ _ I e He) as (j & r' & Hl & Hj).
    assert (j ≠ i) by congruence. exists j, r'. rewrite list_lookup_insert_ne by done. eauto.
  - intros j Hj. rewrite elem_of_app. left. by apply (pi_read_done _ _ _ _ _ I).
  - intros Ha. change (alive s) in Ha.
    rewrite length_insert. rewrite (pi_partition _ _ _ _ _ I Ha).
    unfold active. simpl. destruct (gen s) as [n c []| | | | |] eqn:Hgen; try done;
      rewrite Hperm; try done.
  - intros j [Hne Hj]%list_elem_of_filter. rewrite elem_of_app, list_elem_of_singleton.
    intros [?|?]; [|done]. by eapply (pi_todo _ _ _ _ _ I).
  - intros j Hj. rewrite elem_of_app, list_elem_of_singleton.
    case_decide; [|left; by apply (pi_acdone _ _ _ _ _ I)].
    apply elem_of_app in Hj as [?|?%list_elem_of_singleton]; [|by right].
    left. by apply (pi_acdone _ _ _ _ _ I).
  - intros Hg Hnil. pose proof (pi_wait _ _ _ _ _ I Hg) as Hw.
    assert (alive s) as Ha by (unfold alive; by destruct Hg as [->| ->]).
    assert (gen s ≠ PIter N (length (futures s)) ToPrefetch) as Hne
      by (by destruct Hg as [->| ->]).
    pose proof (Hperm Ha Hne) as Hp. rewrite Hnil in Hp.
    by apply Permutation_nil_l in Hp.
  - intros n c Hg. destruct (pi_fill _ _ _ _ _ I n c Hg) as (? & ? & ? & ? & ? & Hd & Ht & ?).
    rewrite length_insert, Ht, Hd. done.
  - intros Hg. destruct (pi_finished _ _ _ _ _ I Hg) as (? & [Hd Ht]%app_eq_nil & ?).
    rewrite Hd, Ht. done.
Qed.

Lemma alive_not_raised (s : state) e : alive s → gen s ≠ PEnd (Raised e).
Proof. unfold alive. intros H Hg. by rewrite Hg in H. Qed.

Lemma pinv_sched N src sched sched' s :
  completions sched' = completions sched → pinv N src sched s → pinv N src sched' s.
Proof. intros Hc I. split; try (by destruct I). rewrite Hc. by destruct I. Qed.

Lemma pinv_await_yield N src sched (s s' : state) g :
  pinv N src sched s →
  (gen s = PWait ∧ g = PYield) ∨ (gen s = PShortWait ∧ g = PShortYield) →
  await_yield handle_result g s = Some s' →
  pinv N src sched s'.
Proof.
  intros I Hg H. unfold await_yield in H.
  destruct (ac_done s) as [|i d] eqn:Hd; [done|].
  assert (Halive : alive s) by (unfold alive; by destruct Hg as [[-> _]|[-> _]]).
  assert (Hact : active s = i :: d ++ ac_todo s).
  { unfold active. rewrite Hd. by destruct Hg as [[-> _]|[-> _]]. }
  assert (Hreads : (yielded s).*1 = result_reads s).
  { destruct (pi_reads _ _ _ _ _ I) as [?|(? & ? & Hr & _)]; [done|].
    by apply alive_not_raised in Hr. }
  assert (Hic : i ∈ completed s).
  { apply (pi_acdone _ _ _ _ _ I). rewrite Hd. left. }
  assert (Hlast : last (result_reads s ++ [i]) = Some i) by apply last_snoc.
  assert (Hpart : seq 0 (length (futures s))
                  ≡ₚ (result_reads s ++ [i]) ++ (d ++ ac_todo s) ++ onrecv_task s).
  { rewrite (pi_partition _ _ _ _ _ I Halive), Hact. simpl.
    by rewrite <- !app_assoc. }
  assert (Hsrc : ∃ pre, src = pre ++ request_iterator s ∧
    (futures s).*1 = requests_of pre ∧ Forall is_item pre).
  { destruct (pi_source _ _ _ _ _ I) as (pre & ? & ? & [?|Hpf]); [by eauto 10|].
    by apply alive_not_raised in Hpf. }
  assert (Hlog : Error ∉ log s).
  { destruct (pi_log _ _ _ _ _ I) as [?|(_ & _ & Hfin)]; [done|].
    rewrite Hfin in Hg. by destruct Hg as [[? _]|[? _]]. }
  assert (Hrd : ∀ j, j ∈ result_reads s ++ [i] → j ∈ completed s).
  { intros j [Hj| ->%list_elem_of_singleton]%elem_of_app; [|done].
    by apply (pi_read_done _ _ _ _ _ I). }
  assert (Hdd : ∀ j, j ∈ d → j ∈ completed s).
  { intros j Hj. apply (pi_acdone _ _ _ _ _ I). rewrite Hd. by right. }
  destruct (futures s !! i) as [[r [[v|e]|]]|] eqn:Hf; [| |done|done]; injection H as <-.
  - assert (Hv : ∀ j w, (j, w) ∈ yielded s ++ [(i, handle_result v)] →
      ∃ r0 raw, futures s !! j = Some (r0, Some (Ok raw)) ∧ w = handle_result raw).
    { intros j w [Hj|Hj%list_elem_of_singleton]%elem_of_app.
      - by apply (pi_vals _ _ _ _ _ I).
      - simplify_eq. eauto. }
    assert (Hy : (yielded s ++ [(i, handle_result v)]).*1 = result_reads s ++ [i]).
    { rewrite fmap_app, Hreads. done. }
    destruct Hsrc as (pre & Hs1 & Hs2 & Hs3).
    destruct Hg as [[Hg ->]|[Hg ->]].
    + split; simpl; try (by destruct I).
      * exists pre. auto.
      * by left.
      * by intros [|].
      * by intros [|].
      * by left.
    + split; simpl; try (by destruct I).
      * exists pre. auto.
      * by left.
      * by intros [|].
      * intros _. apply (pi_short _ _ _ _ _ I). by left.
      * by left.
  - destruct Hsrc as (pre & Hs1 & Hs2 & Hs3).
    split; simpl; try (by destruct I).
    + exists pre. auto.
    + right. exists i, e. by rewrite Hreads.
    + intros e' [= <-]. rewrite Hlast. eauto.
    + by intros [|].
    + by intros [|].
    + by left.
Qed.

(** Closes the routine goals left by [split] on [pinv]. *)
Ltac pbasic I pre :=
  try first [ by destruct I | exists pre; by auto | by left | by intros [|]
            | by intros ? ? [= <- <-] | done ].

Lemma pinv_alive_source N src sched (s : state) :
  pinv N src sched s → alive s →
  ∃ pre, src = pre ++ request_iterator s ∧
    (futures s).*1 = requests_of pre ∧ Forall is_item pre.
Proof.
  intros I Ha. destruct (pi_source _ _ _ _ _ I) as (pre & ? & ? & [?|Hpf]); [by eauto 10|].
  by apply alive_not_raised in Hpf.
Qed.

Lemma pinv_alive_reads N src sched (s : state) :
  pinv N src sched s → alive s → (yielded s).*1 = result_reads s.
Proof.
  intros I Ha. destruct (pi_reads _ _ _ _ _ I) as [?|(? & ? & Hr & _)]; [done|].
  by apply alive_not_raised in Hr.
Qed.

Lemma pinv_no_error N src sched (s : state) :
  pinv N src sched s → gen s ≠ PEnd Finished → Error ∉ log s.
Proof.
  intros I Hg. by destruct (pi_log _ _ _ _ _ I) as [?|(_ & _ & Hfin)].
Qed.

Lemma pinv_short_next N src sched (s : state) :
  pinv N src sched s → gen s = PShortYield → pinv N src sched (short_next s).
Proof.
  intros I Hg.
  assert (Ha : alive s) by (unfold alive; by rewrite Hg).
  destruct (pinv_alive_source _ _ _ _ I Ha) as (pre & Hs1 & Hs2 & Hs3).
  pose proof (pinv_alive_reads _ _ _ _ I Ha) as Hreads.
  assert (Hlog : Error ∉ log s) by (apply (pinv_no_error _ _ _ _ I); by rewrite Hg).
  destruct (pi_short _ _ _ _ _ I (or_intror Hg)) as [He Ho].
  pose proof (pi_partition _ _ _ _ _ I Ha) as Hp. unfold active in Hp. rewrite Hg in Hp.
  unfold short_next. case_bool_decide as Hrem.
  all: split; simpl; pbasic I pre.
  intros _. split; [by apply (pi_empty _ _ _ _ _ I)|done].
Qed.

Lemma pinv_for_next N src sched (s : state) :
  pinv N src sched s →
  gen s = PYield ∨ (∃ n c, gen s = PIter n c ToOnrecv) →
  onrecv_task s ≠ [] ∨ is_req_empty s = true →
  pinv N src sched (for_next debug_enabled has_msg_counters set_rank s).
Proof.
  intros I Hg Hnext.
  assert (Ha : alive s) by (unfold alive; by destruct Hg as [->|(? & ? & ->)]).
  destruct (pinv_alive_source _ _ _ _ I Ha) as (pre & Hs1 & Hs2 & Hs3).
  pose proof (pinv_alive_reads _ _ _ _ I Ha) as Hreads.
  assert (Hlog : Error ∉ log s).
  { apply (pinv_no_error _ _ _ _ I). by destruct Hg as [->|(? & ? & ->)]. }
  pose proof (pi_partition _ _ _ _ _ I Ha) as Hp. unfold active in Hp.
  assert (Hp' : seq 0 (length (futures s))
                ≡ₚ result_reads s ++ (ac_done s ++ ac_todo s) ++ onrecv_task s).
  { by destruct Hg as [Hg|(? & ? & Hg)]; rewrite Hg in Hp. }
  clear Hp.
  unfold for_next. case_bool_decide as Hrem.
  - rewrite Hrem in Hp'. simpl in Hp'.
    unfold while_head. simpl. case_bool_decide as Hw.
    + (* nothing was fetched during the pass: the stream is over *)
      assert (Hemp : is_req_empty s = true) by (by destruct Hnext).
      apply app_eq_nil in Hrem as [Hd Ht].
      split; simpl; pbasic I pre.
      * intros _. unfold active. simpl. by rewrite Hd, Ht.
      * intros _. split; [by apply (pi_empty _ _ _ _ _ I)|]. by rewrite Hd, Ht.
    + (* the next window *)
      assert (Hndw : NoDup (onrecv_task s)).
      { assert (NoDup (result_reads s ++ onrecv_task s)) as Hnd.
        { rewrite <- Hp'. apply NoDup_seq. }
        by apply NoDup_app in Hnd as (_ & _ & ?). }
      pose proof (as_completed_set_perm (as_completed_calls s) (onrecv_task s)
                    (completed s) Hndw (pi_nodup _ _ _ _ _ I)) as Hperm.
      set (lg := log (if debug_enabled && has_msg_counters
                      then {| s with prefetch_task := onrecv_task s;
                                     log := log s ++ [Debug] |}
                      else {| s with prefetch_task := onrecv_task s |})).
      assert (Hlg : Error ∉ lg).
      { subst lg. destruct (debug_enabled && has_msg_counters); simpl; [|done].
        rewrite elem_of_app, list_elem_of_singleton. naive_solver. }
      destruct (debug_enabled && has_msg_counters); simpl in *.
      all: split; simpl; pbasic I pre.
      all: try (intros _; unfold active; simpl; by rewrite Hperm, app_nil_r).
      all: try (intros i [_ ?]%list_elem_of_filter; done).
      all: try (intros i [? _]%list_elem_of_filter; done).
      all: try (intros i [_ ?]%elem_of_set_order%list_elem_of_filter; done).
      all: try (intros _ Hnil; rewrite Hnil in Hperm;
                apply Permutation_nil_l in Hperm; done).
  - split; simpl; pbasic I pre.
Qed.

Lemma lookup_snoc_done {A} (l : list (Request * option A)) r i r' o :
  (l ++ [(r, None)]) !! i = Some (r', Some o) → l !! i = Some (r', Some o).
Proof.
  intros [?|[_ Hi]]%lookup_app_Some; [done|].
  destruct (i - length l); simplify_eq/=.
Qed.

Lemma seq_snoc_perm n (l : list nat) :
  seq 0 n ≡ₚ l → seq 0 (S n) ≡ₚ l ++ [n].
Proof. intros H. rewrite seq_S. simpl. by rewrite H. Qed.

(** The request iterator raises inside [iterate_requests]. *)
Lemma pinv_fault N src sched (s : state) rest :
  pinv N src sched s → alive s → request_iterator s = Fault :: rest →
  pinv N src sched {| s with request_iterator := rest;
                             gen := PEnd (Raised ProducerFault) |}.
Proof.
  intros I Ha Hit.
  destruct (pinv_alive_source _ _ _ _ I Ha) as (pre & Hs1 & Hs2 & Hs3).
  pose proof (pinv_alive_reads _ _ _ _ I Ha) as Hreads.
  assert (Hlog : Error ∉ log s).
  { apply (pinv_no_error _ _ _ _ I). intros Hg.
    destruct (pi_finished _ _ _ _ _ I Hg) as (Hnil & _). congruence. }
  split; simpl; pbasic I pre.
  - exists (pre ++ [Fault]). rewrite Hs1, Hit, <- app_assoc. split; [done|].
    split; [|by right]. rewrite Hs2. unfold requests_of. rewrite omap_app. simpl.
    by rewrite app_nil_r.
  - intros _ Hall. rewrite Hs1, Hit in Hall.
    apply Forall_app in Hall as [_ Hall]. by inversion Hall.
  - intros He. rewrite (pi_empty _ _ _ _ _ I He) in Hit. done.
Qed.

(** A request is read and dispatched inside [iterate_requests]. *)
Lemma pinv_dispatch N src sched (s : state) r rest fetch_to g :
  pinv N src sched s → alive s → request_iterator s = Item r :: rest →
  (fetch_to = ToOnrecv ∧ g = PIter 1 0 ToOnrecv ∧ g = gen s) ∨
  (fetch_to = ToPrefetch ∧ (∃ c, gen s = PIter N c ToPrefetch) ∧
   g = PIter N (S (length (futures s))) ToPrefetch ∧ (1 ≤ N → S (length (futures s)) < N)) →
  let s1 := fetch_append fetch_to (length (futures s))
              {| s with request_iterator := rest;
                        futures := futures s ++ [(r, None)] |} in
  pinv N src sched {| s1 with is_req_empty := false; gen := g |}.
Proof.
  intros I Ha Hit Hg.
  destruct (pinv_alive_source _ _ _ _ I Ha) as (pre & Hs1 & Hs2 & Hs3).
  pose proof (pinv_alive_reads _ _ _ _ I Ha) as Hreads.
  assert (Hlog : Error ∉ log s).
  { apply (pinv_no_error _ _ _ _ I). intros Hgf.
    destruct (pi_finished _ _ _ _ _ I Hgf) as (Hnil & _). congruence. }
  assert (Hsrc' : ∃ pre0, src = pre0 ++ rest ∧
    (futures s ++ [(r, None)]).*1 = requests_of pre0 ∧
    (Forall is_item pre0 ∨ g = PEnd (Raised ProducerFault))).
  { exists (pre ++ [Item r]). rewrite Hs1, Hit, <- app_assoc. split; [done|].
    split; [|left; apply Forall_app; split; [done|by repeat constructor]].
    rewrite fmap_app, Hs2. unfold requests_of. by rewrite omap_app. }
  assert (Hdone' : ∀ i, i ∈ completed s ↔
    ∃ r0 o, (futures s ++ [(r, None)]) !! i = Some (r0, Some o)).
  { intros i. rewrite (pi_done _ _ _ _ _ I). split; intros (r' & o & Hi).
    - exists r', o. by apply lookup_app_l_Some.
    - exists r', o. by eapply lookup_snoc_done. }
  assert (Hvals' : ∀ i v, (i, v) ∈ yielded s →
    ∃ r0 raw, (futures s ++ [(r, None)]) !! i = Some (r0, Some (Ok raw))
              ∧ v = handle_result raw).
  { intros i v Hi. destruct (pi_vals _ _ _ _ _ I i v Hi) as (r' & raw & ? & ?).
    exists r', raw. split; [|done]. by apply lookup_app_l_Some. }
  pose proof (pi_partition _ _ _ _ _ I Ha) as Hp.
  destruct Hg as [(-> & -> & Hg)|(-> & (c & Hg) & -> & Hc)].
  - unfold active in Hp. rewrite <- Hg in Hp.
    split; simpl; pbasic I pre.
    intros _. rewrite length_app. simpl. rewrite Nat.add_1_r.
    unfold active. simpl. rewrite !app_assoc. apply seq_snoc_perm.
    by rewrite Hp, <- !app_assoc.
  - destruct (pi_fill _ _ _ _ _ I _ _ Hg) as (_ & -> & Hy & Hr & Ho & Hd & Ht & He & Hcalls & Hl & _).
    unfold active in Hp. rewrite Hg, Hr, Ho in Hp. simpl in Hp.
    rewrite app_nil_r in Hp.
    split; simpl; pbasic I pre.
    + intros _. rewrite length_app. simpl. rewrite Nat.add_1_r.
      unfold active. simpl. rewrite Hr, Ho. simpl. rewrite app_nil_r.
      by apply seq_snoc_perm.
    + intros n c' [= <- <-]. rewrite length_app. simpl. rewrite Nat.add_1_r.
      done.
Qed.


Lemma requests_of_nil l : Forall is_item l → requests_of l = [] → l = [].
Proof. by destruct 1 as [|[r|] l]. Qed.

(** [as_completed] is called on the first window. *)
Lemma pinv_first_window N src sched (s : state) c it' fs' W b g lg :
  pinv N src sched s → gen s = PIter N c ToPrefetch →
  (∃ pre, src = pre ++ it' ∧ fs'.*1 = requests_of pre ∧ Forall is_item pre) →
  (∀ i, i ∈ completed s ↔ ∃ r o, fs' !! i = Some (r, Some o)) →
  seq 0 (length fs') ≡ₚ W → W ≠ [] → (b = true → it' = []) →
  (g = PWait ∨ (g = PShortWait ∧ b = true)) → Error ∉ lg →
  pinv N src sched
    {| s with request_iterator := it'; futures := fs'; prefetch_task := W;
              onrecv_task := []; is_req_empty := b;
              ac_done := set_order set_rank (as_completed_calls s)
                           (filter (λ i, i ∈ W) (completed s));
              ac_todo := filter (λ i, i ∉ completed s) W;
              gen := g; log := lg;
              as_completed_calls := S (as_completed_calls s) |}.
Proof.
  intros I Hg (pre & Hs1 & Hs2 & Hs3) Hdone Hp Hne Hb Hgg Hlg.
  destruct (pi_fill _ _ _ _ _ I _ _ Hg) as (_ & -> & Hy & Hr & Ho & Hd & Ht & He & Hcalls & Hl & _).
  assert (HndW : NoDup W) by (rewrite <- Hp; apply NoDup_seq).
  pose proof (as_completed_set_perm (as_completed_calls s) W (completed s) HndW
                (pi_nodup _ _ _ _ _ I)) as Hperm.
  assert (Hwait : set_order set_rank (as_completed_calls s)
                    (filter (λ i, i ∈ W) (completed s))
                  ++ filter (λ i, i ∉ completed s) W ≠ []).
  { intros Hnil. rewrite Hnil in Hperm. by apply Permutation_nil_l in Hperm. }
  destruct Hgg as [->|[-> ->]].
  all: split; simpl; rewrite ?Hy, ?Hr; pbasic I pre.
  all: try (intros i v ?%elem_of_nil; done).
  all: try (intros i ?%elem_of_nil; done).
  all: try (intros _; unfold active; simpl; by rewrite Hperm, app_nil_r).
  all: try (intros i [_ ?]%list_elem_of_filter; done).
  all: try (intros i [? _]%list_elem_of_filter; done).
  all: try (intros i [_ ?]%elem_of_set_order%list_elem_of_filter; done).
  all: try (intros _; split; [by apply Hb|done]).
Qed.

Lemma pinv_stream_requests_with_prefetch N src sched (s s' : state) :
  pinv N src sched s →
  stream_requests_with_prefetch handle_result debug_enabled has_msg_counters set_rank s = Some s' →
  pinv N src sched s'.
Proof.
  intros I H. unfold stream_requests_with_prefetch in H.
  destruct (gen s) as [n c [|]| | | | |] eqn:Hg; [| | | | | |done].
  - (* filling the first window *)
    assert (Ha : alive s) by (unfold alive; by rewrite Hg).
    destruct (pi_fill _ _ _ _ _ I _ _ Hg)
      as (-> & -> & Hy & Hr & Ho & Hd & Ht & He & Hcalls & Hl & Hc).
    destruct (pinv_alive_source _ _ _ _ I Ha) as (pre & Hs1 & Hs2 & Hs3).
    pose proof (pi_partition _ _ _ _ _ I Ha) as Hp. unfold active in Hp.
    rewrite Hg, Hr, Ho in Hp. simpl in Hp. rewrite app_nil_r in Hp.
    unfold iterate_requests in H.
    destruct (request_iterator s) as [|[r|] rest] eqn:Hit.
    + (* exhausted *)
      injection H as <-. unfold after_fill. simpl.
      case_bool_decide as Hw; simpl.
      * (* empty input *)
        rewrite Hw in Hp. apply Permutation_nil_r in Hp.
        assert (futures s = []) as Hf.
        { apply nil_length_inv. destruct (length (futures s)); [done|]. done. }
        rewrite Hf in Hs2. simpl in Hs2.
        rewrite app_nil_r in Hs1. subst pre.
        apply requests_of_nil in Hs3; [|done]. subst src.
        split; simpl; pbasic I pre.
        -- exists []. rewrite Hf. auto.
        -- left. by rewrite Hy, Hr.
        -- intros _. unfold active. simpl. by rewrite Hf, Hr, Hd, Ht, Ho.
        -- intros _. by rewrite Hd, Ht, Ho.
        -- rewrite Hl. by right.
      * unfold short_next, as_completed. simpl.
        assert (Hperm := as_completed_set_perm (as_completed_calls s)
                           (prefetch_task s) (completed s)).
        rewrite bool_decide_eq_false_2.
        2:{ intros Hnil.
            assert (NoDup (prefetch_task s)) as Hnd by (rewrite <- Hp; apply NoDup_seq).
            specialize (Hperm Hnd (pi_nodup _ _ _ _ _ I)). rewrite Hnil in Hperm.
            apply Permutation_nil_l in Hperm. by destruct Hw. }
        rewrite Ho, Hit.
        eapply (pinv_first_window N src sched s _ [] (futures s) (prefetch_task s)
                  true PShortWait (log s)); eauto.
        -- by destruct I.
        -- rewrite Hl. by intros ?%elem_of_nil.
    + (* a request *)
      simpl in H. case_decide as Hn.
      * (* the window is full *)
        injection H as <-. unfold after_fill, while_head, fetch_append. simpl.
        rewrite bool_decide_eq_false_2 by (by intros [? ?]%app_eq_nil).
        assert (Hlg : ∀ b : bool, Error ∉ (if b then log s ++ [Debug] else log s)).
        { intros b. rewrite Hl. destruct b; simpl; [|by intros ?%elem_of_nil].
          by intros [=]%list_elem_of_singleton. }
        specialize (Hlg (debug_enabled && has_msg_counters)).
        destruct (debug_enabled && has_msg_counters); unfold as_completed; simpl.
        all: eapply (pinv_first_window N src sched s _ rest (futures s ++ [(r, None)])
                  (prefetch_task s ++ [length (futures s)]) false PWait); eauto.
        all: try (by intros [? ?]%app_eq_nil).
        all: try (rewrite length_app; simpl; rewrite Nat.add_1_r;
                  by apply seq_snoc_perm).
        all: try (exists (pre ++ [Item r]); rewrite Hs1, <- app_assoc; split; [done|];
                  split; [|apply Forall_app; split; [done|by repeat constructor]];
                  rewrite fmap_app, Hs2; unfold requests_of; by rewrite omap_app).
        all: try done.
        all: intros i; rewrite (pi_done _ _ _ _ _ I); split; intros (r' & o & Hi);
          exists r', o; [by apply lookup_app_l_Some|by eapply lookup_snoc_done].
      * injection H as <-. unfold fetch_append. simpl. rewrite He.
        apply (pinv_dispatch N src sched s r rest ToPrefetch
                 (PIter N (S (length (futures s))) ToPrefetch) I Ha Hit).
        right. split; [done|]. split; [by eauto|]. split; [done|]. intros HN.
        specialize (Hc HN). lia.
    + (* the request iterator raises *)
      injection H as <-. by apply pinv_fault.
  - (* fetching one more request after a [yield] *)
    assert (Ha : alive s) by (unfold alive; by rewrite Hg).
    destruct (pi_refill _ _ _ _ _ I _ _ Hg) as [-> ->].
    unfold iterate_requests in H.
    destruct (request_iterator s) as [|[r|] rest] eqn:Hit; simpl in H; injection H as <-.
    + apply pinv_for_next; [|right; by eauto|by right].
      split; simpl; try (by destruct I).
      * intros n c. by rewrite Hg.
      * rewrite Hg. by intros [|].
    + apply pinv_for_next; [|right; by eauto|left; simpl; by intros [? ?]%app_eq_nil].
      pose proof (pinv_dispatch N src sched s r rest ToOnrecv (PIter 1 0 ToOnrecv)
                    I Ha Hit) as Hdisp.
      simpl in Hdisp. unfold fetch_append. simpl. rewrite Hg. apply Hdisp. by left.
    + by apply pinv_fault.
  - eapply pinv_await_yield; [done| |done]. by right.
  - injection H as <-. by apply pinv_short_next.
  - eapply pinv_await_yield; [done| |done]. by left.
  - destruct (is_req_empty s) eqn:He; injection H as <-.
    + apply pinv_for_next; [done|by left|by right].
    + assert (Ha : alive s) by (unfold alive; by rewrite Hg).
      destruct (pinv_alive_source _ _ _ _ I Ha) as (pre & Hs1 & Hs2 & Hs3).
      pose proof (pinv_alive_reads _ _ _ _ I Ha) as Hreads.
      assert (Hlog : Error ∉ log s) by (apply (pinv_no_error _ _ _ _ I); by rewrite Hg).
      pose proof (pi_partition _ _ _ _ _ I Ha) as Hp. unfold active in Hp.
      rewrite Hg in Hp.
      split; simpl; pbasic I pre.
Qed.

Lemma pinv_step N src sched (s s' : state) e :
  pinv N src sched s → pstep e s = Some s' → pinv N src (sched ++ [e]) s'.
Proof.
  destruct e as [| | |i o]; simpl; intros I H; try done.
  - eapply pinv_sched; [|by eapply pinv_stream_requests_with_prefetch].
    by rewrite completions_snoc, app_nil_r.
  - by eapply pinv_complete.
Qed.

Lemma prun_app sched1 sched2 (s : state) :
  prun (sched1 ++ sched2) s = prun sched1 s ≫= prun sched2.
Proof.
  revert s. induction sched1 as [|e es IH]; intros s; simpl; [done|].
  destruct (pstep e s) as [s'|]; simpl; [apply IH | done].
Qed.

Lemma prun_snoc sched e (s : state) :
  prun (sched ++ [e]) s = prun sched s ≫= pstep e.
Proof.
  rewrite prun_app. destruct (prun sched s) as [s'|]; simpl; [|done].
  by destruct (pstep e s').
Qed.

Lemma pinv_run N src sched (s : state) :
  prun sched (init N src) = Some s → pinv N src sched s.
Proof.
  revert s. induction sched as [|e sched IH] using rev_ind; intros s.
  - intros [= <-]. apply pinv_init.
  - rewrite prun_snoc. destruct (prun sched (init N src)) as [s0|] eqn:Hr; [|done].
    simpl. intros Hs. eapply pinv_step; eauto.
Qed.

(** *** The cap on dispatched, not yet yielded requests *)


(** *** What the loop heads leave alone *)



Lemma as_completed_env (s : state) : env (as_completed set_rank s) = env s.
Proof. done. Qed.

Lemma short_next_env (s : state) :
  env (short_next s) = env s ∧ waiting_or_finished (short_next s).
Proof.
  destruct s as [it fs cs pt ot em ad at' g ys ec lg rr ac].
  unfold short_next, waiting_or_finished. simpl. case_bool_decide; simpl; auto.
Qed.

Lemma while_head_env (s : state) :
  env (while_head debug_enabled has_msg_counters set_rank s) = env s ∧
  waiting_or_finished (while_head debug_enabled has_msg_counters set_rank s).
Proof.
  destruct s as [it fs cs pt ot em ad at' g ys ec lg rr ac].
  unfold while_head, waiting_or_finished. simpl. case_bool_decide; simpl; [auto|].
  destruct (debug_enabled && has_msg_counters); simpl; auto.
Qed.

Lemma for_next_env (s : state) :
  env (for_next debug_enabled has_msg_counters set_rank s) = env s ∧
  waiting_or_finished (for_next debug_enabled has_msg_counters set_rank s).
Proof.
  unfold for_next. case_bool_decide.
  - apply (while_head_env {| s with prefetch_task := onrecv_task s |}).
  - unfold waiting_or_finished. simpl. auto.
Qed.

Lemma after_fill_env (s : state) :
  env (after_fill debug_enabled has_msg_counters set_rank s) = env s ∧
  waiting_or_finished (after_fill debug_enabled has_msg_counters set_rank s).
Proof.
  unfold after_fill. destruct (is_req_empty s && bool_decide (prefetch_task s = [])).
  - unfold waiting_or_finished, env. simpl. auto.
  - destruct (is_req_empty s) eqn:He.
    + destruct (short_next_env (as_completed set_rank s)) as [-> ?]. by rewrite as_completed_env.
    + match goal with |- env (while_head _ _ _ ?x) = _ ∧ _ =>
        destruct (while_head_env x) as [-> ?] end.
      split; [|done]. unfold env. simpl. by rewrite He.
Qed.

Lemma env_cap N (s s0 : state) :
  env s = env s0 → waiting_or_finished s →
  length (futures s0) ≤ N + length (yielded s0) → cap_ok N s.
Proof.
  unfold env, cap_ok. intros [= _ -> _ -> _ _ _] Hg.
  by destruct Hg as [->|[->| ->]].
Qed.

Lemma cap_step N src sched (s s' : state) e :
  1 ≤ N → pinv N src sched s → cap_ok N s → pstep e s = Some s' → cap_ok N s'.
Proof.
  intros HN I Hc H.
  pose proof (pi_fill _ _ _ _ _ I) as Hfill.
  pose proof (pi_refill _ _ _ _ _ I) as Hrefill. clear I.
  destruct e as [| | |i o]; simpl in H; try done.
  - unfold stream_requests_with_prefetch in H.
    destruct (gen s) as [n c [|]| | | | |] eqn:Hg; [| | | | | |done].
    + destruct (Hfill _ _ eq_refl)
        as (-> & -> & Hy & Hr & Ho & Hd & Ht & He & Hcalls & Hl & Hlt).
      specialize (Hlt HN). clear Hfill Hrefill.
      unfold iterate_requests in H.
      destruct (request_iterator s) as [|[r|] rest]; simpl in H.
      * injection H as <-.
        match goal with |- cap_ok _ (after_fill _ _ _ ?x) =>
          destruct (after_fill_env x) as [He' Hw]; eapply (env_cap _ _ x); eauto end.
        simpl. lia.
      * case_decide as Hn; injection H as <-.
        -- match goal with |- cap_ok _ (after_fill _ _ _ ?x) =>
             destruct (after_fill_env x) as [He' Hw]; eapply (env_cap _ _ x); eauto end.
           unfold fetch_append. simpl. rewrite length_app, Hy. simpl. lia.
        -- unfold fetch_append, cap_ok. simpl. rewrite ?length_app. simpl. lia.
      * injection H as <-. unfold cap_ok. simpl. lia.
    + unfold cap_ok in Hc. rewrite Hg in Hc.
      destruct (Hrefill _ _ eq_refl) as [-> ->]. clear Hfill Hrefill.
      unfold iterate_requests in H.
      destruct (request_iterator s) as [|[r|] rest] eqn:Hit; simpl in H;
        injection H as <-.
      * match goal with |- cap_ok _ (for_next _ _ _ ?x) =>
          destruct (for_next_env x) as [He' Hw]; eapply (env_cap _ _ x); eauto end.
        simpl. lia.
      * match goal with |- cap_ok _ (for_next _ _ _ ?x) =>
          destruct (for_next_env x) as [He' Hw]; eapply (env_cap _ _ x); eauto end.
        unfold fetch_append. simpl. rewrite length_app. simpl. lia.
      * unfold cap_ok. simpl. lia.
    + unfold cap_ok in Hc. rewrite Hg in Hc. unfold await_yield in H.
      destruct (ac_done s) as [|j d]; [done|].
      destruct (futures s !! j) as [[r [[v|e]|]]|]; simplify_eq.
      all: unfold cap_ok; simpl; rewrite ?length_app; simpl; lia.
    + unfold cap_ok in Hc. rewrite Hg in Hc. injection H as <-.
      destruct (short_next_env s) as [He' Hw]. eapply (env_cap _ _ s); eauto.
    + unfold cap_ok in Hc. rewrite Hg in Hc. unfold await_yield in H.
      destruct (ac_done s) as [|j d]; [done|].
      destruct (futures s !! j) as [[r [[v|e]|]]|]; simplify_eq.
      all: unfold cap_ok; simpl; rewrite ?length_app; simpl; lia.
    + unfold cap_ok in Hc. rewrite Hg in Hc.
      destruct (is_req_empty s); injection H as <-.
      * destruct (for_next_env s) as [He' Hw]. eapply (env_cap _ _ s); eauto. lia.
      * unfold cap_ok. simpl. lia.
  - unfold complete in H. destruct (futures s !! i) as [[r [o'|]]|]; simplify_eq.
    unfold cap_ok in *. simpl. rewrite length_insert. done.
Qed.

Lemma cap_run N src sched (s : state) :
  1 ≤ N → prun sched (init N src) = Some s → cap_ok N s.
Proof.
  intros HN. revert s. induction sched as [|e sched IH] using rev_ind; intros s.
  - intros [= <-]. unfold cap_ok. simpl. lia.
  - rewrite prun_snoc. destruct (prun sched (init N src)) as [s0|] eqn:Hr; [|done].
    simpl. intros Hs. eapply cap_step; eauto using pinv_run.
Qed.

(** *** Termination *)

Lemma fuel_left_env (s s0 : state) :
  env s = env s0 → waiting_or_finished s →
  fuel_left s = 6 * length (request_iterator s0)
                + length (filter (λ f, f.2 = None) (futures s0))
                + 3 * (length (futures s0) - length (result_reads s0)).
Proof.
  unfold env, fuel_left. intros [= -> -> _ _ -> _ _] Hg.
  destruct Hg as [->|[->| ->]]; lia.
Qed.

Lemma pending_insert_p (l : list (Request * option (Outcome Raw))) i r o :
  l !! i = Some (r, None) →
  S (length (filter (λ f, f.2 = None) (<[i:=(r, Some o)]> l)))
  = length (filter (λ f, f.2 = None) l).
Proof.
  revert i. induction l as [|[r' o'] l IH]; intros [|i] Hi; simplify_eq/=; [done|].
  destruct o' as [o'|]; simpl; [|f_equal]; by apply IH.
Qed.

Lemma reads_lt_futures N src sched (s : state) :
  pinv N src sched s → gen s = PWait ∨ gen s = PShortWait → ac_done s ≠ [] →
  length (result_reads s) < length (futures s).
Proof.
  intros I Hg Hd.
  assert (Ha : alive s) by (unfold alive; by destruct Hg as [->| ->]).
  pose proof (pi_partition _ _ _ _ _ I Ha) as Hp. unfold active in Hp.
  apply Permutation_length in Hp. rewrite length_seq, !length_app in Hp.
  destruct (ac_done s); [done|].
  destruct Hg as [Hg|Hg]; rewrite Hg in Hp; simpl in Hp; lia.
Qed.

Lemma resume_env fetch_to (s : state) :
  let s' := match fetch_to with
            | ToPrefetch => after_fill debug_enabled has_msg_counters set_rank s
            | ToOnrecv => for_next debug_enabled has_msg_counters set_rank s
            end in
  env s' = env s ∧ waiting_or_finished s'.
Proof. destruct fetch_to; [apply after_fill_env|apply for_next_env]. Qed.

Lemma pfuel_left_step N src sched e (s s' : state) :
  pinv N src sched s → pstep e s = Some s' → fuel_left s' < fuel_left s.
Proof.
  intros I H. destruct e as [| | |i o]; simpl in H; try done.
  - unfold stream_requests_with_prefetch in H.
    destruct (gen s) as [n c t| | | | |] eqn:Hg; [| | | | |done].
    + unfold iterate_requests in H.
      destruct (request_iterator s) as [|[r|] rest] eqn:Hit; simpl in H.
      * injection H as <-.
        match goal with |- fuel_left ?x < _ =>
          match x with context [match t with _ => _ end] => idtac end;
          pose proof (resume_env t {| s with is_req_empty := true |}) as [He Hw] end.
        rewrite (fuel_left_env _ _ He Hw). unfold fuel_left. simpl.
        rewrite Hit, Hg. simpl. lia.
      * case_decide; injection H as <-.
        -- match goal with |- fuel_left (match t with
                                         | ToPrefetch => after_fill _ _ _ ?x
                                         | _ => _ end) < _ =>
             pose proof (resume_env t x) as [He Hw] end.
           rewrite (fuel_left_env _ _ He Hw). unfold fuel_left, fetch_append.
           rewrite Hit, Hg. destruct t; simpl.
           all: rewrite filter_app, !length_app, filter_cons_True by done; simpl; lia.
        -- unfold fuel_left, fetch_append. rewrite Hit, Hg. destruct t; simpl.
           all: rewrite filter_app, !length_app, filter_cons_True by done; simpl; lia.
      * injection H as <-. unfold fuel_left. simpl. rewrite Hit, Hg. simpl. lia.
    + pose proof (reads_lt_futures _ _ _ _ I (or_intror Hg)) as Hlt.
      unfold await_yield in H. destruct (ac_done s) as [|j d]; [done|].
      specialize (Hlt ltac:(done)).
      destruct (futures s !! j) as [[r [[v|e]|]]|]; simplify_eq.
      all: unfold fuel_left; simpl; rewrite Hg, length_app; simpl; lia.
    + injection H as <-. destruct (short_next_env s) as [He Hw].
      rewrite (fuel_left_env _ _ He Hw). unfold fuel_left. rewrite Hg. lia.
    + pose proof (reads_lt_futures _ _ _ _ I (or_introl Hg)) as Hlt.
      unfold await_yield in H. destruct (ac_done s) as [|j d]; [done|].
      specialize (Hlt ltac:(done)).
      destruct (futures s !! j) as [[r [[v|e]|]]|]; simplify_eq.
      all: unfold fuel_left; simpl; rewrite Hg, length_app; simpl; lia.
    + destruct (is_req_empty s); injection H as <-.
      * destruct (for_next_env s) as [He Hw].
        rewrite (fuel_left_env _ _ He Hw). unfold fuel_left. rewrite Hg. lia.
      * unfold fuel_left. simpl. rewrite Hg. lia.
  - unfold complete in H. destruct (futures s !! i) as [[r [o'|]]|] eqn:Hi; simplify_eq.
    unfold fuel_left. simpl. rewrite length_insert.
    rewrite <- (pending_insert_p _ _ _ o Hi). lia.
Qed.

Lemma pfuel_left_run N src sched (s : state) :
  prun sched (init N src) = Some s →
  length sched + fuel_left s ≤ 1 + 6 * length src.
Proof.
  revert s. induction sched as [|e sched IH] using rev_ind; intros s.
  - intros [= <-]. unfold fuel_left. simpl. lia.
  - rewrite prun_snoc. destruct (prun sched (init N src)) as [s0|] eqn:Hr; [|done].
    simpl. intros Hs. specialize (IH _ eq_refl).
    eapply pfuel_left_step in Hs; [|by eapply pinv_run].
    rewrite length_app. simpl. lia.
Qed.

(** *** Outcomes come from the schedule *)

Lemma stream_futures_done (s s' : state) i r o :
  stream_requests_with_prefetch handle_result debug_enabled has_msg_counters set_rank s = Some s' →
  futures s' !! i = Some (r, Some o) → futures s !! i = Some (r, Some o).
Proof.
  unfold stream_requests_with_prefetch. intros H Hi.
  assert (Henv : ∀ (x y : state), env x = env y → futures x = futures y).
  { unfold env. by intros x y [= _ -> _ _ _ _ _]. }
  destruct (gen s) as [n c t| | | | |] eqn:Hg; [| | | | |done].
  - unfold iterate_requests in H.
    destruct (request_iterator s) as [|[r0|] rest] eqn:Hit; simpl in H.
    + injection H as <-.
      destruct (resume_env t {| s with is_req_empty := true |}) as [He _].
      by rewrite (Henv _ _ He) in Hi.
    + case_decide; injection H as <-.
      * match type of Hi with futures (match t with
                                       | ToPrefetch => after_fill _ _ _ ?x
                                       | _ => _ end) !! _ = _ =>
          destruct (resume_env t x) as [He _]; rewrite (Henv _ _ He) in Hi end.
        destruct t; simpl in Hi; by eapply lookup_snoc_done.
      * destruct t; simpl in Hi; by eapply lookup_snoc_done.
    + by injection H as <-.
  - unfold await_yield in H. destruct (ac_done s) as [|j d]; [done|].
    destruct (futures s !! j) as [[r0 [[v|e]|]]|]; by simplify_eq.
  - injection H as <-. destruct (short_next_env s) as [He _].
    by rewrite (Henv _ _ He) in Hi.
  - unfold await_yield in H. destruct (ac_done s) as [|j d]; [done|].
    destruct (futures s !! j) as [[r0 [[v|e]|]]|]; by simplify_eq.
  - destruct (is_req_empty s); injection H as <-; [|done].
    destruct (for_next_env s) as [He _]. by rewrite (Henv _ _ He) in Hi.
Qed.

Lemma poutcome_run N src sched (s : state) :
  prun sched (init N src) = Some s →
  ∀ i r o, futures s !! i = Some (r, Some o) → Complete i o ∈ sched.
Proof.
  revert s. induction sched as [|e sched IH] using rev_ind; intros s.
  - intros [= <-]. done.
  - rewrite prun_snoc. destruct (prun sched (init N src)) as [s0|] eqn:Hr; [|done].
    simpl. intros Hs i r o Hi. rewrite elem_of_app, list_elem_of_singleton.
    destruct e as [| | |j o']; simpl in Hs; try done.
    + left. eapply IH; [done|]. by eapply stream_futures_done.
    + unfold complete in Hs.
      destruct (futures s0 !! j) as [[r' [?|]]|] eqn:Hj; simplify_eq/=.
      destruct (decide (i = j)) as [->|Hne].
      * rewrite list_lookup_insert_eq in Hi by (by eapply lookup_lt_Some).
        simplify_eq. by right.
      * rewrite list_lookup_insert_ne in Hi by done. left. eauto.
Qed.

(** *** Running to completion *)




Lemma pnext_event_None (s : state) :
  next_event s = None → stuck handle_result debug_enabled has_msg_counters set_rank s.
Proof.
  unfold Prefetch.next_event. intros H [| | |i o]; simpl; try done.
  - by destruct (stream_requests_with_prefetch _ _ _ _ s).
  - destruct (stream_requests_with_prefetch _ _ _ _ s); [done|].
    destruct (list_find _ _) as [[]|] eqn:Hfind; [done|].
    unfold complete. destruct (futures s !! i) as [[r [o'|]]|] eqn:Hi; try done.
    eapply list_find_None, Forall_lookup in Hfind; [|done]. done.
Qed.

Lemma pnext_event_Some (s : state) e :
  next_event s = Some e → succeeds e ∧ is_Some (pstep e s).
Proof.
  unfold Prefetch.next_event. intros H.
  destruct (stream_requests_with_prefetch _ _ _ _ s) eqn:H1; [by simplify_eq/=|].
  destruct (list_find _ _) as [[i [r o]]|] eqn:Hfind; [|done].
  apply list_find_Some in Hfind as (Hi & Ho & _). simplify_eq/=.
  split; [done|]. unfold complete. rewrite Hi. done.
Qed.

Lemma pdrain_spec N src sched fuel (s : state) :
  pinv N src sched s → fuel_left s ≤ fuel →
  prun (drain fuel s).1 s = Some (drain fuel s).2 ∧
  stuck handle_result debug_enabled has_msg_counters set_rank (drain fuel s).2 ∧
  Forall succeeds (drain fuel s).1.
Proof.
  revert sched s. induction fuel as [|fuel IH]; intros sched s I Hf; simpl.
  - split; [done|]. split; [|done]. intros e.
    destruct (pstep e s) eqn:He; [|done].
    eapply pfuel_left_step in He; [|done]. lia.
  - destruct (next_event s) as [e|] eqn:Hn.
    + destruct (pnext_event_Some _ _ Hn) as (Hs & s' & He). rewrite He.
      destruct (IH (sched ++ [e]) s') as (Hr & Hst & Hok).
      { by eapply pinv_step. }
      { eapply pfuel_left_step in He; [|done]. lia. }
      destruct (drain fuel s') as [es s'']. simpl in *. rewrite He. simpl.
      split; [done|]. split; [done|]. by constructor.
    + simpl. split; [done|]. split; [|done]. by apply pnext_event_None.
Qed.

(** *** Where an execution can stop *)

Lemma stuck_ended N src sched (s : state) :
  pinv N src sched s → stuck handle_result debug_enabled has_msg_counters set_rank s →
  ∃ st, gen s = PEnd st.
Proof.
  intros I Hst. pose proof (Hst Consumer) as Hc. simpl in Hc.
  unfold stream_requests_with_prefetch in Hc.
  assert (Hwait : gen s = PWait ∨ gen s = PShortWait → ∀ g,
            await_yield handle_result g s = None → False).
  { intros Hg g Hay.
    assert (Ha : alive s) by (unfold alive; by destruct Hg as [->| ->]).
    unfold await_yield in Hay. destruct (ac_done s) as [|j d] eqn:Hd.
    - pose proof (pi_wait _ _ _ _ _ I Hg) as Hne. rewrite Hd in Hne. simpl in Hne.
      destruct (ac_todo s) as [|j t] eqn:Ht; [done|].
      assert (j ∉ completed s) as Hnc by (apply (pi_todo _ _ _ _ _ I); rewrite Ht; left).
      assert (j ∈ seq 0 (length (futures s))) as Hj.
      { rewrite (pi_partition _ _ _ _ _ I Ha). unfold active.
        rewrite !elem_of_app. right. left.
        destruct Hg as [->| ->]; rewrite Ht, elem_of_app; right; left. }
      apply elem_of_seq in Hj as [_ Hj]. simpl in Hj.
      destruct (lookup_lt_is_Some_2 _ _ Hj) as [[r [o|]] Hf].
      + apply Hnc, (pi_done _ _ _ _ _ I). eauto.
      + pose proof (Hst (Complete j (Failed "x"))) as Hcomp. simpl in Hcomp.
        unfold complete in Hcomp. by rewrite Hf in Hcomp.
    - assert (j ∈ completed s) as Hjc by (apply (pi_acdone _ _ _ _ _ I); rewrite Hd; left).
      apply (pi_done _ _ _ _ _ I) in Hjc as (r & o & Hf). rewrite Hf in Hay.
      by destruct o. }
  destruct (gen s) as [n c t| | | | |st] eqn:Hg; [| | | | |by eauto].
  - exfalso. by repeat case_match.
  - exfalso. eapply Hwait; eauto.
  - done.
  - exfalso. eapply Hwait; eauto.
  - exfalso. by destruct (is_req_empty s).
Qed.

Lemma finished_all_read N src sched (s : state) :
  pinv N src sched s → gen s = PEnd Finished →
  request_iterator s = [] ∧ length (futures s) = length (requests_of src) ∧
  (yielded s).*1 ≡ₚ seq 0 (length (futures s)).
Proof.
  intros I Hg.
  assert (Ha : alive s) by (unfold alive; by rewrite Hg).
  destruct (pi_finished _ _ _ _ _ I Hg) as (Hit & Hrem & Ho).
  destruct (pinv_alive_source _ _ _ _ I Ha) as (pre & Hs1 & Hs2 & Hs3).
  rewrite Hit, app_nil_r in Hs1. subst pre.
  split; [done|]. split; [by rewrite <- Hs2, length_fmap|].
  rewrite (pinv_alive_reads _ _ _ _ I Ha).
  pose proof (pi_partition _ _ _ _ _ I Ha) as Hp. unfold active in Hp.
  rewrite Hg, Hrem, Ho in Hp. simpl in Hp. by rewrite app_nil_r in Hp.
Qed.


(** *** The blocks of the generator *)





Lemma for_next_cases (s0 s : state) :
  result_reads s = result_reads s0 → prefetch_task s = prefetch_task s0 →
  ac_done s = ac_done s0 → ac_todo s = ac_todo s0 →
  as_completed_calls s = as_completed_calls s0 → completed s = completed s0 →
  (onrecv_task s = onrecv_task s0 ∨
   onrecv_task s = onrecv_task s0 ++ [length (futures s0)]) →
  let s' := for_next debug_enabled has_msg_counters set_rank s in
  stays s0 s' ∨ returns s0 s' ∨ switches s0 s'.
Proof.
  destruct s as [it fs cs pt ot em ad at' g ys ec lg rr ac].
  destruct s0 as [it0 fs0 cs0 pt0 ot0 em0 ad0 at0 g0 ys0 ec0 lg0 rr0 ac0].
  simpl. intros -> -> -> -> -> -> Ho.
  unfold for_next, while_head. simpl.
  case_bool_decide as Hrem; simpl.
  - case_bool_decide as Hnil; simpl.
    + right. left. unfold returns. simpl. subst ot.
      apply app_eq_nil in Hrem as [-> ->].
      destruct Ho as [<-|Ho]; [by auto 10|]. by destruct ot0.
    + right. right. unfold Prefetch.switches, as_completed. simpl.
      destruct (debug_enabled && has_msg_counters); simpl;
        destruct Ho as [->| ->]; auto 10.
  - left. unfold stays. simpl. destruct Ho as [->| ->]; auto 10.
Qed.

Lemma consumer_cases (s s' : state) :
  stream_requests_with_prefetch handle_result debug_enabled has_msg_counters set_rank s
  = Some s' →
  (∀ n c, gen s ≠ PIter n c ToPrefetch) →
  takes_head s s' ∨ stays s s' ∨ returns s s' ∨ switches s s'.
Proof.
  intros H Hfill. unfold stream_requests_with_prefetch in H.
  destruct (gen s) as [n c [|]| | | | |] eqn:Hg; [by destruct (Hfill n c)| | | | | |done].
  - unfold iterate_requests in H.
    destruct (request_iterator s) as [|[r|] rest] eqn:Hit; simpl in H.
    + injection H as <-. right.
      apply (for_next_cases s {| s with is_req_empty := true |}); simpl; auto.
    + case_decide; injection H as <-.
      * right.
        match goal with |- context [for_next _ _ _ ?x] =>
          apply (for_next_cases s x); simpl; auto end.
      * right. left. unfold stays, fetch_append. simpl. auto 10.
    + injection H as <-. right. left. unfold stays. simpl. auto 10.
  - left. unfold await_yield in H. destruct (ac_done s) as [|j d] eqn:Hd; [done|].
    exists j, d.
    destruct (futures s !! j) as [[r [[v|e]|]]|]; simplify_eq; simpl; auto 15.
  - injection H as <-. right. left.
    destruct s as [it fs cs pt ot em ad at' g ys ec lg rr ac].
    unfold short_next, stays. simpl. case_bool_decide; simpl; auto 10.
  - left. unfold await_yield in H. destruct (ac_done s) as [|j d] eqn:Hd; [done|].
    exists j, d.
    destruct (futures s !! j) as [[r [[v|e]|]]|]; simplify_eq; simpl; auto 15.
  - destruct (is_req_empty s); injection H as <-.
    + right. apply (for_next_cases s s); auto.
    + right. left. unfold stays. simpl. auto 10.
Qed.

(** Filling the first window. *)
Lemma fill_cases (s s' : state) n c :
  stream_requests_with_prefetch handle_result debug_enabled has_msg_counters set_rank s
  = Some s' →
  gen s = PIter n c ToPrefetch → onrecv_task s = [] →
  result_reads s' = result_reads s ∧ onrecv_task s' = [] ∧
  completed s' = completed s ∧
  (as_completed_calls s' = as_completed_calls s ∧
   ((∃ c', gen s' = PIter n c' ToPrefetch) ∨ ∃ st, gen s' = PEnd st)
   ∨
   as_completed_calls s' = S (as_completed_calls s) ∧
   ac_done s' = set_order set_rank (as_completed_calls s)
                  (filter (λ i, i ∈ prefetch_task s') (completed s)) ∧
   ac_todo s' = filter (λ i, i ∉ completed s) (prefetch_task s')).
Proof.
  destruct s as [it fs cs pt ot em ad at' g ys ec lg rr ac]. simpl.
  intros H -> ->. unfold stream_requests_with_prefetch, iterate_requests in H.
  simpl in H. destruct it as [|[r|] rest]; simpl in H.
  - injection H as <-. unfold after_fill. simpl.
    case_bool_decide; simpl.
    + split; [done|]. split; [done|]. split; [done|]. left. eauto.
    + unfold short_next, as_completed. simpl. case_bool_decide; simpl; auto 10.
  - case_decide; injection H as <-.
    + unfold after_fill, while_head, fetch_append. simpl.
      case_bool_decide; simpl; [by destruct pt|].
      unfold as_completed.
      destruct (debug_enabled && has_msg_counters); simpl; auto 10.
    + unfold fetch_append. simpl. split; [done|]. split; [done|]. split; [done|].
      left. eauto.
  - injection H as <-. simpl. split; [done|]. split; [done|]. split; [done|].
    left. eauto.
Qed.

(** *** Inputs that fit the first window *)



Lemma filter_none {A} (P : A → Prop) `{!∀ x, Decision (P x)} (l : list A) :
  (∀ x, x ∈ l → ¬ P x) → filter P l = [].
Proof.
  induction l as [|x l IH]; intros HP; [done|].
  rewrite filter_cons_False by (apply HP; left). apply IH.
  intros y Hy. apply HP. by right.
Qed.




(** *** The queue of [as_completed] *)


Lemma window_step N src sched (s s' : state) e :
  pinv N src sched s → window_ok s → pstep e s = Some s' → window_ok s'.
Proof.
  intros I [Hw0 Hw] H. destruct e as [| | |i o]; simpl in H; try done.
  - assert (Hcase : (∃ n c, gen s = PIter n c ToPrefetch) ∨
                    (∀ n c, gen s ≠ PIter n c ToPrefetch)).
    { destruct (gen s) as [n c [|]| | | | |st]; eauto; by right. }
    destruct Hcase as [(n & c & Hg)|Hnf].
    { (* the first window *)
      destruct (pi_fill _ _ _ _ _ I _ _ Hg)
        as (_ & _ & _ & Hr & Ho & _ & _ & _ & Hcalls & _).
      destruct (fill_cases _ _ _ _ H Hg Ho)
        as (Hr' & Ho' & Hcs' & [[Hc' Hg']|(Hc' & Hd' & Ht')]).
      - split; [|rewrite Hc', Hcalls; lia].
        intros _. split; [done|]. destruct Hg' as [[c' ->]|[st ->]]; eauto.
      - split; [rewrite Hc'; lia|]. intros _.
        rewrite Hr', Hr, Hd', Ht', Hcs'. simpl. split; [|done].
        apply set_order_perm. }
    assert (Ha : alive s).
    { unfold alive. unfold stream_requests_with_prefetch in H.
      by destruct (gen s). }
    assert (Hc : 1 ≤ as_completed_calls s).
    { destruct (as_completed_calls s) eqn:E; [|lia].
      destruct (Hw0 eq_refl) as [_ [(n' & c' & Hx)|[st Hx]]].
      - by destruct (Hnf n' c').
      - unfold stream_requests_with_prefetch in H. by rewrite Hx in H. }
    destruct (Hw Hc) as [Hw1 Hw2].
    destruct (consumer_cases _ _ H Hnf)
      as [(j & d & _ & Hd & Hd' & Hr' & Hp' & Ho' & Ht' & Hc' & Hcs')
         |[(Hr' & Hp' & Hd' & Ht' & Hc' & Hcs' & Ho')
         |[(Hrem & Ho & Hr' & Hp' & Hd' & Ht' & Ho' & Hc' & Hcs' & Hg')
         |(Hrem & Hr' & Hc' & Ho' & Hcs' & Hp' & Hd' & Ht')]]].
    all: split; [rewrite Hc'; lia|]; intros _.
    + rewrite Hp', Hr', Hd', Ht', Hcs'. split; [|done].
      assert (j ∈ prefetch_task s) as Hj.
      { assert (j ∈ filter (λ i, i ∈ prefetch_task s) (completed s)) as Hj
          by (rewrite <- Hw1, Hd, elem_of_app; right; left).
        by apply list_elem_of_filter in Hj as [? _]. }
      rewrite filter_app, filter_cons_True by done.
      rewrite <- Hw1, Hd, <- app_assoc. done.
    + rewrite Hp', Hr', Hd', Ht', Hcs'. done.
    + rewrite Hp', Hr', Hd', Ht', Hcs'. split; [|done].
      rewrite (filter_none _ (result_reads s)) by (by intros x _ ?%elem_of_nil).
      rewrite (filter_none _ (completed s)) by (by intros x _ ?%elem_of_nil).
      done.
    + rewrite Hr', Hd', Ht', Hcs'. split; [|done].
      rewrite set_order_perm. rewrite filter_none; [done|].
      intros x Hx Hin.
      assert (NoDup (result_reads s ++ active s ++ onrecv_task s)) as Hnd.
      { rewrite <- (pi_partition _ _ _ _ _ I Ha). apply NoDup_seq. }
      apply NoDup_app in Hnd as (_ & Hnd & _). apply (Hnd x Hx).
      rewrite elem_of_app. right.
      destruct Hp' as [Hp'|Hp']; rewrite Hp' in Hin; [done|].
      apply elem_of_app in Hin as [?|Hin%list_elem_of_singleton]; [done|].
      subst x. exfalso.
      assert (length (futures s) ∈ seq 0 (length (futures s))) as Hs
        by (rewrite (pi_partition _ _ _ _ _ I Ha), elem_of_app; by left).
      apply elem_of_seq in Hs. lia.
  - unfold complete in H. destruct (futures s !! i) as [[r [o'|]]|] eqn:Hi; simplify_eq.
    assert (Hnew : i ∉ completed s).
    { intros (r' & o' & H)%(pi_done _ _ _ _ _ I). congruence. }
    unfold window_ok. simpl. split; [done|]. intros Hc. destruct (Hw Hc) as [Hw1 Hw2].
    assert (Hiff : i ∈ ac_todo s ↔ i ∈ prefetch_task s).
    { rewrite Hw2, list_elem_of_filter. naive_solver. }
    split.
    + rewrite filter_app. case_decide as Hin.
      * rewrite filter_cons_True by (by apply Hiff). rewrite app_assoc, Hw1. done.
      * rewrite filter_cons_False by (by rewrite <- Hiff).
        by rewrite Hw1, app_nil_r.
    + rewrite Hw2, list_filter_filter. apply list_filter_iff. intros j.
      rewrite elem_of_app, list_elem_of_singleton. naive_solver.
Qed.

Lemma window_run N src sched (s : state) :
  prun sched (init N src) = Some s → window_ok s.
Proof.
  revert s. induction sched as [|e sched IH] using rev_ind; intros s.
  - intros [= <-]. unfold window_ok. simpl. split; [eauto|lia].
  - rewrite prun_snoc. destruct (prun sched (init N src)) as [s0|] eqn:Hr; [|done].
    simpl. intros Hs. eapply window_step; eauto using pinv_run.
Qed.

(** *** Order of dispatch *)

Lemma pdispatch_order N src sched (s : state) :
  pinv N src sched s → (futures s).*1 `prefix_of` requests_of src.
Proof.
  intros I. destruct (pi_source _ _ _ _ _ I) as (pre & -> & -> & _).
  unfold requests_of. rewrite omap_app. by eexists.
Qed.

Lemma preads_yielded N src sched (s : state) :
  pinv N src sched s → (yielded s).*1 `prefix_of` result_reads s.
Proof.
  intros I. destruct (pi_reads _ _ _ _ _ I) as [->|(i & e & _ & ->)]; [done|].
  by eexists.
Qed.

(** *** One transition dispatches at most one request *)


(** *** A generator that has ended stays ended *)

Lemma pended_step e (s s' : state) st :
  gen s = PEnd st → pstep e s = Some s' →
  gen s' = PEnd st ∧ yielded s' = yielded s ∧ result_reads s' = result_reads s ∧
  length (futures s') = length (futures s).
Proof.
  intros Hg H. destruct e as [| | |i o]; simpl in H; try done.
  - unfold stream_requests_with_prefetch in H. by rewrite Hg in H.
  - unfold complete in H. destruct (futures s !! i) as [[r [o'|]]|]; try done.
    injection H as <-. simpl. by rewrite length_insert.
Qed.

Lemma pended_run sched (s s' : state) st :
  gen s = PEnd st → prun sched s = Some s' →
  gen s' = PEnd st ∧ yielded s' = yielded s ∧ result_reads s' = result_reads s ∧
  length (futures s') = length (futures s).
Proof.
  revert s. induction sched as [|e sched IH]; intros s Hg; simpl.
  - by intros [= <-].
  - destruct (pstep e s) as [s1|] eqn:He; [|done]. simpl. intros Hr.
    destruct (pended_step _ _ _ _ Hg He) as (Hg1 & <- & <- & <-). by apply IH.
Qed.

(** *** Executions without failures *)

Lemma alive_run N src sched (s : state) :
  prun sched (init N src) = Some s → Forall is_item src → Forall succeeds sched →
  alive s.
Proof.
  intros Hr Hsrc Hok. pose proof (pinv_run _ _ _ _ Hr) as I.
  unfold alive. destruct (gen s) as [| | | | |[|[e|k|]]] eqn:Hg; try done.
  - destruct (pi_failure _ _ _ _ _ I e Hg) as (i & r & _ & Hi).
    apply (poutcome_run _ _ _ _ Hr) in Hi.
    rewrite Forall_forall in Hok. by apply Hok in Hi.
  - by apply (pi_nokeyerror _ _ _ _ _ I) in Hg.
  - by apply (pi_fault _ _ _ _ _ I) in Hg.
Qed.

(** *** Reading outcomes

    The only place where the generator reads an outcome is
    [res = await r], on the future at the head of [as_completed]. *)

Lemma step_reads e (s s' : state) :
  pstep e s = Some s' →
  result_reads s' = result_reads s ∨
  ∃ j d, (gen s = PWait ∨ gen s = PShortWait) ∧ ac_done s = j :: d ∧
         result_reads s' = result_reads s ++ [j].
Proof.
  intros H.
  assert (Henv : ∀ (x y : state), env x = env y → result_reads x = result_reads y).
  { unfold env. by intros x y [= _ _ _ _ -> _ _]. }
  destruct e as [| | |i o]; simpl in H; try done.
  - unfold stream_requests_with_prefetch in H.
    destruct (gen s) as [n c t| | | | |] eqn:Hg; [| | | | |done].
    + left. unfold iterate_requests in H.
      destruct (request_iterator s) as [|[r0|] rest] eqn:Hit; simpl in H.
      * injection H as <-.
        destruct (resume_env t {| s with is_req_empty := true |}) as [He _].
        by rewrite (Henv _ _ He).
      * case_decide; injection H as <-; [|by destruct t].
        match goal with |- result_reads (match t with
                                         | ToPrefetch => after_fill _ _ _ ?x
                                         | _ => _ end) = _ =>
          destruct (resume_env t x) as [He _]; rewrite (Henv _ _ He) end.
        by destruct t.
      * by injection H as <-.
    + right. unfold await_yield in H. destruct (ac_done s) as [|j d]; [done|].
      exists j, d.
      destruct (futures s !! j) as [[r0 [[v|e]|]]|]; simplify_eq; auto.
    + left. injection H as <-. destruct (short_next_env s) as [He _].
      by rewrite (Henv _ _ He).
    + right. unfold await_yield in H. destruct (ac_done s) as [|j d]; [done|].
      exists j, d.
      destruct (futures s !! j) as [[r0 [[v|e]|]]|]; simplify_eq; auto.
    + left. destruct (is_req_empty s); injection H as <-; [|done].
      destruct (for_next_env s) as [He _]. by rewrite (Henv _ _ He).
  - left. unfold complete in H.
    destruct (futures s !! i) as [[r [o'|]]|]; by simplify_eq.
Qed.

Lemma preads_nodup N src sched (s : state) :
  prun sched (init N src) = Some s → NoDup (result_reads s).
Proof.
  revert s. induction sched as [|e sched IH] using rev_ind; intros s.
  - intros [= <-]. constructor.
  - rewrite prun_snoc.
    destruct (prun sched (init N src)) as [s0|] eqn:Hr; [|done].
    simpl. intros Hs.
    destruct (step_reads _ _ _ Hs) as [->|(j & d & Hg & Hd & ->)]; [by apply IH|].
    pose proof (pinv_run _ _ _ _ Hr) as I.
    assert (Ha : alive s0).
    { unfold alive. by destruct Hg as [->| ->]. }
    pose proof (pi_partition _ _ _ _ _ I Ha) as Hp.
    assert (Hnd : NoDup (result_reads s0 ++ active s0 ++ onrecv_task s0)).
    { rewrite <- Hp. apply NoDup_seq. }
    assert (Hact : active s0 = (j :: d) ++ ac_todo s0).
    { unfold active. rewrite <- Hd. by destruct Hg as [->| ->]. }
    rewrite Hact in Hnd. apply NoDup_app in Hnd as (Hn1 & Hn2 & _).
    apply NoDup_app. split; [done|]. split; [|apply NoDup_singleton].
    intros x Hx Hj. apply list_elem_of_singleton in Hj as ->.
    apply (Hn2 _ Hx). set_solver.
Qed.
(** *** Executions that start in a reachable state *)

Lemma prun_reach N src sched1 sched2 (s1 s2 : state) :
  prun sched1 (init N src) = Some s1 → prun sched2 s1 = Some s2 →
  prun (sched1 ++ sched2) (init N src) = Some s2.
Proof. intros H1 H2. by rewrite prun_app, H1. Qed.

Lemma consumer_alive (s s' : state) :
  stream_requests_with_prefetch handle_result debug_enabled has_msg_counters set_rank s
  = Some s' → alive s.
Proof.
  unfold alive, stream_requests_with_prefetch. by destruct (gen s).
Qed.

Lemma fill_or_not (s : state) :
  (∃ n c, gen s = PIter n c ToPrefetch) ∨ (∀ n c, gen s ≠ PIter n c ToPrefetch).
Proof. destruct (gen s) as [n c [|]| | | | |st]; eauto; by right. Qed.

Lemma calls_step N src sched e (s s' : state) :
  pinv N src sched s → pstep e s = Some s' →
  as_completed_calls s ≤ as_completed_calls s'.
Proof.
  intros I H. destruct e as [| | |i o]; simpl in H; try done.
  - destruct (fill_or_not s) as [(n & c & Hg)|Hnf].
    + destruct (pi_fill _ _ _ _ _ I _ _ Hg) as (_ & _ & _ & _ & Ho & _).
      destruct (fill_cases _ _ _ _ H Hg Ho) as (_ & _ & _ & [[-> _]|[-> _]]); lia.
    + destruct (consumer_cases _ _ H Hnf)
        as [(j & d & _ & _ & _ & _ & _ & _ & _ & -> & _)
           |[(_ & _ & _ & _ & -> & _)
           |[(_ & _ & _ & _ & _ & _ & _ & -> & _)
           |(_ & _ & -> & _)]]]; lia.
  - unfold complete in H. destruct (futures s !! i) as [[r [o'|]]|]; by simplify_eq.
Qed.

Lemma calls_run N src sched1 sched2 (s1 s2 : state) :
  prun sched1 (init N src) = Some s1 → prun sched2 s1 = Some s2 →
  as_completed_calls s1 ≤ as_completed_calls s2.
Proof.
  intros H1. revert s2. induction sched2 as [|e sched2 IH] using rev_ind; intros s2.
  - by intros [= <-].
  - rewrite prun_snoc. destruct (prun sched2 s1) as [s|] eqn:Hr; [|done].
    simpl. intros Hs. specialize (IH s eq_refl).
    pose proof (pinv_run _ _ _ _ (prun_reach _ _ _ _ _ _ H1 Hr)) as I.
    pose proof (calls_step _ _ _ _ _ _ I Hs). lia.
Qed.

Lemma calls_fill N src sched (s : state) :
  pinv N src sched s → 1 ≤ as_completed_calls s →
  ∀ n c, gen s ≠ PIter n c ToPrefetch.
Proof.
  intros I Hc n c Hg.
  destruct (pi_fill _ _ _ _ _ I _ _ Hg) as (_ & _ & _ & _ & _ & _ & _ & _ & Hz & _).
  lia.
Qed.

(** *** The refill buffer

    A future that waits in [onrecv_task] has not been read. *)

Lemma refill_unread N src sched (s : state) i :
  prun sched (init N src) = Some s → i ∈ onrecv_task s → i ∉ result_reads s.
Proof.
  revert s. induction sched as [|e sched IH] using rev_ind; intros s.
  - intros [= <-]. simpl. by intros ?%elem_of_nil.
  - rewrite prun_snoc. destruct (prun sched (init N src)) as [s0|] eqn:Hr; [|done].
    simpl. intros Hs Hi. specialize (IH s0 eq_refl).
    pose proof (pinv_run _ _ _ _ Hr) as I.
    destruct e as [| | |j o]; simpl in Hs; try done.
    + pose proof (consumer_alive _ _ Hs) as Ha.
      assert (Hnd : NoDup (result_reads s0 ++ active s0 ++ onrecv_task s0)).
      { rewrite <- (pi_partition _ _ _ _ _ I Ha). apply NoDup_seq. }
      destruct (fill_or_not s0) as [(n & c & Hg)|Hnf].
      { destruct (pi_fill _ _ _ _ _ I _ _ Hg) as (_ & _ & _ & _ & Ho & _).
        destruct (fill_cases _ _ _ _ Hs Hg Ho) as (_ & Ho' & _).
        rewrite Ho' in Hi. by apply elem_of_nil in Hi. }
      destruct (consumer_cases _ _ Hs Hnf)
        as [(j & d & Hg & Hd & _ & Hr' & _ & Ho' & _)
           |[(Hr' & _ & _ & _ & _ & _ & Ho')
           |[(_ & _ & _ & _ & _ & _ & Ho' & _)
           |(_ & _ & _ & Ho' & _)]]].
      * rewrite Ho' in Hi. rewrite Hr'. intros [Hx|Hx%list_elem_of_singleton]%elem_of_app.
        { by apply IH. }
        subst j. apply NoDup_app in Hnd as (_ & _ & Hnd).
        apply NoDup_app in Hnd as (_ & Hnd & _). apply (Hnd i); [|done].
        unfold active. rewrite Hd. destruct Hg as [->| ->]; left.
      * rewrite Hr'. destruct Ho' as [Ho'|Ho']; rewrite Ho' in Hi; [by apply IH|].
        apply elem_of_app in Hi as [Hi|Hi%list_elem_of_singleton]; [by apply IH|].
        subst i. intros Hx.
        assert (length (futures s0) ∈ seq 0 (length (futures s0))) as Hs'
          by (rewrite (pi_partition _ _ _ _ _ I Ha), elem_of_app; by left).
        apply elem_of_seq in Hs'. lia.
      * rewrite Ho' in Hi. by apply elem_of_nil in Hi.
      * rewrite Ho' in Hi. by apply elem_of_nil in Hi.
    + unfold complete in Hs.
      destruct (futures s0 !! j) as [[r [o'|]]|]; simplify_eq. simpl in *. by apply IH.
Qed.

(** *** The order in which one call of [as_completed] hands out futures

    While the generator is in one call of [as_completed], the futures it
    has read followed by those that wait in the queue only grow at the
    end, by the futures of the window as they complete. *)

Lemma handout_step N src sched (s s' : state) e W :
  pinv N src sched s → window_ok s → pstep e s = Some s' →
  1 ≤ as_completed_calls s → as_completed_calls s' = as_completed_calls s →
  prefetch_task s = W ∨ (ac_todo s = [] ∧ ∀ i, i ∈ W → i ∈ completed s) →
  result_reads s' ++ ac_done s'
  = (result_reads s ++ ac_done s) ++ filter (λ i, i ∈ W) (option_list (completion e)) ∧
  (prefetch_task s' = W ∨ (ac_todo s' = [] ∧ ∀ i, i ∈ W → i ∈ completed s')).
Proof.
  intros I [_ Hw] H Hc Hsame HW. destruct (Hw Hc) as [_ Hw2].
  destruct e as [| | |i o]; simpl in H; try done.
  - simpl. rewrite app_nil_r.
    pose proof (calls_fill _ _ _ _ I Hc) as Hnf.
    destruct (consumer_cases _ _ H Hnf)
      as [(j & d & _ & Hd & Hd' & Hr' & Hp' & Ho' & Ht' & Hc' & Hcs')
         |[(Hr' & Hp' & Hd' & Ht' & Hc' & Hcs' & Ho')
         |[(Hrem & Ho & Hr' & Hp' & Hd' & Ht' & Ho' & Hc' & Hcs' & Hg')
         |(Hrem & Hr' & Hc' & _)]]].
    + rewrite Hr', Hd', Hd, Hp', Ht', Hcs', <- app_assoc. done.
    + rewrite Hr', Hd', Hp', Ht', Hcs'. done.
    + apply app_eq_nil in Hrem as [Hd Ht].
      rewrite Hr', Hd', Hd, Ht', Hcs'. split; [done|]. right. split; [done|].
      destruct HW as [<-|[_ HW]]; [|done].
      intros i Hi. destruct (decide (i ∈ completed s)) as [|Hn]; [done|].
      assert (i ∈ ac_todo s) as Hx by (rewrite Hw2; by apply list_elem_of_filter).
      rewrite Ht in Hx. by apply elem_of_nil in Hx.
    + lia.
  - unfold complete in H. destruct (futures s !! i) as [[r [o'|]]|] eqn:Hi; simplify_eq.
    assert (Hnew : i ∉ completed s).
    { intros (r' & o' & H)%(pi_done _ _ _ _ _ I). congruence. }
    simpl. destruct HW as [<-|[Ht HW]].
    + split; [|by left]. case_decide as Hin.
      * rewrite filter_cons_True; [by rewrite app_assoc|].
        rewrite Hw2 in Hin. by apply list_elem_of_filter in Hin as [_ ?].
      * rewrite filter_cons_False; [by rewrite app_nil_r|].
        intros Hp. apply Hin. rewrite Hw2. by apply list_elem_of_filter.
    + rewrite Ht. rewrite decide_False by (by intros ?%elem_of_nil).
      rewrite filter_cons_False by (intros Hp; by apply Hnew, HW).
      rewrite app_nil_r. split; [done|]. right. split; [done|].
      intros j Hj. rewrite elem_of_app. left. by apply HW.
Qed.

Lemma completions_snoc_filter (sched : list (event Raw)) e (W : list nat) :
  filter (λ i, i ∈ W) (completions (sched ++ [e]))
  = filter (λ i, i ∈ W) (completions sched)
    ++ filter (λ i, i ∈ W) (option_list (completion e)).
Proof. by rewrite completions_snoc, filter_app. Qed.

Lemma handout_run N src sched1 sched2 (s1 s2 : state) :
  prun sched1 (init N src) = Some s1 → 1 ≤ as_completed_calls s1 →
  prun sched2 s1 = Some s2 → as_completed_calls s2 = as_completed_calls s1 →
  result_reads s2 ++ ac_done s2
  = result_reads s1 ++ ac_done s1
    ++ filter (λ i, i ∈ prefetch_task s1) (completions sched2) ∧
  (prefetch_task s2 = prefetch_task s1 ∨
   (ac_todo s2 = [] ∧ ∀ i, i ∈ prefetch_task s1 → i ∈ completed s2)).
Proof.
  intros H1 Hc. revert s2.
  induction sched2 as [|e sched2 IH] using rev_ind; intros s2.
  - intros [= <-] _. simpl. rewrite app_nil_r. auto.
  - rewrite prun_snoc. destruct (prun sched2 s1) as [s|] eqn:Hr; [|done].
    simpl. intros Hs Hsame.
    pose proof (prun_reach _ _ _ _ _ _ H1 Hr) as Hr0.
    pose proof (pinv_run _ _ _ _ Hr0) as I.
    pose proof (calls_run _ _ _ _ _ _ H1 Hr) as Hle.
    pose proof (calls_step _ _ _ _ _ _ I Hs) as Hle'.
    assert (Hcs : as_completed_calls s = as_completed_calls s1) by lia.
    destruct (IH s eq_refl Hcs) as [IH1 IH2].
    destruct (handout_step _ _ _ _ _ e (prefetch_task s1) I
                (window_run _ _ _ _ Hr0) Hs) as [Hh1 Hh2]; [lia|lia|done|].
    split; [|done].
    rewrite Hh1, IH1, completions_snoc_filter, <- !app_assoc. done.
Qed.

(** The step that calls [as_completed]: nothing is read in it, and the
    queue starts with the futures of the window that are already done, in
    the order of the set. *)

Lemma call_step N src sched e (s s' : state) :
  pinv N src sched s → pstep e s = Some s' →
  as_completed_calls s' = S (as_completed_calls s) →
  result_reads s' = result_reads s ∧
  (yielded s).*1 = result_reads s ∧
  ac_done s' = set_order set_rank (as_completed_calls s)
                 (filter (λ i, i ∈ prefetch_task s') (completed s)).
Proof.
  intros I H Hc. destruct e as [| | |i o]; simpl in H; try done.
  - pose proof (consumer_alive _ _ H) as Ha.
    assert (Hy : (yielded s).*1 = result_reads s).
    { destruct (pi_reads _ _ _ _ _ I) as [->|(i & e & Hg & _)]; [done|].
      unfold alive in Ha. by rewrite Hg in Ha. }
    destruct (fill_or_not s) as [(n & c & Hg)|Hnf].
    + destruct (pi_fill _ _ _ _ _ I _ _ Hg) as (_ & _ & _ & _ & Ho & _).
      destruct (fill_cases _ _ _ _ H Hg Ho)
        as (Hr' & _ & _ & [[Hc' _]|(_ & Hd' & _)]); [lia|done].
    + destruct (consumer_cases _ _ H Hnf)
        as [(j & d & _ & _ & _ & _ & _ & _ & _ & Hc' & _)
           |[(_ & _ & _ & _ & Hc' & _)
           |[(_ & _ & _ & _ & _ & _ & _ & Hc' & _)
           |(_ & Hr' & _ & _ & _ & _ & Hd' & _)]]]; try lia.
      done.
  - unfold complete in H. destruct (futures s !! i) as [[r [o'|]]|]; simplify_eq.
    simpl in Hc. lia.
Qed.

Lemma handout_order N src sched0 e sched2 (s0 s1 s2 : state) :
  prun sched0 (init N src) = Some s0 → pstep e s0 = Some s1 →
  prun sched2 s1 = Some s2 →
  as_completed_calls s1 = S (as_completed_calls s0) →
  as_completed_calls s2 = as_completed_calls s1 →
  result_reads s2 ++ ac_done s2
  = (yielded s0).*1
    ++ set_order set_rank (as_completed_calls s0)
         (filter (λ i, i ∈ prefetch_task s1) (completed s0))
    ++ filter (λ i, i ∈ prefetch_task s1) (completions sched2).
Proof.
  intros H0 He H2 Hc Hsame.
  pose proof (pinv_run _ _ _ _ H0) as I.
  destruct (call_step _ _ _ _ _ _ I He Hc) as (Hr & Hy & Hd).
  assert (H1 : prun (sched0 ++ [e]) (init N src) = Some s1).
  { by rewrite prun_snoc, H0. }
  destruct (handout_run _ _ _ _ _ _ H1 ltac:(lia) H2 Hsame) as [Hh _].
  by rewrite Hh, Hr, Hd, Hy.
Qed.

(** *** A refill is read after the window

    A future that waits in [onrecv_task] is read only after every future
    of the window of that moment has been read. *)

Lemma refill_after_window N src sched1 sched2 (s1 s2 : state) i :
  prun sched1 (init N src) = Some s1 → i ∈ onrecv_task s1 →
  prun sched2 s1 = Some s2 →
  (i ∈ onrecv_task s2 ∧ prefetch_task s2 = prefetch_task s1 ∧ i ∉ result_reads s2) ∨
  (∃ l1 l2, result_reads s2 = l1 ++ l2 ∧ (i ∉ l1) ∧
            ∀ j, j ∈ prefetch_task s1 → j ∈ l1).
Proof.
  intros H1 Hi. revert s2.
  induction sched2 as [|e sched2 IH] using rev_ind; intros s2.
  - intros [= <-]. left. split; [done|]. split; [done|]. by eapply refill_unread.
  - rewrite prun_snoc. destruct (prun sched2 s1) as [s|] eqn:Hr; [|done].
    simpl. intros Hs.
    destruct (IH s eq_refl) as [(Ho & Hp & Hn)|(l1 & l2 & Hl & Hn & Hall)].
    2:{ right. destruct (step_reads _ _ _ Hs) as [->|(j & d & _ & _ & ->)].
        - eauto.
        - exists l1, (l2 ++ [j]). rewrite Hl, <- app_assoc. done. }
    pose proof (prun_reach _ _ _ _ _ _ H1 Hr) as Hr0.
    pose proof (pinv_run _ _ _ _ Hr0) as I.
    assert (Hr1 : prun ((sched1 ++ sched2) ++ [e]) (init N src) = Some s2).
    { by rewrite prun_snoc, Hr0. }
    destruct e as [| | |j o]; simpl in Hs; try done.
    + destruct (fill_or_not s) as [(n & c & Hg)|Hnf].
      { destruct (pi_fill _ _ _ _ _ I _ _ Hg) as (_ & _ & _ & _ & Ho0 & _).
        rewrite Ho0 in Ho. by apply elem_of_nil in Ho. }
      pose proof (consumer_alive _ _ Hs) as Ha.
      assert (Hc : 1 ≤ as_completed_calls s).
      { destruct (window_run _ _ _ _ Hr0) as [Hw0 _].
        destruct (as_completed_calls s) eqn:E; [|lia].
        destruct (Hw0 eq_refl) as [Ho0 _].
        rewrite Ho0 in Ho. by apply elem_of_nil in Ho. }
      destruct (window_run _ _ _ _ Hr0) as [_ Hw]. destruct (Hw Hc) as [Hw1 Hw2].
      destruct (consumer_cases _ _ Hs Hnf)
        as [(j & d & _ & _ & _ & Hr' & Hp' & Ho' & _)
           |[(Hr' & Hp' & _ & _ & _ & _ & Ho')
           |[(_ & Ho0 & _)
           |(Hrem & Hr' & _)]]].
      * left. rewrite Ho', Hp'. split; [done|]. split; [done|].
        apply (refill_unread _ _ _ _ _ Hr1). by rewrite Ho'.
      * left. rewrite Hp'. split; [|split; [done|]].
        -- destruct Ho' as [->| ->]; [done|]. rewrite elem_of_app. by left.
        -- by rewrite Hr'.
      * rewrite Ho0 in Ho. by apply elem_of_nil in Ho.
      * right. exists (result_reads s), []. rewrite Hr', app_nil_r.
        split; [done|]. split; [done|].
        intros j Hj. rewrite <- Hp in Hj.
        apply app_eq_nil in Hrem as [Hd Ht]. rewrite Hd, app_nil_r in Hw1.
        assert (j ∈ completed s) as Hjc.
        { destruct (decide (j ∈ completed s)) as [|Hnc]; [done|].
          assert (j ∈ ac_todo s) as Hx by (rewrite Hw2; by apply list_elem_of_filter).
          rewrite Ht in Hx. by apply elem_of_nil in Hx. }
        assert (j ∈ filter (λ i, i ∈ prefetch_task s) (result_reads s)) as Hx.
        { rewrite Hw1. by apply list_elem_of_filter. }
        by apply list_elem_of_filter in Hx as [_ ?].
    + unfold complete in Hs.
      destruct (futures s !! j) as [[r [o'|]]|]; simplify_eq. simpl. by left.
Qed.

(** *** Failures *)

Lemma praised_last_read N src sched (s : state) e :
  pinv N src sched s → gen s = PEnd (Raised (OpFailure e)) →
  ∃ i r, futures s !! i = Some (r, Some (Failed e)) ∧
         result_reads s = (yielded s).*1 ++ [i].
Proof.
  intros I Hg. destruct (pi_failure _ _ _ _ _ I e Hg) as (i & r & Hlast & Hi).
  exists i, r. split; [done|].
  destruct (pi_reads _ _ _ _ _ I) as [Heq|(i' & e' & _ & Hrd)].
  - apply last_Some_elem_of in Hlast. rewrite <- Heq in Hlast.
    apply list_elem_of_fmap in Hlast as ([j v] & -> & Hjv).
    destruct (pi_vals _ _ _ _ _ I j v Hjv) as (r' & raw & Hj & _).
    simpl in Hi. congruence.
  - rewrite Hrd, last_snoc in Hlast. by injection Hlast as ->.
Qed.

Lemma pfailure_read N src sched (s : state) i r e :
  pinv N src sched s → futures s !! i = Some (r, Some (Failed e)) →
  i ∈ result_reads s →
  gen s = PEnd (Raised (OpFailure e)) ∧ result_reads s = (yielded s).*1 ++ [i].
Proof.
  intros I Hi Hin.
  assert (Hny : i ∉ (yielded s).*1).
  { intros ([j v] & -> & Hjv)%list_elem_of_fmap.
    destruct (pi_vals _ _ _ _ _ I j v Hjv) as (r' & raw & Hj & _).
    simpl in Hi. congruence. }
  destruct (pi_reads _ _ _ _ _ I) as [Heq|(i' & e' & Hg & Hrd)].
  - by rewrite Heq in Hny.
  - rewrite Hrd in Hin.
    apply elem_of_app in Hin as [?|Hin%list_elem_of_singleton]; [done|]. subst i'.
    destruct (praised_last_read _ _ _ _ _ I Hg) as (i' & r' & Hi' & Hrd').
    rewrite Hrd in Hrd'. apply app_inj_tail in Hrd' as [_ <-].
    assert (e' = e) as -> by congruence. done.
Qed.

(** At the end of an execution in which an operation has failed, the
    generator has raised the failure of an operation. *)
Lemma pstuck_failure N src sched (s : state) i r e :
  pinv N src sched s →
  stuck handle_result debug_enabled has_msg_counters set_rank s →
  Forall is_item src →
  futures s !! i = Some (r, Some (Failed e)) →
  ∃ i' r' e', gen s = PEnd (Raised (OpFailure e')) ∧
              futures s !! i' = Some (r', Some (Failed e')) ∧
              result_reads s = (yielded s).*1 ++ [i'].
Proof.
  intros I Hst Hsrc Hi.
  destruct (stuck_ended _ _ _ _ I Hst) as ([|[e'|k|]] & Hg).
  - exfalso. destruct (finished_all_read _ _ _ _ I Hg) as (_ & _ & Hperm).
    assert (i ∈ (yielded s).*1) as Hin.
    { rewrite Hperm. apply elem_of_seq. apply lookup_lt_Some in Hi. lia. }
    apply list_elem_of_fmap in Hin as ([j v] & -> & Hjv).
    destruct (pi_vals _ _ _ _ _ I j v Hjv) as (r' & raw & Hj & _).
    simpl in Hi. congruence.
  - destruct (praised_last_read _ _ _ _ _ I Hg) as (i' & r' & H1 & H2). eauto 10.
  - by apply (pi_nokeyerror _ _ _ _ _ I) in Hg.
  - by apply (pi_fault _ _ _ _ _ I) in Hg.
Qed.

(** *** One window for the whole input

    When the whole input fits into the first window, [as_completed] is
    called once, on all the futures: those that are done by then are
    handed out in the order of the set, the others as they complete. *)




(** A refill is yielded only after every future of the window of that
    moment has been yielded. *)
Lemma refill_yielded_after_window N src sched1 sched2 (s1 s2 : state) i :
  prun sched1 (init N src) = Some s1 → i ∈ onrecv_task s1 →
  prun sched2 s1 = Some s2 → i ∈ (yielded s2).*1 →
  ∃ l1 l2, (yielded s2).*1 = l1 ++ i :: l2 ∧
           ∀ j, j ∈ prefetch_task s1 → j ∈ l1.
Proof.
  intros H1 Hi H2 Hy.
  pose proof (pinv_run _ _ _ _ (prun_reach _ _ _ _ _ _ H1 H2)) as I.
  destruct (preads_yielded _ _ _ _ I) as [k Hk].
  destruct (refill_after_window _ _ _ _ _ _ _ H1 Hi H2)
    as [(_ & _ & Hn)|(l1 & l2 & Hl & Hn & Hall)].
  - exfalso. apply Hn. rewrite Hk, elem_of_app. by left.
  - apply list_elem_of_split in Hy as (y1 & y2 & Hy).
    exists y1, y2. split; [done|]. intros j Hj. specialize (Hall j Hj).
    rewrite Hk, Hy, <- app_assoc in Hl.
    apply app_eq_inv in Hl as [(k' & Hy1 & Hl2)|(k' & Hl1 & Hl2)].
    + rewrite Hy1, elem_of_app. by left.
    + destruct k' as [|x k'].
      * by rewrite Hl1, app_nil_r in Hall.
      * simpl in Hl2. injection Hl2 as <- _. exfalso. apply Hn.
        rewrite Hl1, elem_of_app. right. left.
Qed.
End PrefetchFacts.

(** * The streaming contract *)

(** ** Auxiliary facts *)

Lemma unbounded_fuel_init {Raw Result : Type} (src : list src_item) :
  Unbounded.fuel_left (Unbounded.init (Raw:=Raw) (Result:=Result) src)
  = 3 + 5 * length src.
Proof. unfold Unbounded.fuel_left. simpl. lia. Qed.

Lemma cap_unyielded {Raw Result : Type} (N : nat) (s : @Prefetch.state Raw Result) :
  Prefetch.cap_ok N s → length (Prefetch.futures s) ≤ N + length (Prefetch.yielded s).
Proof. unfold Prefetch.cap_ok. destruct (Prefetch.gen s) as [n c []| | | | |]; lia. Qed.

Lemma prefetch_empty_runs {Raw Result : Type} (handle_result : Raw → Result)
    (debug_enabled has_msg_counters : bool)
    (set_rank : nat → nat → nat) (N : nat)
    (sched : list (event Raw)) (s : Prefetch.state) :
  Prefetch.run handle_result debug_enabled has_msg_counters set_rank sched (Prefetch.init N []) = Some s →
  sched = [] ∧ s = Prefetch.init N [] ∨
  sched = [Consumer] ∧
  Prefetch.step handle_result debug_enabled has_msg_counters set_rank Consumer (Prefetch.init N [])
  = Some s.
Proof.
  destruct sched as [|e sched]; simpl.
  - intros [= <-]. by left.
  - destruct e as [| | |i o]; simpl; try done.
    destruct sched as [|e' sched]; simpl.
    + intros [= <-]. by right.
    + destruct e' as [| | |i o]; simpl; done.
Qed.

(** ** C1: the unbounded engine yields every result *)

(** C1, amended.  Let the unbounded engine [_stream_requests] run on a
    request iterator that hands out [reqs], whose request identifiers are
    pairwise distinct, and then ends, and let every operation that completes
    complete successfully.  Then every execution has at most
    [3 + 5 * length reqs] transitions and can be continued, with successful
    completions only, until nothing can run any more; and once nothing can
    run, the generator has returned and has yielded exactly
    [length reqs] results: one for each dispatched request, each the
    handled outcome of that request's operation.  For [reqs = []] these are
    zero results. *)
Theorem unbounded_yields_every_result {Raw Result : Type} `{!Inhabited Raw}
    (handle_result : Raw → Result) (reqs : list Request)
    (sched : list (event Raw)) (s : Unbounded.state) :
  NoDup (request_id <$> reqs) →
  Forall succeeds sched →
  Unbounded.run handle_result sched (Unbounded.init (Item <$> reqs)) = Some s →
  length sched ≤ 3 + 5 * length reqs ∧
  (∃ sched' s', Unbounded.run handle_result sched' s = Some s' ∧
                Forall succeeds sched' ∧ Unbounded.stuck handle_result s') ∧
  (Unbounded.stuck handle_result s →
     Unbounded.gen s = Unbounded.GEnd Finished ∧
     length (Unbounded.yielded s) = length reqs ∧
     (Unbounded.yielded s).*1 ≡ₚ seq 0 (length reqs) ∧
     ∀ i v, (i, v) ∈ Unbounded.yielded s →
       ∃ r raw, reqs !! i = Some r ∧ Complete i (Ok raw) ∈ sched ∧
                v = handle_result raw).
Proof.
  intros Hnd Hok Hr. pose proof (inv_run _ _ _ _ Hr) as I.
  split; [|split].
  - pose proof (fuel_left_run _ _ _ _ Hr) as Hf.
    rewrite unbounded_fuel_init, length_fmap in Hf. lia.
  - destruct (drain_spec handle_result (Unbounded.fuel_left s) s) as (H1 & H2 & H3);
      [done|]. eauto.
  - intros Hst.
    assert (Hids : NoDup (ids_of (Item <$> reqs))) by by rewrite ids_of_Item.
    assert (Hg : Unbounded.gen s = Unbounded.GEnd Finished).
    { eapply stuck_finished; eauto using Forall_is_item, all_ok. }
    destruct (finished_all_yielded _ _ _ _ I Hg) as (Hlen & Hperm & _);
      [apply Forall_is_item|done|].
    rewrite length_fmap in Hlen, Hperm.
    split; [done|]. split.
    { by rewrite <- (length_fmap fst), Hperm, length_seq. }
    split; [done|].
    intros i v Hiv. destruct (Unbounded.inv_vals _ _ _ _ I i v Hiv) as (r & raw & Hi & ->).
    exists r, raw. split; [|split; [by eapply outcome_run|done]].
    pose proof (dispatch_order _ _ _ _ I) as Hpre. rewrite requests_of_Item in Hpre.
    eapply prefix_lookup_Some; [|done]. by rewrite list_lookup_fmap, Hi.
Qed.

(** Scenario A is such an execution: it ends with three results. *)
Lemma unbounded_yields_every_result_scenario_A :
  ∃ s, Unbounded.run echo scenario_A (Unbounded.init (Item <$> [req_A; req_B; req_C]))
       = Some s ∧
       Unbounded.stuck echo s ∧ length (Unbounded.yielded s) = 3.
Proof.
  destruct (Unbounded.run echo scenario_A (Unbounded.init (Item <$> [req_A; req_B; req_C])))
    as [s|] eqn:Hr; [|by vm_compute in Hr].
  exists s. split; [reflexivity|].
  assert (Hst : Unbounded.stuck echo s).
  { apply (next_event_None echo). vm_compute in Hr. injection Hr as <-.
    vm_compute. reflexivity. }
  split; [exact Hst|].
  destruct (unbounded_yields_every_result echo [req_A; req_B; req_C] scenario_A s)
    as (_ & _ & H).
  - apply (bool_decide_unpack _). vm_compute. exact I.
  - repeat constructor.
  - exact Hr.
  - destruct (H Hst) as (_ & Hlen & _). exact Hlen.
Defined.

(** C1 as stated fails: the identifiers of A and B are distinct and the
    iterator does not raise, but the operation of A fails; the generator
    raises that failure and ends without having yielded anything, although
    two requests were dispatched and the operation of B succeeded. *)
Lemma unbounded_failure_loses_results :
  ∃ s, Unbounded.run echo unbounded_A_fails (Unbounded.init (Item <$> [req_A; req_B]))
       = Some s ∧
       NoDup (request_id <$> [req_A; req_B]) ∧
       Unbounded.stuck echo s ∧
       Unbounded.gen s = Unbounded.GEnd (Raised (OpFailure "boom")) ∧
       length (Unbounded.futures s) = 2 ∧
       Unbounded.yielded s = [].
Proof.
  eexists. split; [vm_compute; reflexivity|].
  split; [apply (bool_decide_unpack _); vm_compute; exact I|].
  split; [apply (next_event_None echo); vm_compute; reflexivity|].
  repeat split.
Qed.

(** ** C2: the prefetch engine *)




(** ** C3: a failing operation *)

(** C3, amended.  In either engine a failure is raised where the outcome
    of the failed operation is read: once the generator has read the outcome
    of an operation that completed with the error [e], it has raised [e],
    this outcome is the last one it has read, and every outcome read before
    was yielded as a result (in the unbounded engine the failure comes at
    its place in completion order).  Every execution can be continued to its
    end; if the request iterator does not raise (and, for the unbounded
    engine, the request identifiers are pairwise distinct), then at the end
    of an execution in which an operation has failed the generator has
    raised the error of a failed operation, whose outcome is the last one
    read.  Conversely, when the generator has raised [e], the operation
    whose outcome was read last has failed with [e], and every result
    yielded is the handled successful outcome of its operation.  The stream
    ends there: whatever happens afterwards, nothing more is yielded, and
    the prefetch engine dispatches nothing more. *)
Theorem operation_failure_ends_stream {Raw Result : Type} `{!Inhabited Raw}
    (handle_result : Raw → Result) (debug_enabled has_msg_counters : bool)
    (set_rank : nat → nat → nat) :
  (∀ src sched (s : Unbounded.state),
     Unbounded.run handle_result sched (Unbounded.init src) = Some s →
     (∀ i r e,
        Unbounded.futures s !! i = Some (r, Some (Failed e)) →
        i ∈ Unbounded.result_reads s →
        Unbounded.gen s = Unbounded.GEnd (Raised (OpFailure e)) ∧
        Unbounded.result_reads s = (Unbounded.yielded s).*1 ++ [i] ∧
        (Unbounded.yielded s).*1 ++ [i] `prefix_of` completions sched) ∧
     (∃ sched' s', Unbounded.run handle_result sched' s = Some s' ∧
                   Unbounded.stuck handle_result s') ∧
     (Forall is_item src → NoDup (ids_of src) → Unbounded.stuck handle_result s →
      ∀ i r e,
        Unbounded.futures s !! i = Some (r, Some (Failed e)) →
        ∃ i' r' e',
          Unbounded.gen s = Unbounded.GEnd (Raised (OpFailure e')) ∧
          Unbounded.futures s !! i' = Some (r', Some (Failed e')) ∧
          Unbounded.result_reads s = (Unbounded.yielded s).*1 ++ [i']) ∧
     (∀ e, Unbounded.gen s = Unbounded.GEnd (Raised (OpFailure e)) →
        (∃ i r, Unbounded.futures s !! i = Some (r, Some (Failed e)) ∧
                Unbounded.result_reads s = (Unbounded.yielded s).*1 ++ [i] ∧
                (Unbounded.yielded s).*1 ++ [i] `prefix_of` completions sched) ∧
        (∀ j v, (j, v) ∈ Unbounded.yielded s →
           ∃ r raw, Unbounded.futures s !! j = Some (r, Some (Ok raw)) ∧
                    v = handle_result raw) ∧
        (∀ sched' s', Unbounded.run handle_result sched' s = Some s' →
           Unbounded.gen s' = Unbounded.gen s ∧
           Unbounded.yielded s' = Unbounded.yielded s))) ∧
  (∀ N src sched (s : Prefetch.state),
     Prefetch.run handle_result debug_enabled has_msg_counters set_rank sched
       (Prefetch.init N src) = Some s →
     (∀ i r e,
        Prefetch.futures s !! i = Some (r, Some (Failed e)) →
        i ∈ Prefetch.result_reads s →
        Prefetch.gen s = Prefetch.PEnd (Raised (OpFailure e)) ∧
        Prefetch.result_reads s = (Prefetch.yielded s).*1 ++ [i]) ∧
     (∃ sched' s',
        Prefetch.run handle_result debug_enabled has_msg_counters set_rank sched' s
        = Some s' ∧
        Prefetch.stuck handle_result debug_enabled has_msg_counters set_rank s') ∧
     (Forall is_item src →
      Prefetch.stuck handle_result debug_enabled has_msg_counters set_rank s →
      ∀ i r e,
        Prefetch.futures s !! i = Some (r, Some (Failed e)) →
        ∃ i' r' e',
          Prefetch.gen s = Prefetch.PEnd (Raised (OpFailure e')) ∧
          Prefetch.futures s !! i' = Some (r', Some (Failed e')) ∧
          Prefetch.result_reads s = (Prefetch.yielded s).*1 ++ [i']) ∧
     (∀ e, Prefetch.gen s = Prefetch.PEnd (Raised (OpFailure e)) →
        (∃ i r, Prefetch.futures s !! i = Some (r, Some (Failed e)) ∧
                Prefetch.result_reads s = (Prefetch.yielded s).*1 ++ [i]) ∧
        (∀ j v, (j, v) ∈ Prefetch.yielded s →
           ∃ r raw, Prefetch.futures s !! j = Some (r, Some (Ok raw)) ∧
                    v = handle_result raw) ∧
        (∀ sched' s',
           Prefetch.run handle_result debug_enabled has_msg_counters set_rank sched' s
           = Some s' →
           Prefetch.gen s' = Prefetch.gen s ∧
           Prefetch.yielded s' = Prefetch.yielded s ∧
           length (Prefetch.futures s') = length (Prefetch.futures s)))).
Proof.
  split.
  - intros src sched s Hr. pose proof (inv_run _ _ _ _ Hr) as I.
    split; [|split; [|split]].
    + intros i r e Hi Hin.
      destruct (failure_read _ _ _ _ _ _ _ I Hi Hin) as [Hg Hrd].
      split; [done|]. split; [done|]. rewrite <- Hrd. by eapply reads_order.
    + destruct (drain_spec handle_result (Unbounded.fuel_left s) s) as (H1 & H2 & _);
        [done|]. eauto.
    + intros Hsrc Hnd Hst i r e Hi. by eapply stuck_failure.
    + intros e Hg. split; [|split].
      * destruct (raised_last_read _ _ _ _ _ I Hg) as (i & r & Hi & Hrd).
        exists i, r. split; [done|]. split; [done|].
        rewrite <- Hrd. by eapply reads_order.
      * apply (Unbounded.inv_vals _ _ _ _ I).
      * intros sched' s' Hr'. destruct (ended_run _ _ _ _ _ Hg Hr') as (Hg' & Hy & _).
        by rewrite Hg, Hg'.
  - intros N src sched s Hr. pose proof (pinv_run _ _ _ _ _ _ _ _ Hr) as I.
    split; [|split; [|split]].
    + intros i r e Hi Hin. by eapply pfailure_read.
    + destruct (pdrain_spec handle_result debug_enabled has_msg_counters set_rank N _ _
                  (Prefetch.fuel_left s) s I) as (H1 & H2 & _); [done|]. eauto.
    + intros Hsrc Hst i r e Hi. by eapply pstuck_failure.
    + intros e Hg. split; [|split].
      * destruct (praised_last_read _ _ _ _ _ _ I Hg) as (i & r & Hi & Hrd). eauto.
      * apply (Prefetch.pi_vals _ _ _ _ _ I).
      * intros sched' s' Hr'.
        destruct (pended_run _ _ _ _ _ _ _ _ Hg Hr') as (Hg' & Hy & _ & Hf).
        by rewrite Hg, Hg'.
Qed.

(** The unbounded engine on [A, B, C] where the operation of B fails after
    A was yielded: at the end of the execution the operation of B has
    failed, and the generator has raised the error of a failed operation,
    whose outcome is the last one read. *)
Lemma operation_failure_ends_stream_B_fails :
  ∃ s, Unbounded.run echo unbounded_B_fails
         (Unbounded.init (Item <$> [req_A; req_B; req_C])) = Some s ∧
       Unbounded.stuck echo s ∧
       Unbounded.futures s !! 1 = Some (req_B, Some (Failed "boom")) ∧
       ∃ i' r' e',
         Unbounded.gen s = Unbounded.GEnd (Raised (OpFailure e')) ∧
         Unbounded.futures s !! i' = Some (r', Some (Failed e')) ∧
         Unbounded.result_reads s = (Unbounded.yielded s).*1 ++ [i'].
Proof.
  destruct (Unbounded.run echo unbounded_B_fails
              (Unbounded.init (Item <$> [req_A; req_B; req_C])))
    as [s|] eqn:Hr; [|by vm_compute in Hr].
  exists s. split; [reflexivity|].
  assert (Hst : Unbounded.stuck echo s).
  { apply (next_event_None echo). vm_compute in Hr. injection Hr as <-.
    vm_compute. reflexivity. }
  assert (Hf : Unbounded.futures s !! 1 = Some (req_B, Some (Failed "boom"))).
  { vm_compute in Hr. injection Hr as <-. reflexivity. }
  split; [exact Hst|]. split; [exact Hf|].
  destruct (operation_failure_ends_stream echo false false dispatch_rank) as [H _].
  destruct (H (Item <$> [req_A; req_B; req_C]) unbounded_B_fails s Hr)
    as (_ & _ & HL & _).
  apply (HL (Forall_is_item _)) with 1 req_B "boom".
  - apply (bool_decide_unpack _). vm_compute. exact I.
  - exact Hst.
  - exact Hf.
Defined.

(** C3 as stated fails in both engines: only the operation of B fails, the
    one of C succeeds, and yet the result of C is never yielded, because the
    failure of B has ended the generator. *)
Lemma operation_failure_aborts_other_requests :
  (∃ s, Unbounded.run echo unbounded_B_fails
          (Unbounded.init (Item <$> [req_A; req_B; req_C])) = Some s ∧
        Unbounded.stuck echo s ∧
        Unbounded.futures s !! 2 = Some (req_C, Some (Ok "C")) ∧
        Unbounded.results s = ["A"]) ∧
  (∃ s, Prefetch.run echo false false dispatch_rank prefetch_B_fails
          (Prefetch.init 2 (Item <$> [req_A; req_B; req_C])) = Some s ∧
        Prefetch.stuck echo false false dispatch_rank s ∧
        Prefetch.futures s !! 2 = Some (req_C, Some (Ok "C")) ∧
        Prefetch.results s = ["A"]).
Proof.
  split.
  - eexists. split; [vm_compute; reflexivity|].
    split; [apply (next_event_None echo); vm_compute; reflexivity|].
    repeat split.
  - eexists. split; [vm_compute; reflexivity|].
    split; [apply (pnext_event_None echo false false dispatch_rank);
            vm_compute; reflexivity|].
    repeat split.
Qed.

(** ** C4: a request iterator that raises *)

(** C4 fails for the unbounded engine.  [iterate_requests] runs in a task
    of its own that nobody awaits, so in no execution does the generator
    raise the iterator's exception; on an iterator that hands out A and
    then raises, the generator yields the result of A and then waits at
    [asyncio.wait] with nothing left that could wake it, since neither
    [end_of_iter] nor [all_requests_handled] is ever set.  The prefetch
    engine awaits its [iterate_requests] and raises the exception. *)
Theorem unbounded_producer_fault_hangs :
  (∀ (Raw Result : Type) (handle_result : Raw → Result) src sched
     (s : Unbounded.state),
     Unbounded.run handle_result sched (Unbounded.init src) = Some s →
     Unbounded.gen s ≠ Unbounded.GEnd (Raised ProducerFault)) ∧
  (∃ s, Unbounded.run echo unbounded_source_raises
          (Unbounded.init [Item req_A; Fault]) = Some s ∧
        Unbounded.producer s = Unbounded.TFailed ∧
        Unbounded.results s = ["A"] ∧
        Unbounded.gen s = Unbounded.GWait ∧
        Unbounded.end_of_iter s = false ∧
        Unbounded.all_requests_handled s = false ∧
        Unbounded.stuck echo s) ∧
  (∃ s, Prefetch.run echo false false dispatch_rank prefetch_source_raises
          (Prefetch.init 2 [Item req_A; Fault]) = Some s ∧
        Prefetch.gen s = Prefetch.PEnd (Raised ProducerFault)).
Proof.
  split; [|split].
  - intros Raw Result handle_result src sched s Hr.
    apply (Unbounded.inv_nofault _ _ _ _ (inv_run _ _ _ _ Hr)).
  - eexists. split; [vm_compute; reflexivity|].
    repeat split. apply (next_event_None echo); vm_compute; reflexivity.
  - eexists. split; [vm_compute; reflexivity|]. reflexivity.
Qed.

(** ** C5: order of dispatch and of yields *)

(** C5, amended.  Both engines dispatch the requests in source order.  The
    unbounded engine yields in completion order.  In the prefetch engine
    each call of [asyncio.as_completed] hands out the futures of its window
    in this order: first those that are done when it is called, in the
    order in which the set of the futures is iterated, then the others in
    the order in which they complete; as long as the generator is in that
    call, what it has yielded is what it had yielded before, followed by
    results in that order.  A request dispatched as a refill while a window
    is being drained is yielded only after every request of that window has
    been yielded, whenever its operation completes.  Under handling delays
    30, 10 and 20 the unbounded engine runs scenario A on [A, B, C] and
    yields [B, C, A]. *)
Theorem dispatch_and_yield_order {Raw Result : Type}
    (handle_result : Raw → Result) (debug_enabled has_msg_counters : bool)
    (set_rank : nat → nat → nat) :
  (∀ src sched (s : Unbounded.state),
     Unbounded.run handle_result sched (Unbounded.init src) = Some s →
     (Unbounded.futures s).*1 `prefix_of` requests_of src ∧
     (Unbounded.yielded s).*1 `prefix_of` completions sched) ∧
  (∀ N src sched (s : Prefetch.state),
     Prefetch.run handle_result debug_enabled has_msg_counters set_rank sched
       (Prefetch.init N src) = Some s →
     (Prefetch.futures s).*1 `prefix_of` requests_of src) ∧
  (∀ N src sched0 e sched2 (s0 s1 s2 : Prefetch.state),
     Prefetch.run handle_result debug_enabled has_msg_counters set_rank sched0
       (Prefetch.init N src) = Some s0 →
     Prefetch.step handle_result debug_enabled has_msg_counters set_rank e s0 = Some s1 →
     Prefetch.run handle_result debug_enabled has_msg_counters set_rank sched2 s1
     = Some s2 →
     Prefetch.as_completed_calls s1 = S (Prefetch.as_completed_calls s0) →
     Prefetch.as_completed_calls s2 = Prefetch.as_completed_calls s1 →
     (Prefetch.yielded s2).*1 `prefix_of`
       (Prefetch.yielded s0).*1
       ++ Prefetch.set_order set_rank (Prefetch.as_completed_calls s0)
            (filter (λ i, i ∈ Prefetch.prefetch_task s1) (completions sched0))
       ++ filter (λ i, i ∈ Prefetch.prefetch_task s1) (completions sched2)) ∧
  (∀ N src sched1 sched2 (s1 s2 : Prefetch.state) i,
     Prefetch.run handle_result debug_enabled has_msg_counters set_rank sched1
       (Prefetch.init N src) = Some s1 →
     i ∈ Prefetch.onrecv_task s1 →
     Prefetch.run handle_result debug_enabled has_msg_counters set_rank sched2 s1
     = Some s2 →
     i ∈ (Prefetch.yielded s2).*1 →
     ∃ l1 l2, (Prefetch.yielded s2).*1 = l1 ++ i :: l2 ∧
              ∀ j, j ∈ Prefetch.prefetch_task s1 → j ∈ l1) ∧
  (let run := unbounded_timed (delays [30; 10; 20]) (reply [req_A; req_B; req_C])
                              (Item <$> [req_A; req_B; req_C]) in
   run.1 = scenario_A ∧ Unbounded.results run.2 = ["B"; "C"; "A"]).
Proof.
  split; [|split; [|split; [|split]]].
  - intros src sched s Hr. pose proof (inv_run _ _ _ _ Hr) as I.
    split; [by eapply dispatch_order|by eapply yield_order].
  - intros N src sched s Hr. pose proof (pinv_run _ _ _ _ _ _ _ _ Hr) as I.
    by eapply pdispatch_order.
  - intros N src sched0 e sched2 s0 s1 s2 H0 He H2 Hc Hsame.
    pose proof (handout_order _ _ _ _ _ _ _ _ _ _ _ _ H0 He H2 Hc Hsame) as Hh.
    rewrite <- (Prefetch.pi_completed _ _ _ _ _ (pinv_run _ _ _ _ _ _ _ _ H0)).
    rewrite <- Hh.
    assert (H12 : Prefetch.run handle_result debug_enabled has_msg_counters set_rank
                    ((sched0 ++ [e]) ++ sched2) (Prefetch.init N src) = Some s2).
    { rewrite prun_app, prun_snoc, H0. simpl. by rewrite He. }
    etrans; [eapply preads_yielded, (pinv_run _ _ _ _ _ _ _ _ H12)|]. by eexists.
  - intros N src sched1 sched2 s1 s2 i H1 Hi H2 Hy.
    by eapply refill_yielded_after_window.
  - split; vm_compute; reflexivity.
Qed.

(** Scenario B: C is dispatched as a refill while the window of A and B is
    being drained, and it is yielded after both. *)
Lemma dispatch_and_yield_order_scenario_B :
  ∃ s1 s2,
    Prefetch.run echo false false dispatch_rank (take 6 scenario_B)
      (Prefetch.init 2 (Item <$> [req_A; req_B; req_C; req_D])) = Some s1 ∧
    Prefetch.run echo false false dispatch_rank (drop 6 scenario_B) s1 = Some s2 ∧
    Prefetch.prefetch_task s1 = [0; 1] ∧
    2 ∈ Prefetch.onrecv_task s1 ∧
    ∃ l1 l2, (Prefetch.yielded s2).*1 = l1 ++ 2 :: l2 ∧
             ∀ j, j ∈ Prefetch.prefetch_task s1 → j ∈ l1.
Proof.
  destruct (Prefetch.run echo false false dispatch_rank (take 6 scenario_B)
              (Prefetch.init 2 (Item <$> [req_A; req_B; req_C; req_D])))
    as [s1|] eqn:H1; [|by vm_compute in H1].
  destruct (Prefetch.run echo false false dispatch_rank (drop 6 scenario_B) s1)
    as [s2|] eqn:H2; [|by vm_compute in H1; injection H1 as <-; vm_compute in H2].
  exists s1, s2. split; [reflexivity|]. split; [exact H2|].
  assert (Hp : Prefetch.prefetch_task s1 = [0; 1]).
  { vm_compute in H1. injection H1 as <-. reflexivity. }
  assert (Ho : 2 ∈ Prefetch.onrecv_task s1).
  { vm_compute in H1. injection H1 as <-. left. }
  split; [exact Hp|]. split; [exact Ho|].
  destruct (dispatch_and_yield_order echo false false dispatch_rank)
    as (_ & _ & _ & H & _).
  apply (H 2 (Item <$> [req_A; req_B; req_C; req_D]) (take 6 scenario_B)
           (drop 6 scenario_B) s1 s2 2 H1 Ho H2).
  vm_compute in H1. injection H1 as <-. vm_compute in H2. injection H2 as <-.
  right. right. left.
Defined.

(** C5 as stated fails for the prefetch engine in two ways.  In scenario B
    the operations complete in the order B, C, A, D, but the results are
    yielded in the order B, A, C, D: C was dispatched into [onrecv_task] and
    is awaited only after the window [A, B] has been drained.  And within
    one window: on [A, B, C] with a window of three, B and A complete, in
    this order, before [asyncio.as_completed] is called, the set of the
    futures is iterated in the order of dispatch, and the results are
    yielded in the order A, B, C. *)
Lemma prefetch_yields_not_in_completion_order :
  (∃ s, Prefetch.run echo false false dispatch_rank scenario_B
          (Prefetch.init 2 (Item <$> [req_A; req_B; req_C; req_D])) = Some s ∧
        (prefetch_timed 2 (delays [5; 1; 1; 1]) (reply [req_A; req_B; req_C; req_D])
                        (Item <$> [req_A; req_B; req_C; req_D])).1 = scenario_B ∧
        completions scenario_B = [1; 2; 0; 3] ∧
        (Prefetch.yielded s).*1 = [1; 0; 2; 3] ∧
        Prefetch.results s = ["B"; "A"; "C"; "D"]) ∧
  (∃ s, Prefetch.run echo false false dispatch_rank done_before_call
          (Prefetch.init 3 (Item <$> [req_A; req_B; req_C])) = Some s ∧
        completions done_before_call = [1; 0; 2] ∧
        (Prefetch.yielded s).*1 = [0; 1; 2] ∧
        Prefetch.results s = ["A"; "B"; "C"]).
Proof.
  split.
  - eexists. split; [vm_compute; reflexivity|].
    split; [vm_compute; reflexivity|]. repeat split.
  - eexists. split; [vm_compute; reflexivity|]. repeat split.
Qed.

(** ** C6: the prefetch engine on an empty input *)

(** C6.  On an empty request iterator the prefetch engine, for any
    [prefetch], has exactly one execution: the generator logs one error and
    returns.  In every state of it no result has been yielded and no
    exception has been raised; before the generator's first step nothing but
    that step can happen, and after it the log holds exactly one entry, at
    error level, and the generator has returned. *)
Theorem prefetch_empty_stream {Raw Result : Type}
    (handle_result : Raw → Result) (debug_enabled has_msg_counters : bool)
    (set_rank : nat → nat → nat)
    (N : nat) (sched : list (event Raw)) (s : Prefetch.state) :
  Prefetch.run handle_result debug_enabled has_msg_counters set_rank sched
    (Prefetch.init N []) = Some s →
  Prefetch.yielded s = [] ∧
  (∀ e, Prefetch.gen s ≠ Prefetch.PEnd (Raised e)) ∧
  (sched = [] ∧
   Prefetch.step handle_result debug_enabled has_msg_counters set_rank Consumer s ≠ None
   ∨
   sched = [Consumer] ∧
   Prefetch.gen s = Prefetch.PEnd Finished ∧
   Prefetch.log s = [Error] ∧
   Prefetch.futures s = [] ∧
   Prefetch.stuck handle_result debug_enabled has_msg_counters set_rank s).
Proof.
  intros Hr. apply prefetch_empty_runs in Hr as [[-> ->]|[-> Hs]].
  - split; [done|]. split; [done|]. left. done.
  - injection Hs as <-. split; [done|]. split; [done|]. right.
    repeat split. by intros [| | |i o].
Qed.

(** Scenario C: empty input and [prefetch = 3]. *)
Lemma prefetch_empty_stream_scenario_C :
  ∃ s, Prefetch.run echo false false dispatch_rank [Consumer] (Prefetch.init 3 []) = Some s ∧
       Prefetch.yielded s = [] ∧
       (∀ e, Prefetch.gen s ≠ Prefetch.PEnd (Raised e)) ∧
       Prefetch.log s = [Error].
Proof.
  destruct (Prefetch.run echo false false dispatch_rank [Consumer] (Prefetch.init 3 []))
    as [s|] eqn:Hr; [|by vm_compute in Hr].
  exists s. split; [reflexivity|].
  destruct (prefetch_empty_stream echo false false dispatch_rank 3 [Consumer] s Hr)
    as (Hy & Hg & [[Hs _]|(_ & _ & Hl & _)]).
  - discriminate Hs.
  - split; [exact Hy|]. split; [exact Hg|exact Hl].
Defined.

(** ** C7: [_handle_end_of_iter] *)

(** C7 fails for the prefetch engine: [_stream_requests_with_prefetch]
    contains no call of [_handle_end_of_iter], so in every state of every
    execution the hook has been called zero times, also when the stream of
    the single request A has been served to its end.  The unbounded engine
    calls the hook once on the same input. *)
Theorem prefetch_skips_handle_end_of_iter :
  (∀ (Raw Result : Type) (handle_result : Raw → Result)
     (debug_enabled has_msg_counters : bool)
    (set_rank : nat → nat → nat) N src sched (s : Prefetch.state),
     Prefetch.run handle_result debug_enabled has_msg_counters set_rank sched
       (Prefetch.init N src) = Some s →
     Prefetch.eoi_calls s = 0) ∧
  (∃ s, Prefetch.run echo false false dispatch_rank prefetch_single
          (Prefetch.init 1 [Item req_A]) = Some s ∧
        Prefetch.stuck echo false false dispatch_rank s ∧
        Prefetch.gen s = Prefetch.PEnd Finished ∧
        Prefetch.results s = ["A"] ∧
        Prefetch.eoi_calls s = 0) ∧
  (∃ s, Unbounded.run echo unbounded_single (Unbounded.init [Item req_A]) = Some s ∧
        Unbounded.stuck echo s ∧
        Unbounded.gen s = Unbounded.GEnd Finished ∧
        Unbounded.results s = ["A"] ∧
        Unbounded.eoi_calls s = 1).
Proof.
  split; [|split].
  - intros Raw Result handle_result debug_enabled has_msg_counters set_rank N src sched s Hr.
    apply (Prefetch.pi_eoi _ _ _ _ _ (pinv_run _ _ _ _ _ _ _ _ Hr)).
  - eexists. split; [vm_compute; reflexivity|].
    split; [apply (pnext_event_None echo false false dispatch_rank); vm_compute; reflexivity|].
    repeat split.
  - eexists. split; [vm_compute; reflexivity|].
    split; [apply (next_event_None echo); vm_compute; reflexivity|].
    repeat split.
Qed.

(** ** C8: reading the outcome of an operation *)

(** C8, amended.  In every execution of either engine the outcome of an
    operation is read at most once, only after the operation has completed,
    and only by the generator at the point where it yields the result or
    raises the failure: the outcomes read are those yielded, followed by the
    failure that ended the generator if there is one.  The done-callback of
    the unbounded engine only appends the pair of request identifier and
    future to [result_queue], and a completion changes neither what has been
    read nor what has been yielded.  When the unbounded engine returns on an
    input with pairwise distinct identifiers, and whenever the prefetch
    engine returns, every outcome has been read exactly once. *)
Theorem outcome_read_at_most_once {Raw Result : Type}
    (handle_result : Raw → Result) (debug_enabled has_msg_counters : bool)
    (set_rank : nat → nat → nat) :
  (∀ src sched (s : Unbounded.state),
     Unbounded.run handle_result sched (Unbounded.init src) = Some s →
     NoDup (Unbounded.result_reads s) ∧
     (∀ i, i ∈ Unbounded.result_reads s →
        ∃ r o, Unbounded.futures s !! i = Some (r, Some o)) ∧
     ((Unbounded.yielded s).*1 = Unbounded.result_reads s ∨
      ∃ i e, Unbounded.gen s = Unbounded.GEnd (Raised (OpFailure e)) ∧
             Unbounded.result_reads s = (Unbounded.yielded s).*1 ++ [i]) ∧
     (∀ i o s', Unbounded.step handle_result (Complete i o) s = Some s' →
        Unbounded.result_reads s' = Unbounded.result_reads s ∧
        Unbounded.yielded s' = Unbounded.yielded s ∧
        ∃ r, Unbounded.futures s !! i = Some (r, None) ∧
             Unbounded.result_queue s' = Unbounded.result_queue s ++ [(request_id r, i)]) ∧
     (Forall is_item src → NoDup (ids_of src) →
      Unbounded.gen s = Unbounded.GEnd Finished →
      Unbounded.result_reads s ≡ₚ seq 0 (length (Unbounded.futures s)))) ∧
  (∀ (r : Request) (i : nat) (s : @Unbounded.state Raw Result),
     Unbounded.callback r i s
     = {| s with Unbounded.result_queue := Unbounded.result_queue s ++ [(request_id r, i)] |}) ∧
  (∀ N src sched (s : Prefetch.state),
     Prefetch.run handle_result debug_enabled has_msg_counters set_rank sched
       (Prefetch.init N src) = Some s →
     NoDup (Prefetch.result_reads s) ∧
     (∀ i, i ∈ Prefetch.result_reads s →
        ∃ r o, Prefetch.futures s !! i = Some (r, Some o)) ∧
     ((Prefetch.yielded s).*1 = Prefetch.result_reads s ∨
      ∃ i e, Prefetch.gen s = Prefetch.PEnd (Raised (OpFailure e)) ∧
             Prefetch.result_reads s = (Prefetch.yielded s).*1 ++ [i]) ∧
     (∀ i o s',
        Prefetch.step handle_result debug_enabled has_msg_counters set_rank (Complete i o) s
        = Some s' →
        Prefetch.result_reads s' = Prefetch.result_reads s ∧
        Prefetch.yielded s' = Prefetch.yielded s) ∧
     (Prefetch.gen s = Prefetch.PEnd Finished →
      Prefetch.result_reads s ≡ₚ seq 0 (length (Prefetch.futures s)))).
Proof.
  split; [|split].
  - intros src sched s Hr. pose proof (inv_run _ _ _ _ Hr) as I.
    split; [by eapply reads_nodup|]. split; [|split; [|split]].
    + intros i Hi. apply (Unbounded.inv_done _ _ _ _ I).
      rewrite (Unbounded.inv_order _ _ _ _ I).
      destruct (reads_order _ _ _ _ I) as [k ->]. set_solver.
    + apply (Unbounded.inv_reads _ _ _ _ I).
    + intros i o s' Hs. simpl in Hs. unfold Unbounded.complete in Hs.
      destruct (Unbounded.futures s !! i) as [[r [o'|]]|]; try done.
      injection Hs as <-. simpl. eauto.
    + intros Hsrc Hnd Hg.
      destruct (finished_all_yielded _ _ _ _ I Hg Hsrc Hnd) as (Hlen & Hperm & _).
      destruct (Unbounded.inv_reads _ _ _ _ I) as [<-|(i & e & Hge & _)].
      * by rewrite Hlen.
      * by rewrite Hg in Hge.
  - done.
  - intros N src sched s Hr. pose proof (pinv_run _ _ _ _ _ _ _ _ Hr) as I.
    split; [by eapply preads_nodup|]. split; [|split; [|split]].
    + intros i Hi. apply (Prefetch.pi_done _ _ _ _ _ I).
      by apply (Prefetch.pi_read_done _ _ _ _ _ I).
    + apply (Prefetch.pi_reads _ _ _ _ _ I).
    + intros i o s' Hs. simpl in Hs. unfold Prefetch.complete in Hs.
      destruct (Prefetch.futures s !! i) as [[r [o'|]]|]; try done.
      by injection Hs as <-.
    + intros Hg. destruct (finished_all_read _ _ _ _ _ I Hg) as (_ & _ & Hperm).
      destruct (Prefetch.pi_reads _ _ _ _ _ I) as [<-|(i & e & Hge & _)]; [done|].
      by rewrite Hg in Hge.
Qed.

(** Scenario A: no outcome is read twice. *)
Lemma outcome_read_at_most_once_scenario_A :
  ∃ s, Unbounded.run echo scenario_A (Unbounded.init (Item <$> [req_A; req_B; req_C]))
       = Some s ∧
       NoDup (Unbounded.result_reads s).
Proof.
  destruct (Unbounded.run echo scenario_A (Unbounded.init (Item <$> [req_A; req_B; req_C])))
    as [s|] eqn:Hr; [|by vm_compute in Hr].
  exists s. split; [reflexivity|].
  destruct (outcome_read_at_most_once echo false false dispatch_rank) as (H & _).
  destruct (H (Item <$> [req_A; req_B; req_C]) scenario_A s Hr) as [Hnd _].
  exact Hnd.
Defined.

(** C8 as stated fails where it says that every outcome is read: when the
    operation of A has failed, the generator has ended, and the outcome of
    the operation of B, which completed, is never read. *)
Lemma abandoned_outcome_never_read :
  ∃ s, Unbounded.run echo unbounded_A_fails (Unbounded.init (Item <$> [req_A; req_B]))
       = Some s ∧
       Unbounded.stuck echo s ∧
       Unbounded.futures s !! 1 = Some (req_B, Some (Ok "B")) ∧
       Unbounded.result_reads s = [0].
Proof.
  eexists. split; [vm_compute; reflexivity|].
  split; [apply (next_event_None echo); vm_compute; reflexivity|].
  repeat split.
Qed.

(** ** C9: the bound of the prefetch engine *)

(** C9, amended.  In every state of every execution of the prefetch engine
    with [prefetch = N >= 1] the number of dispatched requests whose result
    has not been yielded is at most [N]: the refill
    [iterate_requests(1, onrecv_task)] runs only after a [yield], which has
    freed one slot. *)
Theorem prefetch_cap_is_hard {Raw Result : Type}
    (handle_result : Raw → Result) (debug_enabled has_msg_counters : bool)
    (set_rank : nat → nat → nat)
    (N : nat) (src : list src_item) (sched : list (event Raw)) (s : Prefetch.state) :
  1 ≤ N →
  Prefetch.run handle_result debug_enabled has_msg_counters set_rank sched
    (Prefetch.init N src) = Some s →
  Prefetch.unyielded s ≤ N.
Proof.
  intros HN Hr. unfold Prefetch.unyielded.
  pose proof (cap_unyielded N s (cap_run _ _ _ _ _ _ _ _ HN Hr)). lia.
Qed.

(** Scenario B: after the refill that follows the first yield, exactly two
    requests are dispatched and not yielded. *)
Lemma prefetch_cap_is_hard_scenario_B :
  ∃ s, Prefetch.run echo false false dispatch_rank (take 6 scenario_B)
         (Prefetch.init 2 (Item <$> [req_A; req_B; req_C; req_D])) = Some s ∧
       length (Prefetch.futures s) = 3 ∧
       Prefetch.unyielded s ≤ 2.
Proof.
  destruct (Prefetch.run echo false false dispatch_rank (take 6 scenario_B)
              (Prefetch.init 2 (Item <$> [req_A; req_B; req_C; req_D])))
    as [s|] eqn:Hr; [|by vm_compute in Hr].
  exists s. split; [reflexivity|]. split.
  - vm_compute in Hr. injection Hr as <-. reflexivity.
  - apply (prefetch_cap_is_hard echo false false dispatch_rank 2
             (Item <$> [req_A; req_B; req_C; req_D]) (take 6 scenario_B) s);
      [lia|exact Hr].
Defined.

(** C9 as stated fails: there is no execution of the prefetch engine with
    [prefetch = N >= 1], on an input longer than [N] or on any other, in
    which more than [N] requests are dispatched and not yet yielded. *)
Lemma prefetch_never_exceeds_cap :
  ¬ ∃ (N : nat) (src : list src_item) (sched : list (event string))
      (s : Prefetch.state),
      1 ≤ N ∧ N < length src ∧
      Prefetch.run echo false false dispatch_rank sched (Prefetch.init N src) = Some s ∧
      N < Prefetch.unyielded s.
Proof.
  intros (N & src & sched & s & HN & _ & Hr & Hex).
  unfold Prefetch.unyielded in Hex.
  pose proof (cap_unyielded N s (cap_run _ _ _ _ _ _ _ _ HN Hr)). lia.
Qed.

(** ** C10: requests that share an identifier *)

(** C10.  [req_X1] and [req_X2] are two requests with the same
    [request_id].  On the input [X1, X2] the unbounded engine dispatches
    both, but [requests_to_handle] then holds one identifier only.  In one
    execution the generator returns after the result of X1, before the
    operation of X2 has completed: one result for two requests.  In another,
    where every operation succeeds as well, [requests_to_handle.remove]
    raises [KeyError] after the second result. *)
Theorem duplicate_request_id_breaks_unbounded :
  request_id req_X1 = request_id req_X2 ∧ req_X1 ≠ req_X2 ∧
  (∃ s, Unbounded.run echo duplicate_dispatch
          (Unbounded.init [Item req_X1; Item req_X2]) = Some s ∧
        (Unbounded.futures s).*1 = [req_X1; req_X2] ∧
        elements (Unbounded.requests_to_handle s) = ["x"]) ∧
  (∃ s, Unbounded.run echo duplicate_early_end
          (Unbounded.init [Item req_X1; Item req_X2]) = Some s ∧
        Forall succeeds duplicate_early_end ∧
        Unbounded.stuck echo s ∧
        Unbounded.gen s = Unbounded.GEnd Finished ∧
        Unbounded.results s = ["X1"]) ∧
  (∃ s, Unbounded.run echo duplicate_key_error
          (Unbounded.init [Item req_X1; Item req_X2]) = Some s ∧
        Forall succeeds duplicate_key_error ∧
        Unbounded.stuck echo s ∧
        Unbounded.gen s = Unbounded.GEnd (Raised (KeyError "x")) ∧
        Unbounded.results s = ["X1"; "X2"]).
Proof.
  split; [reflexivity|]. split; [discriminate|]. split; [|split].
  - eexists. split; [vm_compute; reflexivity|]. split; [reflexivity|].
    vm_compute. reflexivity.
  - eexists. split; [vm_compute; reflexivity|].
    split; [repeat constructor|].
    split; [apply (next_event_None echo); vm_compute; reflexivity|].
    repeat split.
  - eexists. split; [vm_compute; reflexivity|].
    split; [repeat constructor|].
    split; [apply (next_event_None echo); vm_compute; reflexivity|].
    repeat split.
Qed.

(** * Further properties of the engines *)

(** ** What the [iterate_requests] task has consumed *)

Section UnboundedMore.
Import Unbounded.
Context {Raw Result : Type}.
Variable handle_result : Raw → Result.
Abbreviation state := (@state Raw Result).
Abbreviation inv := (Unbounded.inv handle_result).

(** The generator body touches neither the request iterator nor, after
    it has created the task, the task. *)
Lemma stream_requests_frame (s s' : state) :
  stream_requests handle_result s = Some s' →
  request_iterator s' = request_iterator s ∧
  (producer s' = producer s ∨ gen s = GStart ∧ producer s' = TRunning).
Proof.
  destruct s as [it fs rq ei rh ah gt pr g ys ec rr].
  unfold stream_requests, loop_head. simpl. intros H.
  destruct g as [| |rid|st]; [| | |done].
  - destruct ah; injection H as <-; simpl; auto.
  - destruct gt as [[[rid i]|]|].
    + destruct (fs !! i) as [[r [[v|e]|]]|]; simplify_eq; simpl; auto.
    + destruct ah; simplify_eq; simpl; auto.
    + destruct ah; simplify_eq; simpl; auto.
  - case_decide; [|injection H as <-; simpl; auto].
    destruct (bool_decide (size (rh ∖ {[rid]}) = 0) && ei);
      injection H as <-; simpl; [auto|]. destruct ah; simpl; auto.
Qed.

Lemma consumed_prefix src sched (s : state) :
  run handle_result sched (init src) = Some s →
  ∃ pre, src = pre ++ request_iterator s ∧
         (producer s ≠ TFailed → Forall is_item pre).
Proof.
  revert s. induction sched as [|e sched IH] using rev_ind; intros s.
  - intros [= <-]. exists []. split; [done|]. by constructor.
  - rewrite run_snoc.
    destruct (run handle_result sched (init src)) as [s0|] eqn:Hr; [|done].
    simpl. intros Hs. destruct (IH s0 eq_refl) as (pre & Hpre & Hitems).
    pose proof (inv_run _ _ _ _ Hr) as I.
    destruct e as [| | |i o]; simpl in Hs.
    + destruct (stream_requests_frame _ _ Hs) as [Hit [Hp|[Hg Hp]]].
      * exists pre. rewrite Hit, Hp. done.
      * exists pre. rewrite Hit. split; [done|]. intros _. apply Hitems.
        rewrite (inv_start _ _ _ _ I Hg). done.
    + unfold iterate_requests in Hs. destruct (producer s0) eqn:Hp0; try done.
      destruct (request_iterator s0) as [|[r|] rest] eqn:Hit; injection Hs as <-; simpl.
      * exists pre. split; [done|]. intros _. by apply Hitems.
      * exists (pre ++ [Item r]). rewrite <- app_assoc. split; [done|].
        intros _. apply Forall_app. split; [by apply Hitems|]. by repeat constructor.
      * exists (pre ++ [Fault]). rewrite <- app_assoc. split; [done|]. done.
    + unfold queue_get in Hs. destruct (get_result_task s0) as [[|]|]; try done.
      destruct (result_queue s0); [done|]. injection Hs as <-. by exists pre.
    + unfold complete in Hs. destruct (futures s0 !! i) as [[r [o'|]]|]; try done.
      injection Hs as <-. by exists pre.
Qed.

Lemma finished_source_ok src sched (s : state) :
  run handle_result sched (init src) = Some s →
  end_of_iter s = true → request_iterator s = [] ∧ Forall is_item src.
Proof.
  intros Hr He. pose proof (inv_run _ _ _ _ Hr) as I.
  apply (inv_eoi _ _ _ _ I) in He.
  pose proof (inv_exhausted _ _ _ _ I He) as Hit. split; [done|].
  destruct (consumed_prefix _ _ _ Hr) as (pre & Hpre & Hitems).
  rewrite Hit, app_nil_r in Hpre. subst pre. apply Hitems. by rewrite He.
Qed.

(** The task dispatches on its own: it needs no step of the generator. *)
Lemma producer_runs_ahead (reqs : list Request) (s : state) :
  producer s = TRunning → request_iterator s = Item <$> reqs →
  ∃ s', run handle_result (replicate (length reqs) Producer) s = Some s' ∧
        (futures s').*1 = (futures s).*1 ++ reqs ∧
        yielded s' = yielded s ∧ gen s' = gen s.
Proof.
  revert s. induction reqs as [|r reqs IH]; intros s Hp Hit.
  - exists s. simpl. by rewrite app_nil_r.
  - simpl. unfold iterate_requests. rewrite Hp, Hit. simpl.
    match goal with |- context [run _ _ ?x] =>
      destruct (IH x) as (s' & Hr & Hf & Hy & Hg); [done..|] end.
    exists s'. split; [done|]. rewrite Hf. simpl.
    rewrite fmap_app, <- app_assoc. done.
Qed.
End UnboundedMore.

(** ** The window of the prefetch engine *)

Section PrefetchMore.
Import Prefetch.
Context {Raw Result : Type}.
Variable handle_result : Raw → Result.
Variables debug_enabled has_msg_counters : bool.
Variable set_rank : nat → nat → nat.
Abbreviation state := (@state Raw Result).
Abbreviation pstep := (step handle_result debug_enabled has_msg_counters set_rank).
Abbreviation prun := (run handle_result debug_enabled has_msg_counters set_rank).
Abbreviation pinv := (Prefetch.pinv handle_result).

Lemma env_full N (s s0 : state) :
  env s = env s0 → waiting_or_finished s →
  (is_req_empty s0 = false → length (futures s0) = N + length (yielded s0)) →
  window_full N s.
Proof.
  unfold env, window_full. intros [= _ -> _ -> _ _ ->] Hg H.
  by destruct Hg as [->|[->| ->]].
Qed.

Lemma full_step N src sched (s s' : state) e :
  1 ≤ N → pinv N src sched s → window_full N s → pstep e s = Some s' →
  window_full N s'.
Proof.
  intros HN I Hc H.
  pose proof (pi_fill _ _ _ _ _ I) as Hfill.
  pose proof (pi_refill _ _ _ _ _ I) as Hrefill.
  pose proof (pi_short _ _ _ _ _ I) as Hshort. clear I.
  destruct e as [| | |i o]; simpl in H; try done.
  - unfold stream_requests_with_prefetch in H.
    destruct (gen s) as [n c [|]| | | | |] eqn:Hg; [| | | | | |done].
    + destruct (Hfill _ _ eq_refl)
        as (-> & -> & Hy & Hr & Ho & Hd & Ht & He & Hcalls & Hl & Hlt).
      specialize (Hlt HN). clear Hfill Hrefill Hshort.
      unfold iterate_requests in H.
      destruct (request_iterator s) as [|[r|] rest]; simpl in H.
      * injection H as <-.
        match goal with |- window_full _ (after_fill _ _ _ ?x) =>
          destruct (after_fill_env debug_enabled has_msg_counters set_rank x) as [He' Hw];
          eapply (env_full _ _ x); eauto end.
        simpl. done.
      * case_decide as Hn; injection H as <-.
        -- match goal with |- window_full _ (after_fill _ _ _ ?x) =>
             destruct (after_fill_env debug_enabled has_msg_counters set_rank x) as [He' Hw];
             eapply (env_full _ _ x); eauto end.
           intros _. unfold fetch_append. simpl. rewrite length_app, Hy. simpl. lia.
        -- unfold fetch_append, window_full. simpl. done.
      * injection H as <-. unfold window_full. simpl. done.
    + unfold window_full in Hc. rewrite Hg in Hc. destruct Hc as [Hem Hc].
      destruct (Hrefill _ _ eq_refl) as [-> ->]. clear Hfill Hrefill Hshort.
      unfold iterate_requests in H.
      destruct (request_iterator s) as [|[r|] rest] eqn:Hit; simpl in H;
        injection H as <-.
      * match goal with |- window_full _ (for_next _ _ _ ?x) =>
          destruct (for_next_env debug_enabled has_msg_counters set_rank x) as [He' Hw];
          eapply (env_full _ _ x); eauto end.
        simpl. done.
      * match goal with |- window_full _ (for_next _ _ _ ?x) =>
          destruct (for_next_env debug_enabled has_msg_counters set_rank x) as [He' Hw];
          eapply (env_full _ _ x); eauto end.
        intros _. unfold fetch_append. simpl. rewrite length_app. simpl. lia.
      * unfold window_full. simpl. done.
    + destruct (Hshort (or_introl eq_refl)) as [Hem _].
      unfold await_yield in H.
      destruct (ac_done s) as [|j d]; [done|].
      destruct (futures s !! j) as [[r [[v|e]|]]|]; simplify_eq.
      all: unfold window_full; simpl; try done.
    + destruct (Hshort (or_intror eq_refl)) as [Hem _]. injection H as <-.
      destruct (short_next_env s) as [He' Hw]. eapply (env_full _ _ s); eauto.
      by rewrite Hem.
    + unfold window_full in Hc. rewrite Hg in Hc. unfold await_yield in H.
      destruct (ac_done s) as [|j d]; [done|].
      destruct (futures s !! j) as [[r [[v|e]|]]|]; simplify_eq.
      all: unfold window_full; simpl; rewrite ?length_app; simpl; try done.
      intros He. specialize (Hc He). lia.
    + unfold window_full in Hc. rewrite Hg in Hc.
      destruct (is_req_empty s) eqn:Hem; injection H as <-.
      * destruct (for_next_env debug_enabled has_msg_counters set_rank s) as [He' Hw].
        eapply (env_full _ _ s); eauto. by rewrite Hem.
      * unfold window_full. simpl. auto.
  - unfold complete in H. destruct (futures s !! i) as [[r [o'|]]|]; simplify_eq.
    unfold window_full in *. simpl. rewrite length_insert. done.
Qed.

Lemma full_run N src sched (s : state) :
  1 ≤ N → prun sched (init N src) = Some s → window_full N s.
Proof.
  intros HN. revert s. induction sched as [|e sched IH] using rev_ind; intros s.
  - intros [= <-]. unfold window_full. simpl. done.
  - rewrite prun_snoc. destruct (prun sched (init N src)) as [s0|] eqn:Hr; [|done].
    simpl. intros Hs. eapply full_step; eauto using pinv_run.
Qed.

(** With [prefetch = 0] the test [count == num_req] never succeeds. *)
Lemma fill_zero (reqs : list Request) (c : nat) (s : state) :
  gen s = PIter 0 c ToPrefetch → request_iterator s = Item <$> reqs →
  ∃ s', prun (replicate (length reqs) Consumer) s = Some s' ∧
        gen s' = PIter 0 (c + length reqs) ToPrefetch ∧
        (futures s').*1 = (futures s).*1 ++ reqs ∧
        yielded s' = yielded s ∧ request_iterator s' = [].
Proof.
  revert c s. induction reqs as [|r reqs IH]; intros c s Hg Hit.
  - exists s. simpl. rewrite app_nil_r, Nat.add_0_r. done.
  - simpl. unfold stream_requests_with_prefetch, iterate_requests.
    rewrite Hg, Hit. simpl.
    match goal with |- context [run _ _ _ _ _ ?x] =>
      destruct (IH (S c) x) as (s' & Hr & Hg' & Hf & Hy & Hi); [done..|] end.
    exists s'. split; [done|]. rewrite Hg', Hf. simpl.
    rewrite fmap_app, <- app_assoc. repeat split; try done. f_equal. lia.
Qed.
End PrefetchMore.

(** ** The debug flags of the prefetch engine *)

Section DebugFlags.
Import Prefetch.
Context {Raw Result : Type}.
Variable handle_result : Raw → Result.
Variables d h d' h' : bool.
Variable set_rank : nat → nat → nat.
Abbreviation state := (@state Raw Result).

Lemma forget_while_head (s : state) :
  forget_log (while_head d h set_rank s) = forget_log (while_head d' h' set_rank (forget_log s)).
Proof.
  destruct s as [it fs cs pt ot em ad at' g ys ec lg rr ac].
  unfold while_head, forget_log. simpl. case_bool_decide; simpl; [done|].
  by destruct (d && h), (d' && h').
Qed.

Lemma forget_for_next (s : state) :
  forget_log (for_next d h set_rank s) = forget_log (for_next d' h' set_rank (forget_log s)).
Proof.
  unfold for_next.
  change (ac_done (forget_log s)) with (ac_done s).
  change (ac_todo (forget_log s)) with (ac_todo s).
  case_bool_decide; [|done].
  rewrite forget_while_head. done.
Qed.

Lemma forget_after_fill (s : state) :
  forget_log (after_fill d h set_rank s) = forget_log (after_fill d' h' set_rank (forget_log s)).
Proof.
  unfold after_fill.
  change (is_req_empty (forget_log s)) with (is_req_empty s).
  change (prefetch_task (forget_log s)) with (prefetch_task s).
  destruct (is_req_empty s && bool_decide (prefetch_task s = [])); [done|].
  destruct (is_req_empty s).
  - destruct s as [it fs cs pt ot em ad at' g ys ec lg rr ac].
    unfold short_next, as_completed, forget_log. simpl. by case_bool_decide.
  - rewrite forget_while_head. done.
Qed.

Lemma forget_step e (s : state) :
  forget_log <$> step handle_result d h set_rank e s
  = forget_log <$> step handle_result d' h' set_rank e (forget_log s).
Proof.
  destruct e as [| | |i o]; simpl; try done.
  - unfold stream_requests_with_prefetch.
    change (gen (forget_log s)) with (gen s).
    destruct (gen s) as [n c t| | | | |]; [| | | | |done].
    + unfold iterate_requests.
      change (request_iterator (forget_log s)) with (request_iterator s).
      destruct (request_iterator s) as [|[r|] rest]; simpl.
      * f_equal. destruct t; [rewrite forget_after_fill|rewrite forget_for_next]; done.
      * change (futures (forget_log s)) with (futures s).
        case_decide; simpl; f_equal; [|by destruct t].
        destruct t; [rewrite forget_after_fill|rewrite forget_for_next]; done.
      * done.
    + unfold await_yield.
      change (ac_done (forget_log s)) with (ac_done s).
      change (futures (forget_log s)) with (futures s).
      destruct (ac_done s) as [|j k]; [done|].
      by destruct (futures s !! j) as [[r [[v|e]|]]|].
    + simpl. f_equal. destruct s as [it fs cs pt ot em ad at' g ys ec lg rr ac].
      unfold short_next, forget_log. simpl. by case_bool_decide.
    + unfold await_yield.
      change (ac_done (forget_log s)) with (ac_done s).
      change (futures (forget_log s)) with (futures s).
      destruct (ac_done s) as [|j k]; [done|].
      by destruct (futures s !! j) as [[r [[v|e]|]]|].
    + change (is_req_empty (forget_log s)) with (is_req_empty s).
      destruct (is_req_empty s); simpl; [|done].
      f_equal. apply forget_for_next.
  - unfold complete. change (futures (forget_log s)) with (futures s).
    by destruct (futures s !! i) as [[r [o'|]]|].
Qed.

End DebugFlags.

Lemma forget_run {Raw Result : Type} (handle_result : Raw → Result)
    (d h d' h' : bool) (set_rank : nat → nat → nat)
    (sched : list (event Raw)) (s s' : Prefetch.state) :
  forget_log s = forget_log s' →
  forget_log <$> Prefetch.run handle_result d h set_rank sched s
  = forget_log <$> Prefetch.run handle_result d' h' set_rank sched s'.
Proof.
  revert s s'. induction sched as [|e sched IH]; intros s s' Hs; simpl.
  - by rewrite Hs.
  - pose proof (forget_step handle_result d h d' h' set_rank e s) as E1.
    pose proof (forget_step handle_result d' h' d' h' set_rank e s') as E2.
    rewrite Hs, <- E2 in E1.
    destruct (Prefetch.step handle_result d h set_rank e s) as [s1|],
             (Prefetch.step handle_result d' h' set_rank e s') as [s2|]; simpl in *;
      try done.
    apply IH. congruence.
Qed.

(** ** Termination and progress *)

(** X1.  Whatever the request iterator hands out (requests with distinct or
    equal identifiers, an exception) and however the operations end, an
    execution of the unbounded engine on an input of [L] items has at most
    [3 + 5 * L] transitions and one of the prefetch engine at most
    [1 + 6 * L]: neither engine can keep running forever on a finite
    input. *)
Theorem engines_take_boundedly_many_steps {Raw Result : Type}
    (handle_result : Raw → Result) (debug_enabled has_msg_counters : bool)
    (set_rank : nat → nat → nat) :
  (∀ src sched (s : Unbounded.state),
     Unbounded.run handle_result sched (Unbounded.init src) = Some s →
     length sched ≤ 3 + 5 * length src) ∧
  (∀ N src sched (s : Prefetch.state),
     Prefetch.run handle_result debug_enabled has_msg_counters set_rank sched
       (Prefetch.init N src) = Some s →
     length sched ≤ 1 + 6 * length src).
Proof.
  split.
  - intros src sched s Hr. pose proof (fuel_left_run _ _ _ _ Hr) as Hf.
    rewrite unbounded_fuel_init in Hf. lia.
  - intros N src sched s Hr. pose proof (pfuel_left_run _ _ _ _ _ _ _ _ Hr). lia.
Qed.

Lemma engines_take_boundedly_many_steps_scenario_A :
  ∃ s, Unbounded.run echo scenario_A (Unbounded.init (Item <$> [req_A; req_B; req_C]))
       = Some s ∧
       length scenario_A ≤ 3 + 5 * 3.
Proof.
  destruct (Unbounded.run echo scenario_A (Unbounded.init (Item <$> [req_A; req_B; req_C])))
    as [s|] eqn:Hr; [|by vm_compute in Hr].
  exists s. split; [reflexivity|].
  destruct (engines_take_boundedly_many_steps echo false false dispatch_rank) as [H _].
  apply (H (Item <$> [req_A; req_B; req_C]) scenario_A s Hr).
Defined.

(** X2.  The prefetch engine never leaves its caller waiting: every
    execution, on any input and with any outcomes, can be continued until
    nothing can run any more, and whenever nothing can run the generator has
    ended, by returning or by raising. *)
Theorem prefetch_never_hangs {Raw Result : Type} `{!Inhabited Raw}
    (handle_result : Raw → Result) (debug_enabled has_msg_counters : bool)
    (set_rank : nat → nat → nat)
    (N : nat) (src : list src_item) (sched : list (event Raw)) (s : Prefetch.state) :
  Prefetch.run handle_result debug_enabled has_msg_counters set_rank sched
    (Prefetch.init N src) = Some s →
  (∃ sched' s',
     Prefetch.run handle_result debug_enabled has_msg_counters set_rank sched' s = Some s' ∧
     Prefetch.stuck handle_result debug_enabled has_msg_counters set_rank s') ∧
  (Prefetch.stuck handle_result debug_enabled has_msg_counters set_rank s →
   ∃ st, Prefetch.gen s = Prefetch.PEnd st).
Proof.
  intros Hr. pose proof (pinv_run _ _ _ _ _ _ _ _ Hr) as I. split.
  - destruct (pdrain_spec handle_result debug_enabled has_msg_counters set_rank N _ _
                (Prefetch.fuel_left s) s I) as (H1 & H2 & _); [done|]. eauto.
  - intros Hst. by eapply stuck_ended.
Qed.

Lemma prefetch_never_hangs_B_fails :
  ∃ s, Prefetch.run echo false false dispatch_rank prefetch_B_fails
         (Prefetch.init 2 (Item <$> [req_A; req_B; req_C])) = Some s ∧
       Prefetch.stuck echo false false dispatch_rank s ∧
       ∃ st, Prefetch.gen s = Prefetch.PEnd st.
Proof.
  destruct (Prefetch.run echo false false dispatch_rank prefetch_B_fails
              (Prefetch.init 2 (Item <$> [req_A; req_B; req_C])))
    as [s|] eqn:Hr; [|by vm_compute in Hr].
  exists s. split; [reflexivity|].
  assert (Hst : Prefetch.stuck echo false false dispatch_rank s).
  { apply (pnext_event_None echo false false dispatch_rank). vm_compute in Hr. injection Hr as <-.
    vm_compute. reflexivity. }
  split; [exact Hst|].
  destruct (prefetch_never_hangs echo false false dispatch_rank 2 (Item <$> [req_A; req_B; req_C])
              prefetch_B_fails s Hr) as [_ H].
  exact (H Hst).
Defined.

(** X3.  Let the hooks honour the dispatch contract: [_handle_request],
    [_handle_result] and [_handle_end_of_iter] return without raising (an
    exception of [_handle_request] or [_handle_end_of_iter] would end the
    [iterate_requests] task as an exception of the request iterator does,
    and leave the caller waiting).  Then on a request iterator that does not
    raise and hands out pairwise distinct identifiers the unbounded engine
    never leaves its caller waiting, also when operations fail: every
    execution can be continued until nothing can run, and then the
    generator has returned or has raised the failure of an operation. *)
Theorem unbounded_never_hangs_without_fault {Raw Result : Type} `{!Inhabited Raw}
    (handle_result : Raw → Result)
    (src : list src_item) (sched : list (event Raw)) (s : Unbounded.state) :
  Forall is_item src →
  NoDup (ids_of src) →
  Unbounded.run handle_result sched (Unbounded.init src) = Some s →
  (∃ sched' s', Unbounded.run handle_result sched' s = Some s' ∧
                Unbounded.stuck handle_result s') ∧
  (Unbounded.stuck handle_result s →
   Unbounded.gen s = Unbounded.GEnd Finished ∨
   ∃ e, Unbounded.gen s = Unbounded.GEnd (Raised (OpFailure e))).
Proof.
  intros Hsrc Hnd Hr. pose proof (inv_run _ _ _ _ Hr) as I. split.
  - destruct (drain_spec handle_result (Unbounded.fuel_left s) s) as (H1 & H2 & _);
      [done|]. eauto.
  - intros Hst. by eapply stuck_ended_unbounded.
Qed.

Lemma unbounded_never_hangs_without_fault_B_fails :
  ∃ s, Unbounded.run echo unbounded_B_fails
         (Unbounded.init (Item <$> [req_A; req_B; req_C])) = Some s ∧
       Unbounded.stuck echo s ∧
       (Unbounded.gen s = Unbounded.GEnd Finished ∨
        ∃ e, Unbounded.gen s = Unbounded.GEnd (Raised (OpFailure e))).
Proof.
  destruct (Unbounded.run echo unbounded_B_fails
              (Unbounded.init (Item <$> [req_A; req_B; req_C])))
    as [s|] eqn:Hr; [|by vm_compute in Hr].
  exists s. split; [reflexivity|].
  assert (Hst : Unbounded.stuck echo s).
  { apply (next_event_None echo). vm_compute in Hr. injection Hr as <-.
    vm_compute. reflexivity. }
  split; [exact Hst|].
  destruct (unbounded_never_hangs_without_fault echo
              (Item <$> [req_A; req_B; req_C]) unbounded_B_fails s) as [_ H].
  - repeat constructor.
  - apply (bool_decide_unpack _). vm_compute. exact I.
  - exact Hr.
  - exact (H Hst).
Defined.

(** X4.  When the request iterator raises and no operation has failed, the
    prefetch engine ends by raising the iterator's exception: once nothing
    can run any more, that exception is what the caller has got. *)
Theorem prefetch_raises_producer_fault {Raw Result : Type}
    (handle_result : Raw → Result) (debug_enabled has_msg_counters : bool)
    (set_rank : nat → nat → nat)
    (N : nat) (src : list src_item) (sched : list (event Raw)) (s : Prefetch.state) :
  ¬ Forall is_item src →
  Forall succeeds sched →
  Prefetch.run handle_result debug_enabled has_msg_counters set_rank sched
    (Prefetch.init N src) = Some s →
  Prefetch.stuck handle_result debug_enabled has_msg_counters set_rank s →
  Prefetch.gen s = Prefetch.PEnd (Raised ProducerFault).
Proof.
  intros Hsrc Hok Hr Hst. pose proof (pinv_run _ _ _ _ _ _ _ _ Hr) as I.
  destruct (stuck_ended _ _ _ _ _ _ _ _ I Hst) as [[|[e|k|]] Hg]; [| | |done].
  - destruct (Prefetch.pi_finished _ _ _ _ _ I Hg) as (Hit & _).
    destruct (Prefetch.pi_source _ _ _ _ _ I) as (pre & Hpre & _ & [Hp|Hp]).
    + rewrite Hit, app_nil_r in Hpre. by subst pre.
    + by rewrite Hg in Hp.
  - destruct (Prefetch.pi_failure _ _ _ _ _ I e Hg) as (i & r & _ & Hi).
    apply (poutcome_run _ _ _ _ _ _ _ _ Hr) in Hi.
    rewrite Forall_forall in Hok. by apply Hok in Hi.
  - by apply (Prefetch.pi_nokeyerror _ _ _ _ _ I) in Hg.
Qed.

Lemma prefetch_raises_producer_fault_after_A :
  ∃ s, Prefetch.run echo false false dispatch_rank (prefetch_source_raises ++ [Complete 0 (Ok "A")])
         (Prefetch.init 2 [Item req_A; Fault]) = Some s ∧
       Prefetch.gen s = Prefetch.PEnd (Raised ProducerFault).
Proof.
  destruct (Prefetch.run echo false false dispatch_rank (prefetch_source_raises ++ [Complete 0 (Ok "A")])
              (Prefetch.init 2 [Item req_A; Fault]))
    as [s|] eqn:Hr; [|by vm_compute in Hr].
  exists s. split; [reflexivity|].
  apply (prefetch_raises_producer_fault echo false false dispatch_rank 2 [Item req_A; Fault]
           (prefetch_source_raises ++ [Complete 0 (Ok "A")]) s).
  - intros H. apply Forall_cons in H as [_ H]. apply Forall_cons in H as [H _]. exact H.
  - repeat constructor.
  - exact Hr.
  - apply (pnext_event_None echo false false dispatch_rank). vm_compute in Hr. injection Hr as <-.
    vm_compute. reflexivity.
Defined.

(** ** What a normal return means *)

(** X5.  When the generator of the unbounded engine returns, on an input
    with pairwise distinct identifiers, the request iterator has been
    consumed to its end without raising, every request it handed out has
    been dispatched, and the result of each has been yielded exactly once.
    In particular the generator never returns on an iterator that raises. *)
Theorem unbounded_return_is_complete {Raw Result : Type}
    (handle_result : Raw → Result)
    (src : list src_item) (sched : list (event Raw)) (s : Unbounded.state) :
  NoDup (ids_of src) →
  Unbounded.run handle_result sched (Unbounded.init src) = Some s →
  Unbounded.gen s = Unbounded.GEnd Finished →
  Forall is_item src ∧
  Unbounded.request_iterator s = [] ∧
  (Unbounded.futures s).*1 = requests_of src ∧
  (Unbounded.yielded s).*1 ≡ₚ seq 0 (length src).
Proof.
  intros Hnd Hr Hg. pose proof (inv_run _ _ _ _ Hr) as I.
  destruct (Unbounded.inv_handled _ _ _ _ I (Unbounded.inv_finished _ _ _ _ I Hg))
    as [Heoi _].
  destruct (finished_source_ok _ _ _ _ Hr Heoi) as [Hit Hsrc].
  destruct (finished_all_yielded _ _ _ _ I Hg Hsrc Hnd) as (Hlen & Hperm & _).
  repeat split; [done..| |done].
  apply prefix_length_eq; [by eapply dispatch_order|].
  rewrite length_fmap, Hlen, requests_of_items by done. done.
Qed.

Lemma unbounded_return_is_complete_scenario_A :
  ∃ s, Unbounded.run echo scenario_A (Unbounded.init (Item <$> [req_A; req_B; req_C]))
       = Some s ∧
       (Unbounded.futures s).*1 = [req_A; req_B; req_C] ∧
       (Unbounded.yielded s).*1 ≡ₚ [0; 1; 2].
Proof.
  destruct (Unbounded.run echo scenario_A (Unbounded.init (Item <$> [req_A; req_B; req_C])))
    as [s|] eqn:Hr; [|by vm_compute in Hr].
  exists s. split; [reflexivity|].
  destruct (unbounded_return_is_complete echo (Item <$> [req_A; req_B; req_C])
              scenario_A s) as (_ & _ & Hf & Hy).
  - apply (bool_decide_unpack _). vm_compute. exact I.
  - exact Hr.
  - vm_compute in Hr. injection Hr as <-. reflexivity.
  - split; [exact Hf|exact Hy].
Defined.

(** X6.  When the generator of the prefetch engine returns, whatever
    [prefetch] is and whatever the identifiers are, the request iterator has
    been consumed to its end without raising, every request it handed out
    has been dispatched, and the result of each has been yielded exactly
    once. *)
Theorem prefetch_return_is_complete {Raw Result : Type}
    (handle_result : Raw → Result) (debug_enabled has_msg_counters : bool)
    (set_rank : nat → nat → nat)
    (N : nat) (src : list src_item) (sched : list (event Raw)) (s : Prefetch.state) :
  Prefetch.run handle_result debug_enabled has_msg_counters set_rank sched
    (Prefetch.init N src) = Some s →
  Prefetch.gen s = Prefetch.PEnd Finished →
  Forall is_item src ∧
  Prefetch.request_iterator s = [] ∧
  (Prefetch.futures s).*1 = requests_of src ∧
  (Prefetch.yielded s).*1 ≡ₚ seq 0 (length src).
Proof.
  intros Hr Hg. pose proof (pinv_run _ _ _ _ _ _ _ _ Hr) as I.
  destruct (finished_all_read _ _ _ _ _ I Hg) as (Hit & Hlen & Hperm).
  assert (Hsrc : Forall is_item src).
  { destruct (Prefetch.pi_source _ _ _ _ _ I) as (pre & Hpre & _ & [Hp|Hp]).
    - rewrite Hit, app_nil_r in Hpre. by subst pre.
    - by rewrite Hg in Hp. }
  rewrite requests_of_items in Hlen by done.
  repeat split; [done..| |by rewrite <- Hlen].
  apply prefix_length_eq; [by eapply pdispatch_order|].
  rewrite length_fmap, Hlen, requests_of_items by done. done.
Qed.

Lemma prefetch_return_is_complete_scenario_B :
  ∃ s, Prefetch.run echo false false dispatch_rank scenario_B
         (Prefetch.init 2 (Item <$> [req_A; req_B; req_C; req_D])) = Some s ∧
       (Prefetch.futures s).*1 = [req_A; req_B; req_C; req_D] ∧
       (Prefetch.yielded s).*1 ≡ₚ [0; 1; 2; 3].
Proof.
  destruct (Prefetch.run echo false false dispatch_rank scenario_B
              (Prefetch.init 2 (Item <$> [req_A; req_B; req_C; req_D])))
    as [s|] eqn:Hr; [|by vm_compute in Hr].
  exists s. split; [reflexivity|].
  destruct (prefetch_return_is_complete echo false false dispatch_rank 2
              (Item <$> [req_A; req_B; req_C; req_D]) scenario_B s)
    as (_ & _ & Hf & Hy).
  - exact Hr.
  - vm_compute in Hr. injection Hr as <-. reflexivity.
  - split; [exact Hf|exact Hy].
Defined.

(** ** What is yielded and what is raised *)

(** X7.  In every execution of either engine a yielded result belongs to a
    request the iterator has handed out and is [_handle_result] applied to
    the outcome with which that request's operation has completed
    successfully; no operation's result is yielded twice. *)
Theorem yields_are_sound {Raw Result : Type}
    (handle_result : Raw → Result) (debug_enabled has_msg_counters : bool)
    (set_rank : nat → nat → nat) :
  (∀ src sched (s : Unbounded.state),
     Unbounded.run handle_result sched (Unbounded.init src) = Some s →
     NoDup (Unbounded.yielded s).*1 ∧
     ∀ i v, (i, v) ∈ Unbounded.yielded s →
       ∃ r raw, requests_of src !! i = Some r ∧ Complete i (Ok raw) ∈ sched ∧
                v = handle_result raw) ∧
  (∀ N src sched (s : Prefetch.state),
     Prefetch.run handle_result debug_enabled has_msg_counters set_rank sched
       (Prefetch.init N src) = Some s →
     NoDup (Prefetch.yielded s).*1 ∧
     ∀ i v, (i, v) ∈ Prefetch.yielded s →
       ∃ r raw, requests_of src !! i = Some r ∧ Complete i (Ok raw) ∈ sched ∧
                v = handle_result raw).
Proof.
  split.
  - intros src sched s Hr. pose proof (inv_run _ _ _ _ Hr) as I. split.
    + pose proof (reads_nodup _ _ _ _ I) as Hnd.
      destruct (Unbounded.inv_reads _ _ _ _ I) as [->|(i & e & _ & Hrd)]; [done|].
      rewrite Hrd in Hnd. by apply NoDup_app in Hnd as [? _].
    + intros i v Hiv.
      destruct (Unbounded.inv_vals _ _ _ _ I i v Hiv) as (r & raw & Hi & ->).
      exists r, raw. split; [|split; [by eapply outcome_run|done]].
      eapply prefix_lookup_Some; [|by eapply dispatch_order].
      by rewrite list_lookup_fmap, Hi.
  - intros N src sched s Hr. pose proof (pinv_run _ _ _ _ _ _ _ _ Hr) as I. split.
    + pose proof (preads_nodup _ _ _ _ _ _ _ _ Hr) as Hnd.
      destruct (preads_yielded _ _ _ _ _ I) as [k Hk]. rewrite Hk in Hnd.
      by apply NoDup_app in Hnd as [? _].
    + intros i v Hiv.
      destruct (Prefetch.pi_vals _ _ _ _ _ I i v Hiv) as (r & raw & Hi & ->).
      exists r, raw. split; [|split; [by eapply poutcome_run|done]].
      eapply prefix_lookup_Some; [|by eapply pdispatch_order].
      by rewrite list_lookup_fmap, Hi.
Qed.

Lemma yields_are_sound_scenario_B :
  ∃ s, Prefetch.run echo false false dispatch_rank scenario_B
         (Prefetch.init 2 (Item <$> [req_A; req_B; req_C; req_D])) = Some s ∧
       NoDup (Prefetch.yielded s).*1.
Proof.
  destruct (Prefetch.run echo false false dispatch_rank scenario_B
              (Prefetch.init 2 (Item <$> [req_A; req_B; req_C; req_D])))
    as [s|] eqn:Hr; [|by vm_compute in Hr].
  exists s. split; [reflexivity|].
  destruct (yields_are_sound echo false false dispatch_rank) as [_ H].
  destruct (H 2 (Item <$> [req_A; req_B; req_C; req_D]) scenario_B s Hr) as [Hnd _].
  exact Hnd.
Defined.

(** X8.  Let the hooks honour the dispatch contract: [_handle_request],
    [_handle_result] and [_handle_end_of_iter] return without raising (an
    exception of [_handle_result], or of [_handle_request] in the prefetch
    engine, would leave the generator as well).  Then an exception that ends
    the generator has a cause in the execution.  The unbounded engine
    raises the failure of an operation that has completed with that
    failure, or a [KeyError] from [requests_to_handle.remove], and the
    latter only if two requests share an identifier.  The prefetch engine
    raises the failure of an operation that has completed with that
    failure, or the exception of the request iterator, and the latter only
    if the iterator raised. *)
Theorem raised_exceptions_have_a_cause {Raw Result : Type}
    (handle_result : Raw → Result) (debug_enabled has_msg_counters : bool)
    (set_rank : nat → nat → nat) :
  (∀ src sched (s : Unbounded.state) x,
     Unbounded.run handle_result sched (Unbounded.init src) = Some s →
     Unbounded.gen s = Unbounded.GEnd (Raised x) →
     (∃ e i, x = OpFailure e ∧ Complete i (Failed e) ∈ sched) ∨
     (∃ k, x = KeyError k ∧ ¬ NoDup (ids_of src))) ∧
  (∀ N src sched (s : Prefetch.state) x,
     Prefetch.run handle_result debug_enabled has_msg_counters set_rank sched
       (Prefetch.init N src) = Some s →
     Prefetch.gen s = Prefetch.PEnd (Raised x) →
     (∃ e i, x = OpFailure e ∧ Complete i (Failed e) ∈ sched) ∨
     (x = ProducerFault ∧ ¬ Forall is_item src)).
Proof.
  split.
  - intros src sched s x Hr Hg. pose proof (inv_run _ _ _ _ Hr) as I.
    destruct x as [e|k|].
    + left. destruct (Unbounded.inv_failure _ _ _ _ I e Hg) as (i & r & _ & Hi).
      exists e, i. split; [done|]. by eapply outcome_run.
    + right. exists k. split; [done|]. intros Hnd.
      by apply (Unbounded.inv_nokeyerror _ _ _ _ I Hnd) in Hg.
    + by apply (Unbounded.inv_nofault _ _ _ _ I) in Hg.
  - intros N src sched s x Hr Hg. pose proof (pinv_run _ _ _ _ _ _ _ _ Hr) as I.
    destruct x as [e|k|].
    + left. destruct (Prefetch.pi_failure _ _ _ _ _ I e Hg) as (i & r & _ & Hi).
      exists e, i. split; [done|]. by eapply poutcome_run.
    + by apply (Prefetch.pi_nokeyerror _ _ _ _ _ I) in Hg.
    + right. split; [done|]. by apply (Prefetch.pi_fault _ _ _ _ _ I).
Qed.

Lemma raised_exceptions_have_a_cause_A_fails :
  ∃ s, Unbounded.run echo unbounded_A_fails (Unbounded.init (Item <$> [req_A; req_B]))
       = Some s ∧
       ((∃ e i, OpFailure "boom" = OpFailure e ∧ Complete i (Failed e) ∈ unbounded_A_fails) ∨
        (∃ k, OpFailure "boom" = KeyError k ∧ ¬ NoDup (ids_of (Item <$> [req_A; req_B])))).
Proof.
  destruct (Unbounded.run echo unbounded_A_fails (Unbounded.init (Item <$> [req_A; req_B])))
    as [s|] eqn:Hr; [|by vm_compute in Hr].
  exists s. split; [reflexivity|].
  destruct (raised_exceptions_have_a_cause echo false false dispatch_rank) as [H _].
  apply (H (Item <$> [req_A; req_B]) unbounded_A_fails s (OpFailure "boom") Hr).
  vm_compute in Hr. injection Hr as <-. reflexivity.
Defined.

(** ** The hooks and flags of the unbounded engine *)

(** X9.  The unbounded engine calls [_handle_end_of_iter] at most once, and
    has called it exactly when [end_of_iter] is set; by then the request
    iterator has been consumed to its end without raising.  When the
    generator returns, the hook has been called. *)
Theorem unbounded_end_of_iter_hook {Raw Result : Type}
    (handle_result : Raw → Result)
    (src : list src_item) (sched : list (event Raw)) (s : Unbounded.state) :
  Unbounded.run handle_result sched (Unbounded.init src) = Some s →
  Unbounded.eoi_calls s ≤ 1 ∧
  (Unbounded.eoi_calls s = 1 ↔ Unbounded.end_of_iter s = true) ∧
  (Unbounded.eoi_calls s = 1 →
   Unbounded.request_iterator s = [] ∧ Forall is_item src) ∧
  (Unbounded.gen s = Unbounded.GEnd Finished → Unbounded.eoi_calls s = 1).
Proof.
  intros Hr. pose proof (inv_run _ _ _ _ Hr) as I.
  pose proof (Unbounded.inv_eoi_calls _ _ _ _ I) as Hc.
  assert (Hiff : Unbounded.eoi_calls s = 1 ↔ Unbounded.end_of_iter s = true).
  { rewrite Hc. by destruct (Unbounded.end_of_iter s). }
  split; [|split; [done|split]].
  - rewrite Hc. destruct (Unbounded.end_of_iter s); lia.
  - intros H. apply Hiff in H. by eapply finished_source_ok.
  - intros Hg. apply Hiff.
    by destruct (Unbounded.inv_handled _ _ _ _ I (Unbounded.inv_finished _ _ _ _ I Hg)).
Qed.

Lemma unbounded_end_of_iter_hook_single :
  ∃ s, Unbounded.run echo unbounded_single (Unbounded.init [Item req_A]) = Some s ∧
       Unbounded.eoi_calls s ≤ 1 ∧
       (Unbounded.eoi_calls s = 1 ↔ Unbounded.end_of_iter s = true).
Proof.
  destruct (Unbounded.run echo unbounded_single (Unbounded.init [Item req_A]))
    as [s|] eqn:Hr; [|by vm_compute in Hr].
  exists s. split; [reflexivity|].
  destruct (unbounded_end_of_iter_hook echo [Item req_A] unbounded_single s Hr)
    as (H1 & H2 & _).
  split; [exact H1|exact H2].
Defined.

(** X10.  The unbounded engine applies no backpressure: once the generator
    has been started, the [iterate_requests] task can dispatch every request
    of the input before a single result has been yielded and without any
    further step of the generator. *)
Theorem unbounded_dispatch_is_unthrottled {Raw Result : Type}
    (handle_result : Raw → Result) (reqs : list Request) :
  ∃ s : Unbounded.state,
    Unbounded.run handle_result (Consumer :: replicate (length reqs) Producer)
      (Unbounded.init (Item <$> reqs)) = Some s ∧
    (Unbounded.futures s).*1 = reqs ∧
    Unbounded.unyielded s = length reqs ∧
    Unbounded.yielded s = [].
Proof.
  simpl.
  match goal with |- context [Unbounded.run _ _ ?x] =>
    destruct (producer_runs_ahead handle_result reqs x) as (s & Hr & Hf & Hy & _);
      [done..|] end.
  exists s. split; [done|]. simpl in Hf, Hy. split; [done|].
  split; [|done]. unfold Unbounded.unyielded.
  rewrite Hy, <- (length_fmap fst), Hf. simpl. lia.
Qed.

(** X15.  In the unbounded engine the event [all_requests_handled] is set
    exactly when [end_of_iter] is set and [requests_to_handle] is empty. *)
Theorem unbounded_all_handled_flag {Raw Result : Type}
    (handle_result : Raw → Result)
    (src : list src_item) (sched : list (event Raw)) (s : Unbounded.state) :
  Unbounded.run handle_result sched (Unbounded.init src) = Some s →
  (Unbounded.all_requests_handled s = true ↔
   Unbounded.end_of_iter s = true ∧ Unbounded.requests_to_handle s = ∅).
Proof.
  intros Hr. pose proof (inv_run _ _ _ _ Hr) as I. split.
  - apply (Unbounded.inv_handled _ _ _ _ I).
  - intros [H1 H2]. by apply (Unbounded.inv_live _ _ _ _ I).
Qed.

Lemma unbounded_all_handled_flag_single :
  ∃ s, Unbounded.run echo unbounded_single (Unbounded.init [Item req_A]) = Some s ∧
       Unbounded.end_of_iter s = true ∧ Unbounded.requests_to_handle s = ∅.
Proof.
  destruct (Unbounded.run echo unbounded_single (Unbounded.init [Item req_A]))
    as [s|] eqn:Hr; [|by vm_compute in Hr].
  exists s. split; [reflexivity|].
  apply (unbounded_all_handled_flag echo [Item req_A] unbounded_single s Hr).
  vm_compute in Hr. injection Hr as <-. reflexivity.
Defined.

(** ** The window, the log and the flags of the prefetch engine *)

(** X11.  With [prefetch = 0] the test [count == num_req] of
    [iterate_requests] never succeeds, so the first call fetches the whole
    input: every request is dispatched before anything is awaited or
    yielded. *)
Theorem prefetch_zero_fetches_everything {Raw Result : Type}
    (handle_result : Raw → Result) (debug_enabled has_msg_counters : bool)
    (set_rank : nat → nat → nat)
    (reqs : list Request) :
  ∃ s : Prefetch.state,
    Prefetch.run handle_result debug_enabled has_msg_counters set_rank
      (replicate (length reqs) Consumer) (Prefetch.init 0 (Item <$> reqs)) = Some s ∧
    (Prefetch.futures s).*1 = reqs ∧
    Prefetch.unyielded s = length reqs ∧
    Prefetch.gen s = Prefetch.PIter 0 (length reqs) Prefetch.ToPrefetch.
Proof.
  destruct (fill_zero handle_result debug_enabled has_msg_counters set_rank reqs 0
              (Prefetch.init 0 (Item <$> reqs))) as (s & Hr & Hg & Hf & Hy & _);
    [done..|].
  exists s. split; [done|]. simpl in Hf, Hy. split; [done|]. split; [|done].
  unfold Prefetch.unyielded. rewrite Hy, <- (length_fmap fst), Hf. simpl. lia.
Qed.

(** X12.  The prefetch engine logs an error only for an empty input: if the
    log holds an error entry, the request iterator was empty, the entry is
    the only one, and the generator has returned. *)
Theorem error_logged_only_for_empty_input {Raw Result : Type}
    (handle_result : Raw → Result) (debug_enabled has_msg_counters : bool)
    (set_rank : nat → nat → nat)
    (N : nat) (src : list src_item) (sched : list (event Raw)) (s : Prefetch.state) :
  Prefetch.run handle_result debug_enabled has_msg_counters set_rank sched
    (Prefetch.init N src) = Some s →
  Error ∈ Prefetch.log s →
  src = [] ∧ Prefetch.log s = [Error] ∧ Prefetch.gen s = Prefetch.PEnd Finished.
Proof.
  intros Hr He. pose proof (pinv_run _ _ _ _ _ _ _ _ Hr) as I.
  destruct (Prefetch.pi_log _ _ _ _ _ I) as [Hn|(Hl & Hs & Hg)]; [done|].
  by rewrite Hl.
Qed.

Lemma error_logged_only_for_empty_input_scenario_C :
  ∃ s, Prefetch.run echo true true dispatch_rank [Consumer] (Prefetch.init 3 []) = Some s ∧
       Prefetch.log s = [Error].
Proof.
  destruct (Prefetch.run echo true true dispatch_rank [Consumer] (Prefetch.init 3 []))
    as [s|] eqn:Hr; [|by vm_compute in Hr].
  exists s. split; [reflexivity|].
  destruct (error_logged_only_for_empty_input echo true true dispatch_rank 3 [] [Consumer] s Hr)
    as (_ & Hl & _).
  - vm_compute in Hr. injection Hr as <-. vm_compute. apply list_elem_of_here.
  - exact Hl.
Defined.

(** X13.  As long as the generator of the prefetch engine has not raised,
    every dispatched operation is in exactly one place: its outcome has been
    read, or it is in the window being awaited, or it is in [onrecv_task].
    No operation is lost and none is awaited twice. *)
Theorem prefetch_tracks_every_operation {Raw Result : Type}
    (handle_result : Raw → Result) (debug_enabled has_msg_counters : bool)
    (set_rank : nat → nat → nat)
    (N : nat) (src : list src_item) (sched : list (event Raw)) (s : Prefetch.state) :
  Prefetch.run handle_result debug_enabled has_msg_counters set_rank sched
    (Prefetch.init N src) = Some s →
  (∀ x, Prefetch.gen s ≠ Prefetch.PEnd (Raised x)) →
  Prefetch.result_reads s ++ Prefetch.active s ++ Prefetch.onrecv_task s
    ≡ₚ seq 0 (length (Prefetch.futures s)).
Proof.
  intros Hr Hg. pose proof (pinv_run _ _ _ _ _ _ _ _ Hr) as I.
  symmetry. apply (Prefetch.pi_partition _ _ _ _ _ I).
  unfold Prefetch.alive. destruct (Prefetch.gen s) as [| | | | |[|x]] eqn:E; try done.
  by apply (Hg x).
Qed.

Lemma prefetch_tracks_every_operation_scenario_B :
  ∃ s, Prefetch.run echo false false dispatch_rank (take 6 scenario_B)
         (Prefetch.init 2 (Item <$> [req_A; req_B; req_C; req_D])) = Some s ∧
       Prefetch.result_reads s ++ Prefetch.active s ++ Prefetch.onrecv_task s
         ≡ₚ [0; 1; 2].
Proof.
  destruct (Prefetch.run echo false false dispatch_rank (take 6 scenario_B)
              (Prefetch.init 2 (Item <$> [req_A; req_B; req_C; req_D])))
    as [s|] eqn:Hr; [|by vm_compute in Hr].
  exists s. split; [reflexivity|].
  assert (Hlen : length (Prefetch.futures s) = 3).
  { vm_compute in Hr. injection Hr as <-. reflexivity. }
  change [0; 1; 2] with (seq 0 3). rewrite <- Hlen.
  apply (prefetch_tracks_every_operation echo false false dispatch_rank 2
           (Item <$> [req_A; req_B; req_C; req_D]) (take 6 scenario_B) s Hr).
  vm_compute in Hr. injection Hr as <-. discriminate.
Defined.

(** X14.  The prefetch engine with [prefetch = N >= 1] keeps its window
    full: as long as the request iterator has requests left, exactly [N]
    dispatched requests are not yet yielded whenever the generator waits for
    a completion, and exactly [N - 1] between a [yield] and the refill that
    follows it. *)
Theorem prefetch_window_kept_full {Raw Result : Type}
    (handle_result : Raw → Result) (debug_enabled has_msg_counters : bool)
    (set_rank : nat → nat → nat)
    (N : nat) (src : list src_item) (sched : list (event Raw)) (s : Prefetch.state) :
  1 ≤ N →
  Prefetch.run handle_result debug_enabled has_msg_counters set_rank sched
    (Prefetch.init N src) = Some s →
  Prefetch.request_iterator s ≠ [] →
  (Prefetch.gen s = Prefetch.PWait → Prefetch.unyielded s = N) ∧
  (Prefetch.gen s = Prefetch.PYield → Prefetch.unyielded s = N - 1).
Proof.
  intros HN Hr Hit. pose proof (pinv_run _ _ _ _ _ _ _ _ Hr) as I.
  pose proof (full_run _ _ _ _ _ _ _ _ HN Hr) as Hf.
  assert (He : Prefetch.is_req_empty s = false).
  { destruct (Prefetch.is_req_empty s) eqn:E; [|done].
    by apply (Prefetch.pi_empty _ _ _ _ _ I) in E. }
  unfold window_full in Hf. unfold Prefetch.unyielded.
  split; intros Hg; rewrite Hg in Hf; specialize (Hf He); lia.
Qed.

Lemma prefetch_window_kept_full_scenario_B :
  ∃ s, Prefetch.run echo false false dispatch_rank (take 3 scenario_B)
         (Prefetch.init 2 (Item <$> [req_A; req_B; req_C; req_D])) = Some s ∧
       Prefetch.gen s = Prefetch.PWait ∧
       Prefetch.unyielded s = 2.
Proof.
  destruct (Prefetch.run echo false false dispatch_rank (take 3 scenario_B)
              (Prefetch.init 2 (Item <$> [req_A; req_B; req_C; req_D])))
    as [s|] eqn:Hr; [|by vm_compute in Hr].
  exists s. split; [reflexivity|].
  assert (Hg : Prefetch.gen s = Prefetch.PWait).
  { vm_compute in Hr. injection Hr as <-. reflexivity. }
  split; [exact Hg|].
  destruct (prefetch_window_kept_full echo false false dispatch_rank 2
              (Item <$> [req_A; req_B; req_C; req_D]) (take 3 scenario_B) s)
    as [H _].
  - lia.
  - exact Hr.
  - vm_compute in Hr. injection Hr as <-. discriminate.
  - exact (H Hg).
Defined.

(** X16.  The debug flags of the logger change nothing but the log: under
    any two settings of [debug_enabled] and of the message counters, the
    same schedule is an execution or not, and leads to states that differ
    in their logs only. *)
Theorem debug_flags_only_log {Raw Result : Type}
    (handle_result : Raw → Result) (d h d' h' : bool)
    (set_rank : nat → nat → nat)
    (N : nat) (src : list src_item) (sched : list (event Raw)) :
  forget_log <$> Prefetch.run handle_result d h set_rank sched (Prefetch.init N src)
  = forget_log <$> Prefetch.run handle_result d' h' set_rank sched
                     (Prefetch.init N src).
Proof. by apply forget_run. Qed.
